(** * Blockify distillation service: a shallow embedding and its properties

    The development follows the layout of [blockify-distillation-service/app]:

    - [models.py]            request validation ([BlockifyResult], [AutoDistillRequest]);
    - [db/base.py], [db/sqlite.py], [db/filesystem.py]   the two job stores;
    - [dedupe/similarity.py], [dedupe/lsh.py]            the similarity index;
    - [llm/blockify.py]      the LLM merge client;
    - [service.py]           hierarchical merging and response assembly;
    - [dedupe/algorithm.py]  the iteration driver.

    Conventions.  Python dictionaries with a fixed set of keys are records; a
    key that may be missing is an [option] field.  Dictionaries used as maps
    ([_jobs], the [jobs] table) are [gmap]s.  Remote services (embedding
    endpoint, distill endpoint), random draws ([uuid.uuid4], LSH hyperplanes)
    and library numerics are parameters.  Worker pools are run in submission
    order.  Similarities and thresholds are rationals; the slice bounds of
    the hierarchical merger and the reduction percentage of the statistics
    are evaluated in binary64, as Python does. *)

From Stdlib Require Import ZArith QArith Qround Qminmax Lqa Uint63 PrimFloat FloatOps SpecFloat.
From Stdlib Require Import Ascii String.
From stdpp Require Import gmap strings list sorting pretty.

Local Open Scope string_scope.
Local Open Scope list_scope.

(** ** Data model ([models.py]) *)

(** [BlockifiedTextResult]: the three content fields are required, the
    entity fields are optional. *)
Record BlockifiedTextResult := mkText {
  name : string;
  criticalQuestion : string;
  trustedAnswer : string;
  entityType : option string;
  entityUUID : option string;
  isPublic : option bool
}.

(** A vector of the embedding space. *)
Definition vec := list Q.

(** A block as the pipeline carries it (a Python [dict]).  For the keys that
    some producers leave out, [None] is "key absent".  A key that pydantic
    dumps with the value [None] is [Some None]. *)
Record Block := mkBlock {
  type : string;
  blockifyResultUUID : string;
  blockifiedTextResult : BlockifiedTextResult;
  hidden : option bool;
  exported : option bool;
  reviewed : option bool;
  blockifyDocumentUUID : option (option string);
  blockifyResultsUsed : option (option (list string));
  _embedding : option vec
}.

(** [block.get(key, False)] for the boolean flags. *)
Definition get_flag (o : option bool) : bool := default false o.

Definition set_hidden (h : bool) (b : Block) : Block :=
  mkBlock (type b) (blockifyResultUUID b) (blockifiedTextResult b) (Some h)
          (exported b) (reviewed b) (blockifyDocumentUUID b)
          (blockifyResultsUsed b) (_embedding b).

Definition set_embedding (e : option vec) (b : Block) : Block :=
  mkBlock (type b) (blockifyResultUUID b) (blockifiedTextResult b) (hidden b)
          (exported b) (reviewed b) (blockifyDocumentUUID b)
          (blockifyResultsUsed b) e.

(** *** Request validation *)

(** The wire form of a block before validation: required fields are present,
    fields with a default may be missing. *)
Record RawBlock := mkRaw {
  raw_type : string;
  raw_blockifyResultUUID : string;
  raw_blockifiedTextResult : BlockifiedTextResult;
  raw_hidden : option bool;
  raw_exported : option bool;
  raw_reviewed : option bool;
  raw_blockifyDocumentUUID : option string;
  raw_blockifyResultsUsed : option (list string)
}.

(** [type: Literal["blockify", "merged", "synthetic", "new"]] *)
Definition BlockifyResult_type_literal : list string :=
  ["blockify"; "merged"; "synthetic"; "new"].

(** Validation of one block followed by [model_dump()]: every model field
    becomes a key of the dictionary, defaults filled in. *)
Definition validate_BlockifyResult (r : RawBlock) : option Block :=
  if bool_decide (raw_type r ∈ BlockifyResult_type_literal) then
    Some (mkBlock (raw_type r) (raw_blockifyResultUUID r)
                  (raw_blockifiedTextResult r)
                  (Some (default false (raw_hidden r)))
                  (Some (default false (raw_exported r)))
                  (Some (default false (raw_reviewed r)))
                  (Some (raw_blockifyDocumentUUID r))
                  (Some (raw_blockifyResultsUsed r))
                  None)
  else None.

Record AutoDistillRequest := mkRequest {
  blockifyTaskUUID : string;
  similarity : Q;
  iterations : Z;
  results : list Block
}.

(** [similarity: ge=0.0, le=1.0], [iterations: ge=1, le=10],
    [results: min_length=1]; [None] is the validation error. *)
Definition validate_AutoDistillRequest
    (task : string) (sim : option Q) (iters : option Z) (raws : list RawBlock)
    : option AutoDistillRequest :=
  let s := default (55 # 100)%Q sim in
  let n := default 4%Z iters in
  if negb (Qle_bool 0 s && Qle_bool s 1) then None
  else if negb ((1 <=? n)%Z && (n <=? 10)%Z) then None
  else if bool_decide (raws = []) then None
  else bs ← mapM validate_BlockifyResult raws; Some (mkRequest task s n bs).

(** ** Job stores ([db/base.py], [db/sqlite.py], [db/filesystem.py]) *)

(** JSON payloads held by a job (result, progress details, snapshots). *)
#[warnings="-register-all"]
Inductive json :=
| JNull
| JBool (b : bool)
| JNum (q : Q)
| JStr (s : string)
| JList (l : list json)
| JDict (l : list (string * json)).

(** Python truthiness of a decoded JSON value. *)
Definition truthy (j : json) : bool :=
  match j with
  | JNull => false
  | JBool b => b
  | JNum q => negb (Qeq_bool q 0)
  | JStr s => negb (bool_decide (s = ""))
  | JList l => negb (bool_decide (l = []))
  | JDict l => negb (bool_decide (l = []))
  end.

Inductive JobStatus := RUNNING | SUCCESS | FAILURE | TIMEOUT.

Definition JobStatus_value (s : JobStatus) : string :=
  match s with
  | RUNNING => "running"
  | SUCCESS => "success"
  | FAILURE => "failure"
  | TIMEOUT => "timeout"
  end.

Global Instance JobStatus_eq_dec : EqDecision JobStatus.
Proof. solve_decision. Defined.

(** The [Job] dataclass; it is also the row of the [jobs] table
    ([JobModel]), whose JSON text columns are kept decoded. *)
Record Job := mkJob {
  job_id : string;
  status : JobStatus;
  created_at : Q;
  completed_at : option Q;
  result : option json;
  error : option string;
  progress : Q;
  progress_phase : string;
  progress_details : json;
  intermediate_result : option json;
  webhook_url : option string
}.

(** [JobStore.remove_future]: [_running_futures] is kept as the set of job
    identifiers that have a tracked future. *)
Definition remove_future (job_id : string) (futures : gset string) : gset string :=
  futures ∖ {[job_id]}.

Module SQLite.

(** The [jobs] table keyed by its primary key, and the tracked futures. *)
Record store := mkStore {
  jobs : gmap string Job;
  _running_futures : gset string
}.

Definition create_job (jid : string) (now : Q) (webhook_url : option string)
    (st : store) : store :=
  mkStore (<[jid := mkJob jid RUNNING now None None None 0 "" (JDict [])
                              None webhook_url]> (jobs st))
          (_running_futures st).

Definition get_job (jid : string) (st : store) : option Job :=
  jobs st !! jid.

Definition update_job_success (jid : string) (res : json) (now : Q)
    (st : store) : store :=
  let table :=
    match jobs st !! jid with
    | Some model =>
        <[jid := mkJob (job_id model) SUCCESS (created_at model)
                          (Some now) (Some res) (error model) (progress model)
                          (progress_phase model) (progress_details model)
                          None (webhook_url model)]> (jobs st)
    | None => jobs st
    end in
  mkStore table (remove_future jid (_running_futures st)).

Definition update_job_failure (jid : string) (err : string) (now : Q)
    (st : store) : store :=
  let table :=
    match jobs st !! jid with
    | Some model =>
        <[jid := mkJob (job_id model) FAILURE (created_at model)
                          (Some now) (result model) (Some err) (progress model)
                          (progress_phase model) (progress_details model)
                          (intermediate_result model) (webhook_url model)]> (jobs st)
    | None => jobs st
    end in
  mkStore table (remove_future jid (_running_futures st)).

(** The early [return] on an already successful job also skips
    [remove_future]. *)
Definition update_job_timeout (jid : string) (now : Q) (st : store) : store :=
  match jobs st !! jid with
  | Some model =>
      if bool_decide (status model = SUCCESS) then st
      else
        mkStore
          (<[jid := mkJob (job_id model) TIMEOUT (created_at model)
                             (Some now) (result model)
                             (Some "Job execution timed out") (progress model)
                             (progress_phase model) (progress_details model)
                             (intermediate_result model) (webhook_url model)]>
             (jobs st))
          (remove_future jid (_running_futures st))
  | None => mkStore (jobs st) (remove_future jid (_running_futures st))
  end.

Definition update_job_progress (jid phase : string) (p : Q)
    (details : option json) (st : store) : store :=
  match jobs st !! jid with
  | Some model =>
      if bool_decide (status model = RUNNING) then
        mkStore
          (<[jid := mkJob (job_id model) (status model)
                             (created_at model) (completed_at model)
                             (result model) (error model) p phase
                             (default (JDict []) details)
                             (intermediate_result model) (webhook_url model)]>
             (jobs st))
          (_running_futures st)
      else st
  | None => st
  end.

Definition save_intermediate_result (jid : string) (res : json)
    (st : store) : store :=
  match jobs st !! jid with
  | Some model =>
      mkStore
        (<[jid := mkJob (job_id model) (status model)
                           (created_at model) (completed_at model)
                           (result model) (error model) (progress model)
                           (progress_phase model) (progress_details model)
                           (Some res) (webhook_url model)]> (jobs st))
        (_running_futures st)
  | None => st
  end.

Definition get_intermediate_result (jid : string) (st : store) : option json :=
  match get_job jid st with
  | Some job => intermediate_result job
  | None => None
  end.

Definition delete_job (jid : string) (st : store) : bool * store :=
  match jobs st !! jid with
  | Some _ =>
      (true, mkStore (delete jid (jobs st))
                     (remove_future jid (_running_futures st)))
  | None => (false, st)
  end.

(** The filter [completed_at != None AND completed_at < cutoff]. *)
Definition completed_before (cutoff : Q) (model : Job) : bool :=
  match completed_at model with
  | Some c => negb (Qle_bool cutoff c)
  | None => false
  end.

(** [now] is the value of [time.time()]. *)
Definition cleanup_old_jobs (max_age_seconds : Z) (now : Q) (st : store)
    : nat * store :=
  let cutoff := (now - inject_Z max_age_seconds)%Q in
  (size (filter (λ kv, completed_before cutoff kv.2 = true) (jobs st)),
   mkStore (filter (λ kv, completed_before cutoff kv.2 = false) (jobs st))
           (_running_futures st)).

Definition get_active_job_count (st : store) : nat :=
  size (filter (λ kv, status kv.2 = RUNNING) (jobs st)).

(** The filter [completed_at != None AND completed_at >= since_timestamp]. *)
Definition completed_since (since_timestamp : Q) (model : Job) : bool :=
  match completed_at model with
  | Some c => Qle_bool since_timestamp c
  | None => false
  end.

Definition get_completed_job_count_since (since_timestamp : Q) (st : store) : nat :=
  size (filter (λ kv, completed_since since_timestamp kv.2 = true) (jobs st)).

End SQLite.

Module Filesystem.

(** [_jobs] is the in-memory dictionary of running jobs; [job_files] and
    [intermediate_files] are the files [<id>.json] and
    [<id>.intermediate.json] of the jobs directory.  File operations are
    taken to succeed. *)
Record store := mkStore {
  _jobs : gmap string Job;
  job_files : gmap string Job;
  intermediate_files : gmap string json;
  _running_futures : gset string
}.

(** What [_persist_job] writes and [_load_job_from_disk] reads back: the
    progress fields and the snapshot are not persisted and come back with
    the dataclass defaults. *)
Definition persisted (job : Job) : Job :=
  mkJob (job_id job) (status job) (created_at job) (completed_at job)
        (result job) (error job) 0 "" (JDict []) None (webhook_url job).

Definition _persist_job (job : Job) (files : gmap string Job) : gmap string Job :=
  <[job_id job := persisted job]> files.

Definition _load_job_from_disk (jid : string) (st : store) : option Job :=
  job_files st !! jid.

Definition _cleanup_intermediate (jid : string) (files : gmap string json)
    : gmap string json :=
  delete jid files.

Definition create_job (jid : string) (now : Q) (webhook_url : option string)
    (st : store) : store :=
  mkStore (<[jid := mkJob jid RUNNING now None None None 0 "" (JDict []) None
                          webhook_url]> (_jobs st))
          (job_files st) (intermediate_files st) (_running_futures st).

Definition get_job (jid : string) (st : store) : option Job :=
  match _jobs st !! jid with
  | Some job => Some job
  | None => _load_job_from_disk jid st
  end.

Definition update_job_success (jid : string) (res : json) (now : Q)
    (st : store) : store :=
  match _jobs st !! jid with
  | Some job =>
      let job' := mkJob (job_id job) SUCCESS (created_at job) (Some now)
                        (Some res) (error job) (progress job)
                        (progress_phase job) (progress_details job)
                        (intermediate_result job) (webhook_url job) in
      mkStore (delete jid (_jobs st))
              (_persist_job job' (job_files st))
              (_cleanup_intermediate jid (intermediate_files st))
              (remove_future jid (_running_futures st))
  | None => st
  end.

Definition update_job_failure (jid : string) (err : string) (now : Q)
    (st : store) : store :=
  match _jobs st !! jid with
  | Some job =>
      let job' := mkJob (job_id job) FAILURE (created_at job) (Some now)
                        (result job) (Some err) (progress job)
                        (progress_phase job) (progress_details job)
                        (intermediate_result job) (webhook_url job) in
      mkStore (delete jid (_jobs st))
              (_persist_job job' (job_files st))
              (intermediate_files st)
              (remove_future jid (_running_futures st))
  | None => st
  end.

Definition update_job_timeout (jid : string) (now : Q) (st : store) : store :=
  match _jobs st !! jid with
  | Some job =>
      if bool_decide (status job = SUCCESS) then st
      else
        let job' := mkJob (job_id job) TIMEOUT (created_at job) (Some now)
                          (result job) (Some "Job execution timed out")
                          (progress job) (progress_phase job)
                          (progress_details job) (intermediate_result job)
                          (webhook_url job) in
        mkStore (delete jid (_jobs st))
                (_persist_job job' (job_files st))
                (intermediate_files st)
                (remove_future jid (_running_futures st))
  | None => st
  end.

Definition update_job_progress (jid phase : string) (p : Q)
    (details : option json) (st : store) : store :=
  match _jobs st !! jid with
  | Some job =>
      mkStore (<[jid := mkJob (job_id job) (status job) (created_at job)
                              (completed_at job) (result job) (error job) p
                              phase (default (JDict []) details)
                              (intermediate_result job) (webhook_url job)]>
                 (_jobs st))
              (job_files st) (intermediate_files st) (_running_futures st)
  | None => st
  end.

Definition save_intermediate_result (jid : string) (res : json)
    (st : store) : store :=
  match _jobs st !! jid with
  | Some job =>
      mkStore (<[jid := mkJob (job_id job) (status job) (created_at job)
                              (completed_at job) (result job) (error job)
                              (progress job) (progress_phase job)
                              (progress_details job) (Some res)
                              (webhook_url job)]> (_jobs st))
              (job_files st)
              (<[jid := res]> (intermediate_files st))
              (_running_futures st)
  | None => st
  end.

Definition get_intermediate_result (jid : string) (st : store) : option json :=
  let in_memory :=
    match _jobs st !! jid with
    | Some job =>
        match intermediate_result job with
        | Some r => if truthy r then Some r else None
        | None => None
        end
    | None => None
    end in
  match in_memory with
  | Some r => Some r
  | None => intermediate_files st !! jid
  end.

Definition delete_job (jid : string) (st : store) : bool * store :=
  let deleted :=
    bool_decide (is_Some (_jobs st !! jid)) || bool_decide (is_Some (job_files st !! jid)) in
  (deleted,
   mkStore (delete jid (_jobs st)) (delete jid (job_files st))
           (_cleanup_intermediate jid (intermediate_files st))
           (remove_future jid (_running_futures st))).

(** The constructor on a data directory that holds the given files:
    nothing is in memory. *)
Definition __init__ (job_files : gmap string Job)
    (intermediate_files : gmap string json) : store :=
  mkStore ∅ job_files intermediate_files ∅.

Definition get_active_job_count (st : store) : nat := size (_jobs st).

End Filesystem.

(** ** Configuration ([config.py]) *)

Record Settings := mkSettings {
  max_cluster_size_for_llm : Z;
  max_recursion_depth : Z;
  llm_parallel_threads : Z;
  similarity_parallel_threads : Z;
  llm_max_retries : Z;
  llm_retry_delay : Q;
  use_lsh : bool;
  similarity_increase_per_iteration : Q;
  similarity_increase_iteration_start : Z;
  max_similarity_threshold : Q;
  louvain_node_threshold : Z;
  openai_embedding_batch_size : Z;
  embedding_parallel_threads : Z
}.

(** The defaults of [Settings]. *)
Definition default_settings : Settings :=
  mkSettings 20 10 10 10 3 2 true (1 # 100) 2 (98 # 100) 1000 1000 10.

(** ** Exceptions and effects *)

(** A computation either returns or raises; the payload of [Raise] is
    [str(e)]. *)
Inductive Result (A : Type) :=
| Ok (a : A)
| Raise (msg : string).
Arguments Ok {A} a.
Arguments Raise {A} msg.

Global Instance result_ret : MRet Result := λ A a, Ok a.
Global Instance result_bind : MBind Result := λ A B f m,
  match m with
  | Ok a => f a
  | Raise e => Raise e
  end.

(** The statement that called [time.sleep]. *)
Inductive SleepSite := ApiBackoff | MergeBackoff.

Global Instance SleepSite_eq_dec : EqDecision SleepSite.
Proof. solve_decision. Defined.

(** A Python number: an [int], or a [float] (binary64). *)
Inductive PyNumber :=
| PyInt (n : Z)
| PyFloat (x : float).

Record Stats := mkStats {
  startingBlockCount : Z;
  finalBlockCount : Z;
  blocksRemoved : Z;
  blocksAdded : Z;
  blockReductionPercent : PyNumber
}.

(** The dictionary returned by [process_dedupe_request] and built by
    [_build_intermediate_result]. *)
Record Response := mkResponse {
  schemaVersion : Z;
  resp_status : string;
  stats : Stats;
  resp_results : list Block
}.

(** What a run has done to the outside: the number of requests posted to
    the distill endpoint, the number of [uuid.uuid4()] draws, the durations
    slept (oldest first) and the snapshots handed to the intermediate-save
    callback (oldest first). *)
Record World := mkWorld {
  http_calls : nat;
  uuid_draws : nat;
  slept : list (SleepSite * Q);
  saved_intermediate : list Response
}.

Definition initial_world : World := mkWorld 0 0 [] [].

(** The durations slept at one site, oldest first. *)
Definition delays_at (site : SleepSite) (w : World) : list Q :=
  snd <$> filter (λ e, e.1 = site) (slept w).

Definition M (A : Type) : Type := World → Result A * World.

Global Instance M_ret : MRet M := λ A a w, (Ok a, w).
Global Instance M_bind : MBind M := λ A B f m w,
  match m w with
  | (Ok a, w') => f a w'
  | (Raise e, w') => (Raise e, w')
  end.

Definition raise {A} (msg : string) : M A := λ w, (Raise msg, w).

(** [try: body except Exception as e: handler(str(e))] *)
Definition try_except {A} (body : M A) (handler : string → M A) : M A := λ w,
  match body w with
  | (Ok a, w') => (Ok a, w')
  | (Raise e, w') => handler e w'
  end.

Definition lift {A} (r : Result A) : M A := λ w, (r, w).

Definition sleep (site : SleepSite) (seconds : Q) : M unit := λ w,
  (Ok (), mkWorld (http_calls w) (uuid_draws w) (slept w ++ [(site, seconds)])
                  (saved_intermediate w)).

Definition save_intermediate (r : Response) : M unit := λ w,
  (Ok (), mkWorld (http_calls w) (uuid_draws w) (slept w)
                  (saved_intermediate w ++ [r])).

(** What one [requests.post] to the distill endpoint followed by
    [raise_for_status()] and [response.json()] can give: an exception
    (transport failure, timeout, non-2xx status, undecodable body), a body
    with [choices[0].message.content], or a body without it. *)
Inductive HttpOutcome :=
| HttpError (msg : string)
| HttpContent (content : string)
| HttpUnknownFormat.

(** The three fields of a merged unit returned by the LLM. *)
Record Content := mkContent {
  c_name : string;
  c_criticalQuestion : string;
  c_trustedAnswer : string
}.

Record MergeResponse := mkMergeResponse {
  success : bool;
  merged_content : option Content;
  merged_contents : option (list Content);
  mr_error : option string
}.

(** ** Numeric and list helpers *)

Definition dot (u v : vec) : Q := foldr Qplus 0%Q (zip_with Qmult u v).

(** [sorted(l, key=...)] and [l.sort(key=...)]: a stable sort; [le x y] says
    that [x] may stand before [y]. *)
Fixpoint py_insert {A} (le : A → A → bool) (x : A) (l : list A) : list A :=
  match l with
  | [] => [x]
  | y :: l' => if le x y then x :: l else y :: py_insert le x l'
  end.

Definition py_sorted {A} (le : A → A → bool) (l : list A) : list A :=
  foldr (py_insert le) [] l.

(** [range(0, n, step)] for a positive [step]. *)
Definition range_step (n step : nat) : list nat :=
  (λ q, q * step) <$> seq 0 ((n + step - 1) / step).

(** [[l[i:i + size] for i in range(0, len(l), size)]] *)
Definition py_chunks {A} (size : nat) (l : list A) : list (list A) :=
  (λ i, take size (drop i l)) <$> range_step (length l) size.

(** [max(1, (n + T - 1) // T)] for a positive thread count [T]. *)
Definition chunk_size_for (n : nat) (T : Z) : nat :=
  Z.to_nat (Z.max 1 ((Z.of_nat n + T - 1) / T)).

(** Python's [str.strip()] on ASCII white space. *)
Definition is_space (a : Ascii.ascii) : bool :=
  let n := nat_of_ascii a in
  (Nat.leb 9 n && Nat.leb n 13) || Nat.eqb n 32 || (Nat.leb 28 n && Nat.leb n 31).

Fixpoint lstrip (s : string) : string :=
  match s with
  | String a s' => if is_space a then lstrip s' else s
  | EmptyString => EmptyString
  end.

Definition strip (s : string) : string :=
  String.rev (lstrip (String.rev (lstrip s))).

(** A similarity triple [(i, j, s)]. *)
Definition Pair : Type := nat * nat * Q.

Definition pair_key (p : Pair) : nat * nat := (p.1.1, p.1.2).
Definition pair_sim (p : Pair) : Q := p.2.

(** [key=lambda x: x[2], reverse=True]: [x] may stand before [y] when its
    similarity is at least that of [y]. *)
Definition by_similarity_desc (x y : Pair) : bool := Qle_bool (pair_sim y) (pair_sim x).

(** All [(l[i], l[j])] with [i < j], in the order of the nested loops. *)
Fixpoint ordered_pairs (l : list nat) : list (nat * nat) :=
  match l with
  | [] => []
  | x :: l' => ((λ y, (x, y)) <$> l') ++ ordered_pairs l'
  end.

(** [embeddings.size] of the array built from the rows [V]. *)
Definition embeddings_size (V : list vec) : nat :=
  length V * length (default [] (head V)).

Definition row (V : list vec) (i : nat) : vec := default [] (V !! i).

(** [lsh.py] constants. *)
Definition MIN_ITEMS_TO_ENABLE_LSH : nat := 50.
Definition NUM_HASH_TABLES : nat := 10.
Definition NUM_HASH_BITS : nat := 8.

Record LSHIndex := mkLSH {
  lsh_dim : nat;
  num_tables : nat;
  num_bits : nat;
  hyperplanes : list (list vec);
  tables : list (gmap nat (gset nat))
}.

(** ** Predicates on the job stores *)

(** Every job the filesystem store holds in memory is running. *)
Definition all_running (st : Filesystem.store) : Prop :=
  ∀ jid j, Filesystem._jobs st !! jid = Some j → status j = RUNNING.


(** ** Job manager ([jobs.py]) *)

(** The interface [JobStore] of [db/base.py].  The identifier a new job gets
    and the clock are arguments, as in the two stores. *)
Class JobStore (S : Type) := {
  create_job : string → Q → option string → S → S;
  get_job : string → S → option Job;
  update_job_success : string → json → Q → S → S;
  update_job_failure : string → string → Q → S → S;
  update_job_timeout : string → Q → S → S;
  update_job_progress : string → string → Q → option json → S → S;
  save_intermediate_result : string → json → S → S;
  get_intermediate_result : string → S → option json;
  delete_job : string → S → bool * S;
  get_active_job_count : S → nat;
  track_future : string → S → S
}.

#[global] Instance SQLiteJobStore : JobStore SQLite.store := {|
  create_job := SQLite.create_job;
  get_job := SQLite.get_job;
  update_job_success := SQLite.update_job_success;
  update_job_failure := SQLite.update_job_failure;
  update_job_timeout := SQLite.update_job_timeout;
  update_job_progress := SQLite.update_job_progress;
  save_intermediate_result := SQLite.save_intermediate_result;
  get_intermediate_result := SQLite.get_intermediate_result;
  delete_job := SQLite.delete_job;
  get_active_job_count := SQLite.get_active_job_count;
  track_future := λ jid st,
    SQLite.mkStore (SQLite.jobs st) ({[jid]} ∪ SQLite._running_futures st)
|}.

#[global] Instance FilesystemJobStore : JobStore Filesystem.store := {|
  create_job := Filesystem.create_job;
  get_job := Filesystem.get_job;
  update_job_success := Filesystem.update_job_success;
  update_job_failure := Filesystem.update_job_failure;
  update_job_timeout := Filesystem.update_job_timeout;
  update_job_progress := Filesystem.update_job_progress;
  save_intermediate_result := Filesystem.save_intermediate_result;
  get_intermediate_result := Filesystem.get_intermediate_result;
  delete_job := Filesystem.delete_job;
  get_active_job_count := Filesystem.get_active_job_count;
  track_future := λ jid st,
    Filesystem.mkStore (Filesystem._jobs st) (Filesystem.job_files st)
                       (Filesystem.intermediate_files st)
                       ({[jid]} ∪ Filesystem._running_futures st)
|}.

(** A Python [dict] with string keys as the association list of a JSON
    object, in insertion order: [d[k] = v], [d.update(other)] and
    [d.get(k)]. *)
Definition dict_set (k : string) (v : json) (d : list (string * json))
    : list (string * json) :=
  if bool_decide (k ∈ d.*1)
  then (λ kv, if bool_decide (kv.1 = k) then (k, v) else kv) <$> d
  else d ++ [(k, v)].

Definition dict_update (d other : list (string * json)) : list (string * json) :=
  foldl (λ acc kv, dict_set kv.1 kv.2 acc) d other.

Definition dict_get (k : string) (d : list (string * json)) : option json :=
  snd <$> head (filter (λ kv, kv.1 = k) d).

(** What a job function does to the store while it runs, through the two
    callbacks that [api.py] hands to it: [progress_callback] and
    [save_intermediate]. *)
Inductive Callback :=
| ProgressCallback (phase : string) (progress : Q) (details : json)
| SaveIntermediate (result : json).

Definition run_callback {S} `{JobStore S} (jid : string) (c : Callback) (st : S) : S :=
  match c with
  | ProgressCallback phase progress details =>
      update_job_progress jid phase progress (Some details) st
  | SaveIntermediate result => save_intermediate_result jid result st
  end.

(** The snapshots among the callbacks, in order. *)
Definition snapshots_of (callbacks : list Callback) : list json :=
  omap (λ c, match c with SaveIntermediate r => Some r | _ => None end) callbacks.

(** [JobManager.submit_job], up to the hand-over to the thread pool. *)
Definition submit_job {S} `{JobStore S} (jid : string) (now : Q)
    (webhook_url : option string) (st : S) : S :=
  track_future jid (create_job jid now webhook_url st).

(** [JobManager._execute_job]: the job function is given by what it does,
    the callbacks it makes and then the value it returns or the text of
    the exception it raises. *)
Definition _execute_job {S} `{JobStore S} (jid : string)
    (callbacks : list Callback) (outcome : Result json) (now : Q) (st : S) : S :=
  let st' := foldl (λ s c, run_callback jid c s) st callbacks in
  match outcome with
  | Ok result => update_job_success jid result now st'
  | Raise e => update_job_failure jid e now st'
  end.
(** ** Sample data used by the examples *)

(** The block types the specification lists. *)
Definition spec_type_literal : list string :=
  ["original"; "merged"; "synthetic"; "new"].

Definition sample_text : BlockifiedTextResult :=
  mkText "Python" "What is Python?" "Python is a language." None None None.

Definition raw_of_type (t : string) : RawBlock :=
  mkRaw t "x" sample_text None None None None None.

(** A job that saved a snapshot and then succeeded, in each backend. *)
Definition sample_result : json := JDict [("status", JStr "success")].
Definition sample_snapshot : json := JDict [("status", JStr "partial")].

Definition sqlite_running : SQLite.store :=
  SQLite.save_intermediate_result "job-1" sample_snapshot
    (SQLite.create_job "job-1" 1 None (SQLite.mkStore ∅ ∅)).

Definition sqlite_done : SQLite.store :=
  SQLite.update_job_success "job-1" sample_result 7 sqlite_running.

Definition filesystem_running : Filesystem.store :=
  Filesystem.save_intermediate_result "job-1" sample_snapshot
    (Filesystem.create_job "job-1" 1 None (Filesystem.mkStore ∅ ∅ ∅ ∅)).

Definition filesystem_done : Filesystem.store :=
  Filesystem.update_job_success "job-1" sample_result 7 filesystem_running.

(** Environments for the examples.  [norm_exact] is the Euclidean norm
    wherever the squared norm is the square of a rational (the only vectors
    the examples use). *)
Definition norm_exact (v : vec) : Q :=
  let s := Qred (dot v v) in
  (Z.sqrt (Qnum s * Z.pos (Qden s)) # Qden s)%Q.

(** Futures complete in submission order. *)
Definition in_order (A : Type) (l : list A) : list A := l.

(** A set of index pairs is iterated in ascending order (what CPython does
    for the small sets of the examples). *)
Definition pair_leb (x y : nat * nat) : bool :=
  Nat.ltb x.1 y.1 || (Nat.eqb x.1 y.1 && Nat.leb x.2 y.2).
Definition ascending (l : list (nat * nat)) : list (nat * nat) :=
  py_sorted pair_leb l.

Definition no_louvain (pairs : list (nat * nat * Q)) (n : nat)
    : Result (list (list nat)) :=
  Raise "No module named 'networkx'".

(** Three active input blocks.  The first two are near-duplicates; the
    third is close to what the LLM makes of the first two. *)
Definition input_block (uuid question answer : string) : Block :=
  mkBlock "blockify" uuid (mkText "Python" question answer None None None)
          (Some false) (Some false) (Some false) (Some None) (Some None) None.

Definition block_a : Block :=
  input_block "a" "What is Python?" "Python is a language.".
Definition block_b : Block :=
  input_block "b" "What is Python?" "Python is a programming language.".
Definition block_c : Block :=
  input_block "c" "What is Python used for?" "Python is a language used for scripting.".

Definition demo_request : AutoDistillRequest :=
  mkRequest "task-1" (8 # 10) 2 [block_a; block_b; block_c].

Definition xml_first : string :=
  "<ideablock><name>Python</name><critical_question>What is Python?</critical_question><trusted_answer>Python is a programming language for scripting.</trusted_answer></ideablock>".
Definition xml_second : string :=
  "<ideablock><name>Python</name><critical_question>What is Python used for?</critical_question><trusted_answer>Python is a programming language used for scripting.</trusted_answer></ideablock>".

Definition content_first : Content :=
  mkContent "Python" "What is Python?" "Python is a programming language for scripting.".
Definition content_second : Content :=
  mkContent "Python" "What is Python used for?"
            "Python is a programming language used for scripting.".

(** The embedding endpoint: unit vectors, chosen by the embedded text. *)
Definition embed_text (t : string) : vec :=
  if bool_decide (t = "Python What is Python? Python is a language.") then [1; 0]%Q
  else if bool_decide (t = "Python What is Python? Python is a programming language.")
  then [1; 0]%Q
  else if bool_decide
            (t = "Python What is Python used for? Python is a language used for scripting.")
  then [3 # 5; 4 # 5]%Q
  else [4 # 5; 3 # 5]%Q.

Definition demo_embeddings (texts : list string) : Result (list vec) :=
  Ok (embed_text <$> texts).

(** The distill endpoint answers the first request with [xml_first] and
    every later one with [xml_second]. *)
Definition demo_endpoint (k : nat) (prompt : string) : HttpOutcome :=
  HttpContent (if Nat.eqb k 0 then xml_first else xml_second).

(** The endpoint returns both elements in one answer. *)
Definition two_block_endpoint (k : nat) (prompt : string) : HttpOutcome :=
  HttpContent (xml_first +:+ xml_second).

(** The endpoint is down. *)
Definition failing_endpoint (k : nat) (prompt : string) : HttpOutcome :=
  HttpError "503 Server Error: Service Unavailable".

(** The endpoint fails once and then answers. *)
Definition flaky_endpoint (k : nat) (prompt : string) : HttpOutcome :=
  if Nat.eqb k 0 then HttpError "503 Server Error: Service Unavailable"
  else HttpContent (xml_first +:+ xml_second).

(** The parsers on the answers above. *)
Definition demo_parse_all (raw : string) : list Content :=
  if bool_decide (raw = xml_first) then [content_first]
  else if bool_decide (raw = xml_second) then [content_second]
  else if bool_decide (raw = xml_first +:+ xml_second)
  then [content_first; content_second]
  else [].

Definition demo_parse_one (raw : string) : option Content := None.

Definition demo_uuid4 (k : nat) : string := "uuid-" +:+ pretty k.

(** Fifty vectors of dimension fifty: rows 0 and 2 are the first unit
    vector, row 1 is at cosine 3/5 from it, the others are pairwise
    orthogonal unit vectors. *)
Definition unit_vector (dim k : nat) : vec :=
  (λ i, if Nat.eqb i k then 1%Q else 0%Q) <$> seq 0 dim.

Definition fifty_vectors : list vec :=
  [unit_vector 50 0;
   [3 # 5; 4 # 5]%Q ++ replicate 48 0%Q;
   unit_vector 50 0]
  ++ (unit_vector 50 <$> seq 3 47).

(** A draw of the hyperplanes, the same for every table: row [b] has
    [+1] at the coordinates [k >= 3] whose bit [b] is set and [-1]
    elsewhere, so that rows 0, 1, 2 of [fifty_vectors] hash to 0 and row
    [k >= 3] hashes to [k]. *)
Definition demo_randn (t num_bits dim : nat) : list vec :=
  (λ b, (λ k, if Nat.leb 3 k && Nat.testbit k b then 1%Q else (-1)%Q) <$> seq 0 dim)
    <$> seq 0 num_bits.

(** An active input block that carries [type = "merged"] and no sources. *)
Definition merged_input : Block :=
  mkBlock "merged" "x" sample_text (Some false) (Some false) (Some false)
          (Some None) (Some None) None.

Definition merged_input_request : AutoDistillRequest :=
  mkRequest "task-2" (55 # 100) 4 [merged_input].

(** ** The pipeline *)

Section Pipeline.

Variable settings : Settings.

(** [np.linalg.norm] of a row (also what sklearn's [normalize] divides by). *)
Variable norm : vec → Q.

(** The order in which [as_completed] yields the futures of a pool, as a
    rearrangement of the submission order. *)
Variable as_completed : ∀ A : Type, list A → list A.

(** The iteration order of a Python [set] of index pairs. *)
Variable set_order : list (nat * nat) → list (nat * nat).

(** [np.random.randn(num_bits, dim)] for the table of the given index. *)
Variable randn : nat → nat → nat → list vec.

(** *** Similarity index ([dedupe/similarity.py], [dedupe/lsh.py]) *)

(** Division of a row by its norm, a zero norm being replaced by 1. *)
Definition normalize (v : vec) : vec :=
  let nv := norm v in
  let d := if Qeq_bool nv 0 then 1%Q else nv in
  (λ x, (x / d)%Q) <$> v.

(** Cosine similarity: the dot product of the normalized rows.  This is
    [np.dot(normalized[i], normalized[j])] of the LSH path and the entry
    [(i, j)] of sklearn's [cosine_similarity] of the dense path. *)
Definition cosine (u v : vec) : Q := dot (normalize u) (normalize v).

Definition process_row_chunk (V : list vec) (threshold : Q) (n : nat)
    (row_range : list nat) : list Pair :=
  i ← row_range;
  j ← seq (S i) (n - S i);
  let similarity := cosine (row V i) (row V j) in
  if Qle_bool threshold similarity then [(i, j, similarity)] else [].

(** A pool of [T] workers needs [T > 0]: [(n + T - 1) // T] raises for
    [T = 0] and [ThreadPoolExecutor] for [T < 0]. *)
Definition check_threads (T : Z) : Result unit :=
  if (T =? 0)%Z then Raise "integer division or modulo by zero"
  else if (T <? 0)%Z then Raise "max_workers must be greater than 0"
  else Ok ().

Definition find_similar_pairs_dense (embeddings : list vec) (threshold : Q)
    : Result (list Pair) :=
  let n := length embeddings in
  if Nat.eqb (embeddings_size embeddings) 0 || Nat.ltb n 2 then Ok []
  else
    let T := similarity_parallel_threads settings in
    _ ← check_threads T;
    let chunk_size := chunk_size_for n T in
    let row_chunks :=
      (λ i, seq i (Nat.min (i + chunk_size) n - i)) <$> range_step n chunk_size in
    let pairs :=
      concat (as_completed _ (process_row_chunk embeddings threshold n <$> row_chunks)) in
    Ok (py_sorted by_similarity_desc pairs).

Definition LSHIndex_init (dim : nat) : LSHIndex :=
  mkLSH dim NUM_HASH_TABLES NUM_HASH_BITS
        ((λ t, randn t NUM_HASH_BITS dim) <$> seq 0 NUM_HASH_TABLES)
        (replicate NUM_HASH_TABLES ∅).

Definition _hash_vector (lsh : LSHIndex) (vector : vec) (table_idx : nat) : nat :=
  let hyperplane := default [] (hyperplanes lsh !! table_idx) in
  let projections := (λ h, dot h vector) <$> hyperplane in
  let bits := (λ p, if Qle_bool p 0 then 0 else 1) <$> projections in
  sum_list (imap (λ i bit, Nat.shiftl bit i) bits).

(** [self.tables[table_idx][hash_value].add(idx)] on a [defaultdict(set)]. *)
Definition table_add (hash_value idx : nat) (t : gmap nat (gset nat))
    : gmap nat (gset nat) :=
  <[hash_value := default ∅ (t !! hash_value) ∪ {[idx]}]> t.

Definition LSHIndex_index (lsh : LSHIndex) (vectors : list vec) : LSHIndex :=
  foldl (λ l idx,
    foldl (λ l' table_idx,
      let hash_value := _hash_vector l' (row vectors idx) table_idx in
      mkLSH (lsh_dim l') (num_tables l') (num_bits l') (hyperplanes l')
            (alter (table_add hash_value idx) table_idx (tables l')))
      l (seq 0 (num_tables l)))
    lsh (seq 0 (length vectors)).

Definition get_candidate_pairs (lsh : LSHIndex) : gset (nat * nat) :=
  list_to_set (
    table ← tables lsh;
    bucket ← (snd <$> map_to_list table);
    if Nat.ltb 1 (size bucket)
    then ordered_pairs (py_sorted Nat.leb (elements bucket))
    else []).

Definition compute_chunk_similarities (V : list vec) (threshold : Q)
    (chunk : list (nat * nat)) : list Pair :=
  c ← chunk;
  let similarity := cosine (row V c.1) (row V c.2) in
  if Qle_bool threshold similarity then [(c.1, c.2, similarity)] else [].

Definition find_similar_pairs_with_lsh (embeddings : list vec) (threshold : Q)
    : Result (list Pair) :=
  let n_items := length embeddings in
  if Nat.ltb n_items MIN_ITEMS_TO_ENABLE_LSH
  then find_similar_pairs_dense embeddings threshold
  else
    let dim := length (default [] (head embeddings)) in
    let lsh := LSHIndex_index (LSHIndex_init dim) embeddings in
    let candidates := get_candidate_pairs lsh in
    let candidates_list := set_order (elements candidates) in
    let n_candidates := length candidates_list in
    if Nat.eqb n_candidates 0 then Ok []
    else
      let T := similarity_parallel_threads settings in
      _ ← check_threads T;
      let chunk_size := chunk_size_for n_candidates T in
      let chunks := py_chunks chunk_size candidates_list in
      Ok (concat (as_completed _
            (compute_chunk_similarities embeddings threshold <$> chunks))).

(** [DedupeAlgorithm._find_similar_pairs] *)
Definition _find_similar_pairs (embeddings : list vec) (threshold : Q)
    : Result (list Pair) :=
  if use_lsh settings && Nat.leb MIN_ITEMS_TO_ENABLE_LSH (length embeddings)
  then find_similar_pairs_with_lsh embeddings threshold
  else find_similar_pairs_dense embeddings threshold.

(** *** Embedding client ([dedupe/embeddings.py]) *)

(** One POST of a batch of texts to the embedding endpoint, decoded. *)
Variable openai_embeddings : list string → Result (list vec).

Definition create_text_blob (block : Block) : string :=
  let r := blockifiedTextResult block in
  let parts :=
    strip <$> filter (λ part, strip part ≠ "")
                     [name r; criticalQuestion r; trustedAnswer r] in
  let text := String.concat " " parts in
  if bool_decide (text = "") then "block-" +:+ blockifyResultUUID block else text.

Definition generate_embeddings (texts : list string) : Result (list vec) :=
  if bool_decide (texts = []) then Ok []
  else
    let B := openai_embedding_batch_size settings in
    if (B =? 0)%Z then Raise "range() arg 3 must not be zero"
    else if (B <? 0)%Z then
      _ ← check_threads (embedding_parallel_threads settings); Ok []
    else
      _ ← check_threads (embedding_parallel_threads settings);
      batches ← mapM openai_embeddings (py_chunks (Z.to_nat B) texts);
      Ok (concat batches).

Definition _add_embeddings_to_blocks (blocks : list Block) : Result (list Block) :=
  if bool_decide (blocks = []) then Ok []
  else
    embeddings ← generate_embeddings (create_text_blob <$> blocks);
    Ok (zip_with (λ block embedding, set_embedding (Some embedding) block)
                 blocks embeddings).

Definition _extract_embeddings (blocks : list Block) : Result (list vec) :=
  mapM (λ block,
    match _embedding block with
    | Some e => Ok e
    | None =>
        es ← generate_embeddings [create_text_blob block];
        match es with
        | e :: _ => Ok e
        | [] => Raise "index 0 is out of bounds for axis 0 with size 0"
        end
    end) blocks.

(** *** Clustering ([DedupeAlgorithm._create_clusters]) *)

(** [louvain_communities(G, weight="weight", resolution=1.0)] of networkx
    on the graph with nodes [range(n_items)] and the given weighted edges. *)
Variable louvain_communities : list Pair → nat → Result (list (list nat)).

Definition build_adjacency (similar_pairs : list Pair) : gmap nat (gset nat) :=
  foldl (λ adjacency p,
           table_add p.1.2 p.1.1 (table_add p.1.1 p.1.2 adjacency))
        ∅ similar_pairs.

(** The [while stack:] loop of one component.  The head of the list is the
    top of the stack.  Every visit marks a node that was not visited
    before, so the number of visits is bounded by the number of nodes;
    [budget] is that bound. *)
Fixpoint component (budget : nat) (adjacency : gmap nat (gset nat))
    : list nat → gset nat → list nat → option (gset nat * list nat) :=
  fix inner (stack : list nat) (visited : gset nat) (cluster : list nat) :=
    match stack with
    | [] => Some (visited, cluster)
    | node :: rest =>
        if bool_decide (node ∈ visited) then inner rest visited cluster
        else
          match budget with
          | 0 => None
          | S b =>
              let visited' := visited ∪ {[node]} in
              let pushed :=
                filter (λ neighbor, neighbor ∉ visited')
                       (elements (default ∅ (adjacency !! node))) in
              component b adjacency (rev pushed ++ rest) visited'
                        (cluster ++ [node])
          end
    end.

(** The [for i in range(n_items)] loop shared by [_bfs_clustering] and
    [DedupeService._find_similar_clusters]. *)
Definition connected_components (similar_pairs : list Pair) (n_items : nat)
    : Result (list (list nat)) :=
  let adjacency := build_adjacency similar_pairs in
  let budget := n_items + 2 * length similar_pairs in
  r ← foldl (λ acc i,
        '(visited, clusters) ← acc;
        if bool_decide (i ∈ visited) then Ok (visited, clusters)
        else
          match component budget adjacency [i] visited [] with
          | Some (visited', cluster) => Ok (visited', clusters ++ [cluster])
          | None => Raise "visit budget exhausted"
          end)
      (Ok (∅, [])) (seq 0 n_items);
  Ok r.2.

Definition _bfs_clustering := connected_components.

Definition _louvain_clustering (similar_pairs : list Pair) (n_items : nat)
    : Result (list (list nat)) :=
  match louvain_communities similar_pairs n_items with
  | Ok clusters => Ok clusters
  | Raise _ => _bfs_clustering similar_pairs n_items
  end.

Definition _create_clusters (similar_pairs : list Pair) (n_items : nat)
    : Result (list (list nat)) :=
  if bool_decide (similar_pairs = []) then Ok ((λ i, [i]) <$> seq 0 n_items)
  else
    let n_nodes := size (build_adjacency similar_pairs) in
    if (louvain_node_threshold settings <=? Z.of_nat n_nodes)%Z
    then _louvain_clustering similar_pairs n_items
    else _bfs_clustering similar_pairs n_items.

(** *** LLM merge client ([llm/blockify.py]) *)

(** The distill endpoint: the outcome of the request with the given index
    (counted from 0 over the run) and prompt. *)
Variable distill_endpoint : nat → string → HttpOutcome.

(** The two response parsers, built on [re] and [json]: all complete (or, failing
    that, truncated) [<ideablock>] elements with three non-empty fields, and
    the single-block fallback. *)
Variable _parse_all_xml_ideablocks : string → list Content.
Variable _parse_llm_response : string → option Content.

(** [str(uuid.uuid4())] for the draw of the given index. *)
Variable uuid4 : nat → string.

Definition requests_post (prompt : string) : M HttpOutcome := λ w,
  (Ok (distill_endpoint (http_calls w) prompt),
   mkWorld (S (http_calls w)) (uuid_draws w) (slept w) (saved_intermediate w)).

Definition draw_uuid : M string := λ w,
  (Ok (uuid4 (uuid_draws w)),
   mkWorld (http_calls w) (S (uuid_draws w)) (slept w) (saved_intermediate w)).

Definition _create_merge_prompt (cluster_blocks : list Block) : string :=
  strip (foldl (λ xml_content block,
           let r := blockifiedTextResult block in
           xml_content +:+ "<ideablock>"
             +:+ "<name>" +:+ name r +:+ "</name>"
             +:+ "<critical_question>" +:+ criticalQuestion r +:+ "</critical_question>"
             +:+ "<trusted_answer>" +:+ trustedAnswer r +:+ "</trusted_answer>"
             +:+ "</ideablock>")
         "" cluster_blocks).

(** [for attempt in range(max_retries)] of [_call_blockify_api], entered at
    [attempt] with [remaining] rounds to go. *)
Fixpoint _call_blockify_api_loop (max_retries : nat) (remaining attempt : nat)
    (prompt : string) : M (option string) :=
  match remaining with
  | 0 => mret None
  | S remaining' =>
      outcome ← requests_post prompt;
      match outcome with
      | HttpContent content => mret (Some (strip content))
      | HttpUnknownFormat => mret None
      | HttpError e =>
          if Nat.eqb attempt (max_retries - 1) then raise e
          else
            _ ← sleep ApiBackoff (inject_Z (2 ^ Z.of_nat attempt));
            _call_blockify_api_loop max_retries remaining' (S attempt) prompt
      end
  end.

(** [_call_blockify_api(prompt)] with its default [max_retries=3]. *)
Definition _call_blockify_api (prompt : string) : M (option string) :=
  _call_blockify_api_loop 3 3 0 prompt.

Definition merge_cluster (cluster_blocks : list Block) : M MergeResponse :=
  try_except
    (let prompt := _create_merge_prompt cluster_blocks in
     raw_content ← _call_blockify_api prompt;
     let invalid :=
       mkMergeResponse false None None (Some "Invalid response from Blockify") in
     match raw_content with
     | Some raw =>
         if bool_decide (raw = "") then mret invalid
         else
           match _parse_all_xml_ideablocks raw with
           | first :: rest =>
               mret (mkMergeResponse true (Some first) (Some (first :: rest)) None)
           | [] =>
               match _parse_llm_response raw with
               | Some single =>
                   mret (mkMergeResponse true (Some single) (Some [single]) None)
               | None => mret invalid
               end
           end
     | None => mret invalid
     end)
    (λ e, mret (mkMergeResponse false None None (Some e))).

(** *** Merging one cluster ([service.py]) *)

(** [merge_response.error or "No merged content returned"] *)
Definition error_or_default (e : option string) : string :=
  match e with
  | Some msg => if bool_decide (msg = "") then "No merged content returned" else msg
  | None => "No merged content returned"
  end.

(** [f"... Last error: {last_error}"] *)
Definition format_last_error (e : option string) : string :=
  default "None" e.

Definition retries_exhausted_message (last_error : option string) : string :=
  "LLM merge failed after " +:+ pretty (llm_max_retries settings)
    +:+ " attempts. Last error: " +:+ format_last_error last_error.

(** The [try] block of one round of [_single_llm_merge]: the merged
    contents, or the value [last_error] takes. *)
Definition merge_attempt (cluster_blocks : list Block) : M (list Content + string) :=
  try_except
    (merge_response ← merge_cluster cluster_blocks;
     match success merge_response, merged_contents merge_response with
     | true, Some (c :: cs) => mret (inl (c :: cs))
     | _, _ => mret (inr (error_or_default (mr_error merge_response)))
     end)
    (λ e, mret (inr e)).

(** [for attempt in range(1, LLM_MAX_RETRIES + 1)] of [_single_llm_merge],
    entered at [attempt] with [remaining] rounds to go. *)
Fixpoint _single_llm_merge_loop (remaining : nat) (attempt : Z)
    (last_error : option string) (cluster_blocks : list Block)
    : M (list Content) :=
  match remaining with
  | 0 => raise (retries_exhausted_message last_error)
  | S remaining' =>
      outcome ← merge_attempt cluster_blocks;
      match outcome with
      | inl contents => mret contents
      | inr e =>
          _ ← (if (attempt <? llm_max_retries settings)%Z
               then sleep MergeBackoff
                          (llm_retry_delay settings * inject_Z (2 ^ (attempt - 1)))%Q
               else mret ());
          _single_llm_merge_loop remaining' (attempt + 1) (Some e) cluster_blocks
      end
  end.

Definition _single_llm_merge (cluster_blocks : list Block) : M (list Content) :=
  _single_llm_merge_loop (Z.to_nat (llm_max_retries settings)) 1 None cluster_blocks.

(** The first block that has the key [blockifyDocumentUUID] decides. *)
Definition first_document_uuid (source_blocks : list Block) : option string :=
  match omap blockifyDocumentUUID source_blocks with
  | d :: _ => d
  | [] => None
  end.

Definition merged_block (source_uuids : list string) (doc_uuid : option string)
    (content : Content) (new_uuid : string) : Block :=
  mkBlock "merged" new_uuid
          (mkText (c_name content) (c_criticalQuestion content)
                  (c_trustedAnswer content) None None None)
          (Some false) (Some false) (Some false)
          (match doc_uuid with
           | Some d => if bool_decide (d = "") then None else Some (Some d)
           | None => None
           end)
          (Some (Some source_uuids))
          None.

Definition _contents_to_blocks (contents : list Content)
    (source_blocks : list Block) : M (list Block) :=
  let source_uuids := blockifyResultUUID <$> source_blocks in
  let doc_uuid := first_document_uuid source_blocks in
  mapM (λ content, u ← draw_uuid; mret (merged_block source_uuids doc_uuid content u))
       contents.

Definition _single_llm_merge_to_blocks (cluster_blocks : list Block)
    : M (list Block) :=
  merged_contents ← _single_llm_merge cluster_blocks;
  _contents_to_blocks merged_contents cluster_blocks.

Definition synthetic_block (r : Content) (new_uuid : string) : Block :=
  mkBlock "synthetic" new_uuid
          (mkText (c_name r) (c_criticalQuestion r) (c_trustedAnswer r)
                  None None None)
          None None None None None None.

Definition _results_to_blocks (results : list Content) : M (list Block) :=
  mapM (λ r, u ← draw_uuid; mret (synthetic_block r u)) results.

(** *** Hierarchical merging ([DedupeService._process_large_cluster_recursively]) *)

(** Python [int] to [float]. *)
Definition float_of_Z (z : Z) : float :=
  if (z <? 0)%Z then PrimFloat.opp (PrimFloat.of_uint63 (Uint63.of_Z (- z)))
  else PrimFloat.of_uint63 (Uint63.of_Z z).

(** [int(math.floor(f))] of a finite float. *)
Definition floor_float (f : float) : Z :=
  match Prim2SF f with
  | S754_finite neg m e =>
      if (0 <=? e)%Z then
        (if neg then - (Z.pos m * 2 ^ e) else Z.pos m * 2 ^ e)%Z
      else
        (if neg then - ((Z.pos m + 2 ^ (- e) - 1) / 2 ^ (- e))
         else Z.pos m / 2 ^ (- e))%Z
  | _ => 0%Z
  end.

(** [math.ceil(f)] *)
Definition ceil_float (f : float) : Z := (- floor_float (PrimFloat.opp f))%Z.

(** [min(M, max(5, int(math.floor(math.sqrt(n) * 2))))] *)
Definition target_size_of (n : nat) : Z :=
  Z.min (max_cluster_size_for_llm settings)
        (Z.max 5 (floor_float (PrimFloat.mul (PrimFloat.sqrt (float_of_Z (Z.of_nat n)))
                                             (float_of_Z 2)))).

(** [math.ceil(n / target_size)] *)
Definition num_subclusters_of (n : nat) (target_size : Z) : Result Z :=
  if (target_size =? 0)%Z then Raise "division by zero"
  else Ok (ceil_float (PrimFloat.div (float_of_Z (Z.of_nat n)) (float_of_Z target_size))).

(** [int(math.floor((i / num_subclusters) * n))] *)
Definition slice_bound (i num_subclusters : Z) (n : nat) : Z :=
  floor_float (PrimFloat.mul (PrimFloat.div (float_of_Z i) (float_of_Z num_subclusters))
                             (float_of_Z (Z.of_nat n))).

(** The index ranges [(start, end)] with [start < end], for
    [i in range(num_subclusters)]. *)
Definition slice_ranges (num_subclusters : Z) (n : nat) : list (Z * Z) :=
  omap (λ i : nat,
          let start := slice_bound (Z.of_nat i) num_subclusters n in
          let end_ := slice_bound (Z.of_nat i + 1) num_subclusters n in
          if (start <? end_)%Z then Some (start, end_) else None)
       (seq 0 (Z.to_nat num_subclusters)).

(** [l[start:end]] for [0 <= start <= end]. *)
Definition py_slice {A} (l : list A) (r : Z * Z) : list A :=
  take (Z.to_nat (r.2 - r.1)) (drop (Z.to_nat r.1) l).

(** [l[:m]] *)
Definition py_prefix {A} (m : Z) (l : list A) : list A :=
  if (m <? 0)%Z then take (length l - Z.to_nat (- m)) l else take (Z.to_nat m) l.

Definition by_uuid (x y : Block) : bool :=
  String.leb (blockifyResultUUID x) (blockifyResultUUID y).

Definition content_of_block (b : Block) : Content :=
  let r := blockifiedTextResult b in
  mkContent (name r) (criticalQuestion r) (trustedAnswer r).

(** [DedupeService._find_similar_clusters] *)
Definition _find_similar_clusters (blocks : list Block) (threshold : Q)
    : Result (list (list nat)) :=
  if Nat.ltb (length blocks) 2 then Ok []
  else
    embeddings ← generate_embeddings (create_text_blob <$> blocks);
    similar_pairs ← find_similar_pairs_dense embeddings threshold;
    if bool_decide (similar_pairs = []) then Ok []
    else
      clusters ← connected_components similar_pairs (length blocks);
      Ok (filter (λ c, 1 < length c) clusters).

(** The recursion is on [levels], the number of levels left before
    [depth >= MAX_RECURSION_DEPTH] holds: the call at [depth] has
    [levels = MAX_RECURSION_DEPTH - depth]. *)
Fixpoint _process_large_cluster_recursively (levels : nat)
    (cluster_blocks : list Block) (similarity_threshold : Q) : M (list Content) :=
  let n := length cluster_blocks in
  let M_llm := max_cluster_size_for_llm settings in
  match cluster_blocks with
  | [] => mret []
  | [b] => mret [content_of_block b]
  | _ =>
    match levels with
    | 0 => _single_llm_merge (py_prefix M_llm cluster_blocks)
    | S levels' =>
      if (Z.of_nat n <=? M_llm)%Z then _single_llm_merge cluster_blocks
      else
        let target_size := target_size_of n in
        num_subclusters ← lift (num_subclusters_of n target_size);
        let sorted_blocks := py_sorted by_uuid cluster_blocks in
        let subclusters := py_slice sorted_blocks <$> slice_ranges num_subclusters n in
        let recurse sub :=
          _process_large_cluster_recursively levels' sub similarity_threshold in
        per_subcluster ←
          (if (1 <? llm_parallel_threads settings)%Z && Nat.ltb 1 (length subclusters)
           then mapM (λ sub, try_except (recurse sub) (λ _, mret [])) subclusters
           else mapM recurse subclusters);
        let all_results := concat per_subcluster in
        if (M_llm <? Z.of_nat (length all_results))%Z then
          synthetic_blocks ← _results_to_blocks all_results;
          recurse synthetic_blocks
        else if Nat.ltb 1 (length all_results) then
          synthetic_blocks ← _results_to_blocks all_results;
          similar_clusters ← lift (_find_similar_clusters synthetic_blocks similarity_threshold);
          if bool_decide (similar_clusters = []) then mret all_results
          else recurse synthetic_blocks
        else mret all_results
    end
  end.

Definition _merge_cluster_with_llm (cluster_blocks : list Block)
    (similarity_threshold : Q) : M (list Block) :=
  if (Z.of_nat (length cluster_blocks) <=? max_cluster_size_for_llm settings)%Z
  then _single_llm_merge_to_blocks cluster_blocks
  else
    merged_contents ←
      _process_large_cluster_recursively
        (Z.to_nat (max_recursion_depth settings)) cluster_blocks similarity_threshold;
    _contents_to_blocks merged_contents cluster_blocks.

(** *** Iteration driver ([DedupeAlgorithm.run_dedupe]) *)

(** The integer nearest to [q], a tie going to the even one. *)
Definition round_half_even (q : Q) : Z :=
  let fl := Qfloor q in
  match (q - inject_Z fl ?= 1 # 2)%Q with
  | Lt => fl
  | Gt => (fl + 1)%Z
  | Eq => if Z.even fl then fl else (fl + 1)%Z
  end.

(** The exact value of the magnitude [m * 2^e] of a finite float. *)
Definition magnitude (m : positive) (e : Z) : Q := (inject_Z (Z.pos m) * 2 ^ e)%Q.

(** The float nearest to the decimal [n / 100] with the given sign: what
    [strtod] makes of the digits. *)
Definition hundredths (sg : bool) (n : Z) : float :=
  SF2Prim (SFdiv prec emax
             (match n with
              | Z.pos p => S754_finite sg p 0
              | _ => S754_zero sg
              end)
             (S754_finite false 100 0)).

(** Python's [round(x, 2)] of a float: the exact value of [x] is written
    with two digits after the point, correctly rounded with a tie going to
    the even last digit, and the digits are read back as a float; zeros,
    infinities and NaN are returned as they are. *)
Definition float_round2 (x : float) : float :=
  match Prim2SF x with
  | S754_finite sg m e => hundredths sg (round_half_even (magnitude m e * 100))
  | _ => x
  end.

(** What it is for [p] to be [x] rounded to two decimals: for a finite
    non-zero [x] of magnitude [a], [p] is the float nearest to [n / 100]
    with the sign of [x], where [n] is the integer nearest to [100 * a], the
    even one of the two when [100 * a] lies half-way; any other [x] is its
    own rounding. *)
Definition nearest_hundredth (x p : float) : Prop :=
  match Prim2SF x with
  | S754_finite sg m e =>
      ∃ n : Z,
        (inject_Z n - (1 # 2) <= magnitude m e * 100 <= inject_Z n + (1 # 2))%Q
        ∧ ((magnitude m e * 100 == inject_Z n - (1 # 2)
            ∨ magnitude m e * 100 == inject_Z n + (1 # 2))%Q → Z.even n = true)
        ∧ p = hundredths sg n
  | _ => p = x
  end.

(** [round(x, 2)]: an [int] is returned as it is. *)
Definition py_round2 (x : PyNumber) : PyNumber :=
  match x with
  | PyInt n => PyInt n
  | PyFloat f => PyFloat (float_round2 f)
  end.

Definition _create_stats (starting_count final_count merged_count : Z) : Stats :=
  let reduction_percent :=
    if (0 <? starting_count)%Z
    then PyFloat (PrimFloat.mul
                    (PrimFloat.div (float_of_Z (starting_count - final_count))
                                   (float_of_Z starting_count))
                    (float_of_Z 100))
    else PyInt 0 in
  mkStats starting_count final_count
          (starting_count - final_count + merged_count) merged_count
          (py_round2 reduction_percent).

(** [block.copy()] with the keys [_embedding], [_cluster_blocks] and
    [_iteration] deleted. *)
Definition clean_block (b : Block) : Block := set_embedding None b.

(** [original.copy()] with [hidden] set and [_embedding] deleted. *)
Definition hidden_copy (b : Block) : Block := set_embedding None (set_hidden true b).

Definition _build_intermediate_result (original_blocks : list Block)
    (merged_blocks : list Block) (starting_count : Z) : Response :=
  let final_count := Z.of_nat (length merged_blocks) in
  mkResponse 1 "partial"
             (_create_stats starting_count final_count
                            (Z.of_nat (length merged_blocks)))
             ((hidden_copy <$> original_blocks) ++ (clean_block <$> merged_blocks)).

(** [[l[i] for i in indices]] *)
Definition index_all {A} (l : list A) (indices : list nat) : Result (list A) :=
  mapM (λ i, match l !! i with
             | Some x => Ok x
             | None => Raise "list index out of range"
             end) indices.

(** The dictionary returned by the worker [process_single_cluster]. *)
Record ClusterResult := mkClusterResult {
  cr_success : bool;
  cr_cluster_indices : list nat;
  cr_cluster_blocks : list Block;
  cr_merge_results : list Block
}.

Definition process_single_cluster
    (llm_merge_func : list Block → Q → M (list Block))
    (master_list : list Block) (current_threshold : Q)
    (cluster_indices : list nat) : M ClusterResult :=
  cluster_blocks ← lift (index_all master_list cluster_indices);
  try_except
    (merge_results ← llm_merge_func cluster_blocks current_threshold;
     if bool_decide (merge_results = [])
     then mret (mkClusterResult false cluster_indices [] [])
     else mret (mkClusterResult true cluster_indices cluster_blocks merge_results))
    (λ _, mret (mkClusterResult false cluster_indices [] [])).

(** What the [for future in as_completed(futures)] loop accumulates. *)
Record Collected := mkCollected {
  merged_results : list Block;
  hidden_uuids_this_iteration : gset string;
  items_not_in_clusters : gset nat
}.

Definition collect (acc : Collected) (r : ClusterResult) : Collected :=
  if cr_success r then
    mkCollected (merged_results acc ++ cr_merge_results r)
                (hidden_uuids_this_iteration acc
                   ∪ list_to_set (blockifyResultUUID <$> cr_cluster_blocks r))
                (items_not_in_clusters acc ∖ list_to_set (cr_cluster_indices r))
  else acc.

(** The variables of the iteration loop. *)
Record LoopState := mkLoop {
  master_list : list Block;
  current_threshold : Q;
  all_hidden_uuids : gset string;
  all_merged_blocks : list Block
}.

(** [ThreadPoolExecutor(max_workers=LLM_PARALLEL_THREADS)] *)
Definition check_llm_pool : Result unit :=
  if (llm_parallel_threads settings <=? 0)%Z
  then Raise "max_workers must be greater than 0" else Ok ().

(** One round of the loop; the boolean tells whether the loop goes on
    ([false] is a [break]). *)
Definition iteration_body
    (llm_merge_func : list Block → Q → M (list Block))
    (active_blocks : list Block) (starting_count : Z)
    (iteration : Z) (st : LoopState) : M (bool * LoopState) :=
  if Nat.ltb (length (master_list st)) 2 then mret (false, st)
  else
    embeddings ← lift (_extract_embeddings (master_list st));
    similar_pairs ← lift (_find_similar_pairs embeddings (current_threshold st));
    if bool_decide (similar_pairs = []) then mret (false, st)
    else
      clusters ← lift (_create_clusters similar_pairs (length (master_list st)));
      let mergeable_clusters := filter (λ c, 1 < length c) clusters in
      if bool_decide (mergeable_clusters = []) then mret (false, st)
      else
        _ ← lift check_llm_pool;
        done ← mapM (process_single_cluster llm_merge_func (master_list st)
                                            (current_threshold st))
                    mergeable_clusters;
        let acc :=
          foldl collect
                (mkCollected [] ∅ (list_to_set (seq 0 (length (master_list st)))))
                (as_completed _ done) in
        let hidden' := all_hidden_uuids st ∪ hidden_uuids_this_iteration acc in
        let merged' := all_merged_blocks st ++ merged_results acc in
        merged_with_embeddings ←
          lift (if bool_decide (merged_results acc = []) then Ok []
                else _add_embeddings_to_blocks (merged_results acc));
        items_to_keep ←
          lift (index_all (master_list st)
                          (py_sorted Nat.leb (elements (items_not_in_clusters acc))));
        let master' := items_to_keep ++ merged_with_embeddings in
        let st' := mkLoop master' (current_threshold st) hidden' merged' in
        if bool_decide (merged_results acc = [])
           && Qle_bool (max_similarity_threshold settings) (current_threshold st)
        then mret (false, st')
        else
          _ ← (if bool_decide (merged' = []) then mret ()
               else try_except
                      (save_intermediate
                         (_build_intermediate_result active_blocks merged' starting_count))
                      (λ _, mret ()));
          let threshold' :=
            if (similarity_increase_iteration_start settings <=? iteration)%Z
            then Qmin (current_threshold st + similarity_increase_per_iteration settings)
                      (max_similarity_threshold settings)
            else current_threshold st in
          mret (true, mkLoop master' threshold' hidden' merged').

(** [for iteration in range(1, max_iterations + 1)], entered at
    [iteration] with [remaining] rounds to go. *)
Fixpoint iteration_loop
    (llm_merge_func : list Block → Q → M (list Block))
    (active_blocks : list Block) (starting_count : Z)
    (remaining : nat) (iteration : Z) (st : LoopState) : M LoopState :=
  match remaining with
  | 0 => mret st
  | S remaining' =>
      '(go_on, st') ←
        iteration_body llm_merge_func active_blocks starting_count iteration st;
      if go_on : bool
      then iteration_loop llm_merge_func active_blocks starting_count
                          remaining' (iteration + 1) st'
      else mret st'
  end.

Definition is_active (block : Block) : bool :=
  negb (get_flag (hidden block)) && negb (get_flag (exported block)).

Definition run_dedupe (blocks : list Block) (similarity_threshold : Q)
    (max_iterations : Z) (llm_merge_func : list Block → Q → M (list Block))
    : M (list Block * Stats) :=
  let active_blocks := filter (λ b, is_active b = true) blocks in
  let starting_count := Z.of_nat (length active_blocks) in
  if (starting_count <? 2)%Z
  then mret (active_blocks, _create_stats starting_count starting_count 0)
  else
    master ← lift (_add_embeddings_to_blocks active_blocks);
    st ← iteration_loop llm_merge_func active_blocks starting_count
                        (Z.to_nat max_iterations) 1
                        (mkLoop master similarity_threshold ∅ []);
    let final_blocks :=
      filter (λ b, blockifyResultUUID b ∉ all_hidden_uuids st) active_blocks
        ++ all_merged_blocks st in
    mret (final_blocks,
          _create_stats starting_count (Z.of_nat (length final_blocks))
                        (Z.of_nat (length (all_merged_blocks st)))).

(** *** Response assembly ([DedupeService.process_dedupe_request]) *)

Definition process_dedupe_request (request : AutoDistillRequest) : M Response :=
  let blocks_dict := results request in
  '(final_blocks, stats0) ←
    run_dedupe blocks_dict (similarity request) (iterations request)
               _merge_cluster_with_llm;
  let original_hidden_blocks := hidden_copy <$> blocks_dict in
  let new_output_blocks :=
    clean_block <$> filter (λ b, type b = "merged") final_blocks in
  let response_results := original_hidden_blocks ++ new_output_blocks in
  let starting_count := startingBlockCount stats0 in
  let final_count := Z.of_nat (length new_output_blocks) in
  mret (mkResponse 1 "success"
          (mkStats starting_count final_count starting_count final_count
             (if (0 <? starting_count)%Z
              then py_round2
                     (PyFloat (PrimFloat.mul (float_of_Z 100)
                                 (PrimFloat.sub (float_of_Z 1)
                                    (PrimFloat.div (float_of_Z final_count)
                                                   (float_of_Z starting_count)))))
              else PyInt 0))
          response_results).

(** *** A check of the slices of one split

    [slices_partition n] tells whether the index ranges computed for a
    cluster of [n] blocks follow one another from 0 to [n] without gap or
    overlap and are each shorter than [n]. *)
Fixpoint contiguous_from (start : Z) (ranges : list (Z * Z)) : option Z :=
  match ranges with
  | [] => Some start
  | r :: ranges' =>
      if (r.1 =? start)%Z && (r.1 <? r.2)%Z then contiguous_from r.2 ranges' else None
  end.

Definition slices_partition (n : nat) : bool :=
  match num_subclusters_of n (target_size_of n) with
  | Ok k =>
      let ranges := slice_ranges k n in
      bool_decide (contiguous_from 0 ranges = Some (Z.of_nat n))
      && forallb (λ r, (r.2 - r.1 <? Z.of_nat n)%Z) ranges
  | Raise _ => false
  end.

(** ** Invariants used in the proofs *)

(** Every index stored in a bucket is below [n]. *)
Definition table_below (n : nat) (t : gmap nat (gset nat)) : Prop :=
  ∀ h b x, t !! h = Some b → x ∈ b → (x < n)%nat.

(** A computation never lowers the count of identifiers drawn. *)
Definition draws_mono {A} (m : M A) : Prop :=
  ∀ w, (uuid_draws w ≤ uuid_draws (m w).2)%nat.

(** What the merge function handed to the driver must guarantee. *)
Definition merge_ok (f : list Block → Q → M (list Block)) : Prop :=
  ∀ blocks θ w out w', f blocks θ w = (Ok out, w') →
    Forall (λ b, type b = "merged"%string
                 ∧ blockifyResultsUsed b = Some (Some (blockifyResultUUID <$> blocks))
                 ∧ hidden b = Some false) out.

(** Every merged block lists only identifiers of active input blocks or of
    merged blocks that stand before it. *)
Definition sources_known (active_ids : list string) (merged : list Block) : Prop :=
  ∀ i b, merged !! i = Some b →
    type b = "merged"%string ∧ hidden b = Some false
    ∧ ∃ srcs, blockifyResultsUsed b = Some (Some srcs) ∧ srcs ≠ []
        ∧ ∀ u, u ∈ srcs →
            u ∈ active_ids
            ∨ ∃ j b', (j < i)%nat ∧ merged !! j = Some b' ∧ blockifyResultUUID b' = u.

(** Every block of the master list is an active input block or a merged
    block made so far. *)
Definition master_known (active_ids : list string) (master merged : list Block)
    : Prop :=
  ∀ b, b ∈ master →
    blockifyResultUUID b ∈ active_ids
    ∨ ∃ j b', merged !! j = Some b' ∧ blockifyResultUUID b' = blockifyResultUUID b.

(** The invariant of the iteration loop. *)
Definition loop_inv (active_ids : list string) (st : LoopState) : Prop :=
  sources_known active_ids (all_merged_blocks st)
  ∧ master_known active_ids (master_list st) (all_merged_blocks st).


(** ** Further invariants *)

(** An index [x] is stored under the key [h] of the table exactly when it is
    one of the indexed items and [hash x = h]. *)
Definition table_holds (hash : nat → nat) (indexed : list nat)
    (t : gmap nat (gset nat)) : Prop :=
  ∀ h x, (∃ b, t !! h = Some b ∧ x ∈ b) ↔ x ∈ indexed ∧ hash x = h.

(** The state of an index built from [lsh0] after the rows [indexed] of [V]
    went in. *)
Definition lsh_holds (lsh0 : LSHIndex) (V : list vec) (indexed : list nat)
    (lsh : LSHIndex) : Prop :=
  hyperplanes lsh = hyperplanes lsh0
  ∧ num_tables lsh = num_tables lsh0
  ∧ length (tables lsh) = num_tables lsh0
  ∧ ∀ ti t, tables lsh !! ti = Some t →
      table_holds (λ x, _hash_vector lsh0 (row V x) ti) indexed t.

(** Two indices are linked when a similar pair joins them, in either
    order. *)
Definition linked (similar_pairs : list Pair) (a b : nat) : Prop :=
  ∃ s, (a, b, s) ∈ similar_pairs ∨ (b, a, s) ∈ similar_pairs.

(** The state of the loop of [connected_components] before index [k]:
    the visited set is what the clusters hold, no index is in two
    clusters, every index below [k] is visited, a cluster contains whatever
    is linked to one of its members, and its members are all reachable from
    one of them. *)
Definition components_inv (similar_pairs : list Pair) (n_items k : nat)
    (visited : gset nat) (clusters : list (list nat)) : Prop :=
  visited = list_to_set (concat clusters)
  ∧ NoDup (concat clusters)
  ∧ (∀ x, x ∈ visited → (x < n_items)%nat)
  ∧ (∀ i, (i < k)%nat → i ∈ visited)
  ∧ (∀ c x y, c ∈ clusters → x ∈ c → linked similar_pairs x y → y ∈ c)
  ∧ (∀ c, c ∈ clusters →
       ∃ root, root ∈ c ∧ ∀ x, x ∈ c → rtc (linked similar_pairs) root x).

(** A computation leaves the saved snapshots as they are. *)
Definition saved_frame {A} (m : M A) : Prop :=
  ∀ w, saved_intermediate (m w).2 = saved_intermediate w.

(** *** Job status ([JobManager.get_job_status]) *)

(** Numbers held as rationals stand for floats: [float_of_Q] gives the float
    of a rational (the nearest one, the rational itself when it is the value
    of a float) and [float_value] the exact value of a finite float. *)
Definition float_of_Q (q : Q) : float :=
  SF2Prim (SFdiv prec emax
             (match Qnum q with
              | Z.pos p => S754_finite false p 0
              | Z.neg p => S754_finite true p 0
              | Z0 => S754_zero false
              end)
             (S754_finite false (Qden q) 0)).

Definition float_value (x : float) : Q :=
  match Prim2SF x with
  | S754_finite sg m e => if sg then (- magnitude m e)%Q else magnitude m e
  | _ => 0%Q
  end.

(** [round(x, 1)] of a float, as [float_round2] with one digit after the
    point. *)
Definition tenths (sg : bool) (n : Z) : float :=
  SF2Prim (SFdiv prec emax
             (match n with
              | Z.pos p => S754_finite sg p 0
              | _ => S754_zero sg
              end)
             (S754_finite false 10 0)).

Definition float_round1 (x : float) : float :=
  match Prim2SF x with
  | S754_finite sg m e => tenths sg (round_half_even (magnitude m e * 10))
  | _ => x
  end.

(** The status dictionary of a job, [None] for an unknown job.
    [response.update(job.result)] needs the stored result to be a
    dictionary, which the type of [Job.result] says it is. *)
Definition get_job_status {S} `{JobStore S} (jid : string) (st : S)
    : Result (option (list (string * json))) :=
  match get_job jid st with
  | None => Ok None
  | Some job =>
      let response :=
        [("schemaVersion", JNum 1);
         ("status", JStr (JobStatus_value (status job)));
         ("results", JList []);
         ("error", JNull)] in
      let response :=
        if bool_decide (status job = RUNNING)
        then dict_set "progress"
               (JDict [("percent",
                        JNum (float_value
                                (float_round1
                                   (PrimFloat.mul (float_of_Q (progress job))
                                                  (float_of_Z 100)))));
                       ("phase", JStr (progress_phase job));
                       ("details", progress_details job)])
               response
        else response in
      if bool_decide (status job = SUCCESS) && from_option truthy false (result job)
      then
        match result job with
        | Some (JDict other) => Ok (Some (dict_update response other))
        | _ => Raise "cannot convert dictionary update sequence"
        end
      else if bool_decide (status job ∈ [FAILURE; TIMEOUT])
      then
        let response := dict_set "error" (from_option JStr JNull (error job)) response in
        match get_intermediate_result jid st with
        | Some intermediate =>
            if truthy intermediate
            then Ok (Some (dict_set "intermediate_result" intermediate response))
            else Ok (Some response)
        | None => Ok (Some response)
        end
      else Ok (Some response)
  end.


(** ** Properties *)

Local Close Scope string_scope.

(** *** Sorting and chunking *)

Lemma py_insert_Permutation {A} (le : A → A → bool) x l :
  py_insert le x l ≡ₚ x :: l.
Proof.
  induction l as [|y l IH]; simpl; [done|].
  destruct (le x y); [done|]. rewrite IH. apply Permutation_swap.
Qed.

Lemma py_sorted_Permutation {A} (le : A → A → bool) l : py_sorted le l ≡ₚ l.
Proof.
  induction l as [|x l IH]; simpl; [done|].
  rewrite py_insert_Permutation. by rewrite IH.
Qed.

Lemma py_insert_Sorted {A} (le : A → A → bool) x l :
  (∀ a b, le a b = false → le b a = true) →
  Sorted (λ a b, le a b = true) l →
  Sorted (λ a b, le a b = true) (py_insert le x l).
Proof.
  intros Htot. induction 1 as [|y l Hs IH Hhd]; simpl.
  - repeat constructor.
  - destruct (le x y) eqn:E.
    + constructor; [by constructor | by constructor].
    + constructor; [done|].
      destruct Hhd as [|z l Hyz]; simpl.
      * constructor. by apply Htot.
      * destruct (le x z); constructor; [by apply Htot | done].
Qed.

Lemma py_sorted_Sorted {A} (le : A → A → bool) l :
  (∀ a b, le a b = false → le b a = true) →
  Sorted (λ a b, le a b = true) (py_sorted le l).
Proof.
  intros Htot. induction l as [|x l IH]; simpl; [constructor|].
  by apply py_insert_Sorted.
Qed.

Lemma Sorted_weaken {A} (R1 R2 : relation A) (l : list A) :
  (∀ a b, R1 a b → R2 a b) → Sorted R1 l → Sorted R2 l.
Proof.
  intros H. induction 1 as [|x l Hs IH Hhd]; constructor; [done|].
  destruct Hhd; constructor; auto.
Qed.

Lemma div_ceil_covers (n step : nat) : 0 < step → n ≤ (n + step - 1) / step * step.
Proof.
  intros Hs.
  pose proof (Nat.div_mod_eq (n + step - 1) step) as Hd.
  pose proof (Nat.mod_upper_bound (n + step - 1) step) as Hm.
  nia.
Qed.

Lemma concat_chunks_upto {A} (size k : nat) (l : list A) :
  length l ≤ k * size →
  concat ((λ q, take size (drop (q * size) l)) <$> seq 0 k) = l.
Proof.
  revert l. induction k as [|k IH]; intros l Hl.
  - simpl in *. by destruct l; [|simpl in Hl; lia].
  - cbn [seq fmap list_fmap concat]. rewrite <- fmap_S_seq. simpl. rewrite drop_0.
    rewrite <- list_fmap_compose.
    erewrite (list_fmap_ext _ (λ q, take size (drop (q * size) (drop size l)))).
    + rewrite IH; [apply take_drop|]. rewrite length_drop. lia.
    + intros i q _. simpl. rewrite drop_drop. reflexivity.
Qed.

Lemma concat_py_chunks {A} (size : nat) (l : list A) :
  0 < size → concat (py_chunks size l) = l.
Proof.
  intros Hs. unfold py_chunks, range_step. rewrite <- list_fmap_compose.
  apply concat_chunks_upto. by apply div_ceil_covers.
Qed.

Lemma row_chunks_py_chunks (n size : nat) :
  (λ i, seq i (Nat.min (i + size) n - i)) <$> range_step n size
  = py_chunks size (seq 0 n).
Proof.
  unfold py_chunks. rewrite length_seq. apply list_fmap_ext.
  intros _ i _. rewrite drop_seq, take_seq. simpl. f_equal. lia.
Qed.

Lemma chunk_size_for_pos (n : nat) (T : Z) : 0 < chunk_size_for n T.
Proof. unfold chunk_size_for. lia. Qed.

(** *** Similarity index *)

(** [as_completed] yields every future once; a Python set is iterated
    element by element. *)
Hypothesis as_completed_perm : ∀ (A : Type) (l : list A), as_completed A l ≡ₚ l.
Hypothesis set_order_perm : ∀ l, set_order l ≡ₚ l.

Lemma concat_bind {A} (ls : list (list A)) : concat ls = ls ≫= id.
Proof. induction ls as [|l ls IH]; simpl; [done|]. by rewrite IH. Qed.

Lemma concat_Permutation {A} (ls1 ls2 : list (list A)) :
  ls1 ≡ₚ ls2 → concat ls1 ≡ₚ concat ls2.
Proof. intros H. rewrite !concat_bind. by rewrite H. Qed.

Lemma concat_fmap_bind {A B} (f : A → list B) (ls : list (list A)) :
  concat ((λ c, c ≫= f) <$> ls) = concat ls ≫= f.
Proof.
  induction ls as [|l ls IH]; [done|].
  rewrite fmap_cons. cbn [concat]. by rewrite bind_app, IH.
Qed.

(** What the workers of a pool return together, whatever the order of
    completion: the chunks cover the work list. *)
Lemma pool_results_Permutation {A B} (f : A → list B) (size : nat) (work : list A) :
  0 < size →
  concat (as_completed _ ((λ c, c ≫= f) <$> py_chunks size work)) ≡ₚ work ≫= f.
Proof.
  intros Hs. rewrite (concat_Permutation _ _ (as_completed_perm _ _)).
  by rewrite concat_fmap_bind, concat_py_chunks.
Qed.

(** The entries of one row of the upper triangle that reach the threshold. *)
Lemma elem_of_row_pairs (V : list vec) (θ : Q) (n i : nat) (p : Pair) :
  p ∈ (seq (S i) (n - S i) ≫= λ j,
         if Qle_bool θ (cosine (row V i) (row V j))
         then [(i, j, cosine (row V i) (row V j))] else [])
  ↔ p.1.1 = i ∧ i < p.1.2 < n ∧ (θ <= p.2)%Q
    ∧ p.2 = cosine (row V i) (row V p.1.2).
Proof.
  rewrite list_elem_of_bind. split.
  - intros (j & Hp & Hj). apply elem_of_seq in Hj.
    destruct (Qle_bool θ _) eqn:E; [|by apply elem_of_nil in Hp].
    apply list_elem_of_singleton in Hp as ->. simpl.
    apply Qle_bool_iff in E. split_and!; (done || lia).
  - destruct p as [[i' j] s]. simpl. intros (-> & Hj & Hs & ->).
    exists j. split; [|apply elem_of_seq; lia].
    apply Qle_bool_iff in Hs. rewrite Hs. by apply list_elem_of_singleton.
Qed.

Lemma elem_of_process_row_chunk (V : list vec) (θ : Q) (n : nat) (p : Pair) :
  p ∈ process_row_chunk V θ n (seq 0 n)
  ↔ p.1.1 < p.1.2 < n ∧ (θ <= p.2)%Q
    ∧ p.2 = cosine (row V p.1.1) (row V p.1.2).
Proof.
  unfold process_row_chunk. rewrite list_elem_of_bind. split.
  - intros (i & Hp & Hi). apply elem_of_row_pairs in Hp as (<- & ? & ? & ?).
    done.
  - intros (Hij & Hs & Hc). exists p.1.1. split.
    + apply elem_of_row_pairs. done.
    + apply elem_of_seq. lia.
Qed.

Lemma NoDup_process_row_chunk (V : list vec) (θ : Q) (n : nat) :
  NoDup (pair_key <$> process_row_chunk V θ n (seq 0 n)).
Proof.
  apply NoDup_fmap_2_strong.
  - intros [[i j] s] [[i' j'] s'] H1 H2 [= -> ->].
    apply elem_of_process_row_chunk in H1 as (_ & _ & E1).
    apply elem_of_process_row_chunk in H2 as (_ & _ & E2).
    simpl in E1, E2. by subst.
  - unfold process_row_chunk. apply NoDup_bind.
    + intros i1 i2 p _ _ H1 H2.
      apply elem_of_row_pairs in H1 as (<- & _), H2 as (<- & _). done.
    + intros i _. apply NoDup_bind.
      * intros j1 j2 p _ _ H1 H2.
        destruct (Qle_bool θ (cosine (row V i) (row V j1)));
          [|by apply elem_of_nil in H1].
        destruct (Qle_bool θ (cosine (row V i) (row V j2)));
          [|by apply elem_of_nil in H2].
        apply list_elem_of_singleton in H1, H2. congruence.
      * intros j _. destruct (Qle_bool _ _); [apply NoDup_singleton | constructor].
      * apply NoDup_seq.
    + apply NoDup_seq.
Qed.

Lemma by_similarity_desc_total (a b : Pair) :
  by_similarity_desc a b = false → by_similarity_desc b a = true.
Proof.
  unfold by_similarity_desc. intros H. apply Qle_bool_iff.
  destruct (Qlt_le_dec (pair_sim a) (pair_sim b)) as [Hlt|Hle].
  - by apply Qlt_le_weak.
  - apply Qle_bool_iff in Hle. congruence.
Qed.

(** What the dense strategy returns when the pool can be built. *)
Lemma find_similar_pairs_dense_spec (V : list vec) (θ : Q) :
  (0 < similarity_parallel_threads settings)%Z →
  ∃ out, find_similar_pairs_dense V θ = Ok out
    ∧ Sorted (λ a b, by_similarity_desc a b = true) out
    ∧ (if Nat.eqb (embeddings_size V) 0 || Nat.ltb (length V) 2 then out = []
       else out ≡ₚ process_row_chunk V θ (length V) (seq 0 (length V))).
Proof.
  intros HT. unfold find_similar_pairs_dense.
  destruct (Nat.eqb (embeddings_size V) 0 || Nat.ltb (length V) 2) eqn:E.
  - exists []. split_and!; [done | constructor | done].
  - unfold check_threads.
    destruct (Z.eqb_spec (similarity_parallel_threads settings) 0); [lia|].
    destruct (Z.ltb_spec (similarity_parallel_threads settings) 0); [lia|].
    simpl. eexists. split; [reflexivity|]. split.
    + apply py_sorted_Sorted, by_similarity_desc_total.
    + rewrite py_sorted_Permutation, row_chunks_py_chunks.
      apply (pool_results_Permutation _ _ (seq 0 (length V))).
      apply chunk_size_for_pos.
Qed.

Lemma elem_of_ordered_pairs (R : relation nat) (l : list nat) (a b : nat) :
  StronglySorted R l → (a, b) ∈ ordered_pairs l → R a b ∧ a ∈ l ∧ b ∈ l.
Proof.
  induction 1 as [|x l Hs IH Hx]; simpl; [by intros ?%elem_of_nil|].
  rewrite elem_of_app, list_elem_of_fmap. intros [(y & [= -> ->] & Hy)|Hin].
  - rewrite Forall_forall in Hx. split_and!; [by apply Hx | by left | by right].
  - destruct (IH Hin) as (? & ? & ?). split_and!; [done | by right | by right].
Qed.

Lemma leb_sorted_NoDup_lt (l : list nat) :
  Sorted (λ a b, Nat.leb a b = true) l → NoDup l → StronglySorted lt l.
Proof.
  intros Hs Hnd.
  assert (StronglySorted (λ a b, Nat.leb a b = true) l) as Hss.
  { apply Sorted_StronglySorted; [|done].
    intros a b c ?%Nat.leb_le ?%Nat.leb_le. apply Nat.leb_le. lia. }
  clear Hs. induction Hss as [|x l Hss IH Hx]; [constructor|].
  apply NoDup_cons in Hnd as [Hnot Hnd]. constructor; [by apply IH|].
  rewrite Forall_forall in Hx |- *. intros y Hy.
  specialize (Hx y Hy). apply Nat.leb_le in Hx.
  assert (x ≠ y) by (intros ->; done). lia.
Qed.

Lemma sorted_elements_lt (s : gset nat) :
  StronglySorted lt (py_sorted Nat.leb (elements s)).
Proof.
  apply leb_sorted_NoDup_lt.
  - apply py_sorted_Sorted. intros a b H. apply Nat.leb_le.
    apply Nat.leb_gt in H. lia.
  - rewrite py_sorted_Permutation. apply NoDup_elements.
Qed.


Lemma table_add_below (n h idx : nat) (t : gmap nat (gset nat)) :
  idx < n → table_below n t → table_below n (table_add h idx t).
Proof.
  intros Hidx Ht h' b x. unfold table_add.
  destruct (decide (h = h')) as [->|Hne].
  - rewrite lookup_insert_eq. intros [= <-] [Hx| ->%elem_of_singleton]%elem_of_union;
      [|done].
    destruct (t !! h') as [b'|] eqn:E; simpl in Hx; [by eapply Ht|].
    by apply elem_of_empty in Hx.
  - rewrite lookup_insert_ne by done. apply Ht.
Qed.

Lemma LSHIndex_index_below (lsh : LSHIndex) (V : list vec) :
  Forall (table_below (length V)) (tables lsh) →
  Forall (table_below (length V)) (tables (LSHIndex_index lsh V)).
Proof.
  unfold LSHIndex_index.
  assert (Forall (λ idx, idx < length V) (seq 0 (length V))) as Hidx.
  { apply Forall_seq. lia. }
  revert lsh Hidx. generalize (seq 0 (length V)) as idxs.
  generalize (length V) as n. intros n idxs.
  induction idxs as [|idx idxs IH]; intros lsh Hidx Hl; simpl; [done|].
  apply Forall_cons in Hidx as [Hi Hidx]. apply IH; [done|]. clear IH.
  generalize (seq 0 (num_tables lsh)) as ts. intros ts.
  revert lsh Hl. induction ts as [|t ts IH]; intros lsh Hl; simpl; [done|].
  apply IH. simpl. apply Forall_alter; [done|].
  intros tb _ Htb. by apply table_add_below.
Qed.

Lemma get_candidate_pairs_ordered (V : list vec) (dim a b : nat) :
  (a, b) ∈ get_candidate_pairs (LSHIndex_index (LSHIndex_init dim) V) →
  a < b < length V.
Proof.
  unfold get_candidate_pairs. rewrite elem_of_list_to_set, list_elem_of_bind.
  intros (table & Hab & Htable).
  apply list_elem_of_bind in Hab as (bucket & Hab & Hbucket).
  destruct (Nat.ltb 1 (size bucket)); [|by apply elem_of_nil in Hab].
  apply (elem_of_ordered_pairs lt) in Hab as (Hlt & Ha & Hb);
    [|apply sorted_elements_lt].
  split; [done|].
  rewrite py_sorted_Permutation in Hb. apply elem_of_elements in Hb.
  apply list_elem_of_fmap in Hbucket as ([h bk] & -> & Hbk).
  apply elem_of_map_to_list in Hbk. simpl in Hb.
  assert (Forall (table_below (length V))
            (tables (LSHIndex_index (LSHIndex_init dim) V))) as Hbelow.
  { apply LSHIndex_index_below. cbn [LSHIndex_init tables].
    apply Forall_replicate. intros h' b' x Hl. by rewrite lookup_empty in Hl. }
  rewrite Forall_forall in Hbelow. by eapply Hbelow.
Qed.

Lemma NoDup_verified_candidates (V : list vec) (θ : Q) (cl : list (nat * nat)) :
  NoDup cl → NoDup (pair_key <$> compute_chunk_similarities V θ cl).
Proof.
  unfold compute_chunk_similarities.
  induction 1 as [|c cl Hc Hnd IH]; [constructor|].
  rewrite bind_cons, fmap_app. destruct (Qle_bool _ _); [|done].
  simpl. constructor; [|done].
  rewrite list_elem_of_fmap. intros ([[i j] s] & Hk & Hin).
  apply list_elem_of_bind in Hin as (c' & Hin & Hc').
  destruct (Qle_bool _ _); [|by apply elem_of_nil in Hin].
  apply list_elem_of_singleton in Hin as [= -> -> ->].
  unfold pair_key in Hk. simpl in Hk. destruct c, c'. simpl in *. congruence.
Qed.

Lemma elem_of_verified_candidates (V : list vec) (θ : Q) (cl : list (nat * nat))
    (p : Pair) :
  p ∈ compute_chunk_similarities V θ cl →
  pair_key p ∈ cl ∧ (θ <= p.2)%Q ∧ p.2 = cosine (row V p.1.1) (row V p.1.2).
Proof.
  unfold compute_chunk_similarities. rewrite list_elem_of_bind.
  intros (c & Hp & Hc). destruct (Qle_bool _ _) eqn:E; [|by apply elem_of_nil in Hp].
  apply list_elem_of_singleton in Hp as ->. apply Qle_bool_iff in E.
  destruct c. done.
Qed.

Lemma positive_dimension_size (V : list vec) :
  (∀ v, v ∈ V → v ≠ []) → 2 ≤ length V →
  Nat.eqb (embeddings_size V) 0 || Nat.ltb (length V) 2 = false.
Proof.
  intros Hdim Hn. apply orb_false_iff. split.
  - apply Nat.eqb_neq. unfold embeddings_size.
    destruct V as [|v V]; [simpl in Hn; lia|]. simpl.
    assert (v ≠ []) as Hv by (apply Hdim; by left).
    destruct v; [done|]. simpl. lia.
  - apply Nat.ltb_ge. lia.
Qed.

Lemma find_similar_pairs_dense_sound (V : list vec) (θ : Q) :
  (0 < similarity_parallel_threads settings)%Z →
  ∃ out, find_similar_pairs_dense V θ = Ok out
    ∧ (∀ i j s, (i, j, s) ∈ out →
         i < j < length V ∧ (θ <= s)%Q ∧ s = cosine (row V i) (row V j))
    ∧ NoDup (pair_key <$> out)
    ∧ ((∀ v, v ∈ V → v ≠ []) → ∀ i j, i < j < length V →
         (θ <= cosine (row V i) (row V j))%Q →
         (i, j, cosine (row V i) (row V j)) ∈ out).
Proof.
  intros HT. destruct (find_similar_pairs_dense_spec V θ HT) as (out & Hout & _ & Hspec).
  exists out. split; [done|].
  destruct (Nat.eqb (embeddings_size V) 0 || Nat.ltb (length V) 2) eqn:E.
  - subst out. split_and!.
    + by intros i j s ?%elem_of_nil.
    + constructor.
    + intros Hdim i j Hij _.
      rewrite positive_dimension_size in E; [done | done | lia].
  - split_and!.
    + intros i j s Hin. rewrite Hspec in Hin.
      by apply elem_of_process_row_chunk in Hin.
    + rewrite Hspec. apply NoDup_process_row_chunk.
    + intros _ i j Hij Hθ. rewrite Hspec. by apply elem_of_process_row_chunk.
Qed.

(** The dot product of two scaled rows; a null row is orthogonal to every
    row; and the cosine of the code is the dot product over the product of
    the norms as soon as [norm] is the Euclidean norm on the two rows. *)
Lemma dot_scale (a b : Q) (u v : vec) :
  (dot ((λ x, x / a) <$> u) ((λ x, x / b) <$> v) == dot u v / (a * b))%Q.
Proof.
  unfold dot, Qdiv. rewrite Qinv_mult_distr.
  revert v. induction u as [|x u IH]; intros [|y v]; simpl; try ring.
  rewrite IH. ring.
Qed.

Lemma dot_self_nonneg (u : vec) : (0 <= dot u u)%Q.
Proof.
  unfold dot. induction u as [|x u IH]; simpl; [done|].
  assert (0 <= x * x)%Q as Hx by nra. lra.
Qed.

Lemma dot_null_l (u v : vec) : (dot u u == 0)%Q → (dot u v == 0)%Q.
Proof.
  unfold dot. revert v. induction u as [|x u IH]; intros [|y v]; simpl; try done.
  intros H. pose proof (dot_self_nonneg u) as Hu. unfold dot in Hu.
  assert (0 <= x * x)%Q as Hx by nra.
  assert (x * x == 0)%Q as Hxx by lra.
  apply Qmult_integral in Hxx.
  assert (x == 0)%Q as Hx0 by tauto.
  rewrite IH by lra. rewrite Hx0. ring.
Qed.

Lemma dot_comm (u v : vec) : (dot u v == dot v u)%Q.
Proof.
  unfold dot. revert v. induction u as [|x u IH]; intros [|y v]; simpl; try done.
  rewrite IH. ring.
Qed.

Lemma cosine_quotient (u v : vec) :
  (norm u * norm u == dot u u)%Q → (norm v * norm v == dot v v)%Q →
  (cosine u v == dot u v / (norm u * norm v))%Q.
Proof.
  intros Hu Hv. unfold cosine, normalize. cbv zeta. rewrite dot_scale.
  destruct (Qeq_bool (norm u) 0) eqn:Eu.
  { apply Qeq_bool_iff in Eu. rewrite Eu in Hu.
    rewrite (dot_null_l u v) by (rewrite <- Hu; ring).
    unfold Qdiv. ring. }
  destruct (Qeq_bool (norm v) 0) eqn:Ev; [|done].
  apply Qeq_bool_iff in Ev. rewrite Ev in Hv.
  rewrite (dot_comm u v), (dot_null_l v u) by (rewrite <- Hv; ring).
  unfold Qdiv. ring.
Qed.

Lemma row_elem_of (V : list vec) (i : nat) : i < length V → row V i ∈ V.
Proof.
  intros Hi. unfold row. destruct (V !! i) as [v|] eqn:E.
  - by eapply list_elem_of_lookup_2.
  - apply lookup_ge_None in E. exfalso. revert Hi E. unfold vec. lia.
Qed.

Lemma euclidean_norm_checked (V : list vec) :
  forallb (λ v, Qle_bool 0 (norm v) && Qeq_bool (norm v * norm v) (dot v v)) V = true →
  ∀ v, v ∈ V → (0 <= norm v)%Q ∧ (norm v * norm v == dot v v)%Q.
Proof.
  intros H v Hv. apply list_elem_of_In in Hv.
  rewrite forallb_forall in H. specialize (H v Hv).
  apply andb_true_iff in H as [H1 H2].
  split; [by apply Qle_bool_iff | by apply Qeq_bool_iff].
Qed.


(** The dense strategy returns its pairs in descending order of similarity
    (the part of C4 that holds). *)
Lemma find_similar_pairs_dense_sorted (V : list vec) (θ : Q) (out : list Pair) :
  find_similar_pairs_dense V θ = Ok out →
  Sorted (λ a b, (pair_sim b <= pair_sim a)%Q) out.
Proof.
  unfold find_similar_pairs_dense.
  destruct (Nat.eqb (embeddings_size V) 0 || Nat.ltb (length V) 2).
  { intros [= <-]. constructor. }
  destruct (check_threads _); simpl; [|done]. intros [= <-].
  eapply Sorted_weaken; [|apply py_sorted_Sorted, by_similarity_desc_total].
  intros x y H. by apply Qle_bool_iff in H.
Qed.

(** *** Retries of the LLM merge *)

(** One call of [_call_blockify_api] posts between one and three requests
    and sleeps 1 s and then 2 s between them; it touches nothing else. *)
Lemma _call_blockify_api_effect (prompt : string) (w : World) :
  ∃ c : nat, 1 ≤ c ≤ 3
    ∧ (_call_blockify_api prompt w).2
      = mkWorld (http_calls w + c) (uuid_draws w)
                (slept w ++ ((λ q, (ApiBackoff, q)) <$> take (c - 1) [1%Q; 2%Q]))
                (saved_intermediate w).
Proof.
  unfold _call_blockify_api, _call_blockify_api_loop, mbind, M_bind, requests_post,
    sleep, raise, mret, M_ret. simpl.
  destruct (distill_endpoint (http_calls w) prompt); simpl;
    [|exists 1; split; [lia|]; destruct w; simpl; f_equal; (lia || by rewrite app_nil_r)..].
  destruct (distill_endpoint (S (http_calls w)) prompt); simpl;
    [|exists 2; split; [lia|]; simpl; f_equal; lia..].
  destruct (distill_endpoint (S (S (http_calls w))) prompt); simpl;
    exists 3; (split; [lia|]); simpl; rewrite <- app_assoc; f_equal; lia.
Qed.

Lemma merge_cluster_effect (cluster_blocks : list Block) (w : World) :
  ∃ (resp : MergeResponse) (c : nat), 1 ≤ c ≤ 3
    ∧ merge_cluster cluster_blocks w
      = (Ok resp,
         mkWorld (http_calls w + c) (uuid_draws w)
                 (slept w ++ ((λ q, (ApiBackoff, q)) <$> take (c - 1) [1%Q; 2%Q]))
                 (saved_intermediate w)).
Proof.
  destruct (_call_blockify_api_effect (_create_merge_prompt cluster_blocks) w)
    as (c & Hc & Hw).
  unfold merge_cluster, try_except, mbind, M_bind, mret, M_ret.
  destruct (_call_blockify_api _ w) as [[raw|e] w1]; simpl in Hw; subst w1.
  - destruct raw as [raw|]; [|by eexists _, c].
    case_bool_decide; [by eexists _, c|].
    destruct (_parse_all_xml_ideablocks raw); [|by eexists _, c].
    destruct (_parse_llm_response raw); by eexists _, c.
  - by eexists _, c.
Qed.

Lemma delays_at_slept (site : SleepSite) (w : World) (h u : nat)
    (l : list (SleepSite * Q)) (s : list Response) :
  delays_at site (mkWorld h u (slept w ++ l) s)
  = delays_at site w ++ (snd <$> filter (λ e, e.1 = site) l).
Proof. unfold delays_at. simpl. by rewrite filter_app, fmap_app. Qed.

Lemma api_delays_filter (site : SleepSite) (qs : list Q) :
  snd <$> filter (λ e, e.1 = site) ((λ q, (ApiBackoff, q)) <$> qs)
  = if decide (ApiBackoff = site) then qs else [].
Proof.
  destruct (decide (ApiBackoff = site)) as [E|E];
    induction qs as [|q qs IH]; try done; rewrite fmap_cons.
  - rewrite filter_cons_True by done. by rewrite fmap_cons, IH.
  - by rewrite filter_cons_False.
Qed.

Lemma merge_attempt_effect (cluster_blocks : list Block) (w : World) :
  ∃ (resp : MergeResponse) (c : nat) (o : list Content + string), 1 ≤ c ≤ 3
    ∧ let w1 := mkWorld (http_calls w + c) (uuid_draws w)
                  (slept w ++ ((λ q, (ApiBackoff, q)) <$> take (c - 1) [1%Q; 2%Q]))
                  (saved_intermediate w) in
      merge_cluster cluster_blocks w = (Ok resp, w1)
      ∧ merge_attempt cluster_blocks w = (Ok o, w1)
      ∧ ((∃ contents, o = inl contents ∧ contents ≠ [])
         ∨ o = inr (error_or_default (mr_error resp))).
Proof.
  destruct (merge_cluster_effect cluster_blocks w) as (resp & c & Hc & Hm).
  unfold merge_attempt, try_except, mbind, M_bind, mret, M_ret. rewrite Hm.
  destruct (success resp), (merged_contents resp) as [[|c0 cs]|];
    eexists resp, c, _; (split; [done|]); simpl; split_and!; eauto.
Qed.

Lemma _single_llm_merge_loop_step (cluster_blocks : list Block) (remaining : nat)
    (attempt : Z) (last : option string) (w w1 : World)
    (o : list Content + string) :
  merge_attempt cluster_blocks w = (Ok o, w1) →
  _single_llm_merge_loop (S remaining) attempt last cluster_blocks w
  = match o with
    | inl contents => (Ok contents, w1)
    | inr e =>
        _single_llm_merge_loop remaining (attempt + 1) (Some e) cluster_blocks
          (if (attempt <? llm_max_retries settings)%Z
           then mkWorld (http_calls w1) (uuid_draws w1)
                        (slept w1 ++ [(MergeBackoff,
                           (llm_retry_delay settings * inject_Z (2 ^ (attempt - 1)))%Q)])
                        (saved_intermediate w1)
           else w1)
    end.
Proof.
  intros Ha. cbn [_single_llm_merge_loop]. unfold mbind, M_bind. rewrite Ha.
  destruct o; [done|]. by destruct (attempt <? _)%Z.
Qed.

(** The loop of [_single_llm_merge], entered at [attempt] with [remaining]
    rounds to go: [k] attempts are made. *)
Lemma _single_llm_merge_loop_spec (cluster_blocks : list Block) (remaining : nat) :
  ∀ (attempt : Z) (last : option string) (w : World),
  (Z.of_nat remaining + attempt = llm_max_retries settings + 1)%Z →
  let r := (_single_llm_merge_loop remaining attempt last cluster_blocks w).1 in
  let w' := (_single_llm_merge_loop remaining attempt last cluster_blocks w).2 in
  ∃ k : nat, k ≤ remaining ∧ (0 < remaining → 0 < k)
    ∧ delays_at MergeBackoff w'
      = delays_at MergeBackoff w
        ++ ((λ a : nat, (llm_retry_delay settings
                         * inject_Z (2 ^ (attempt + Z.of_nat a - 1)))%Q)
              <$> seq 0 (k - 1))
    ∧ http_calls w + k ≤ http_calls w' ≤ http_calls w + 3 * k
    ∧ (∃ extra, delays_at ApiBackoff w' = delays_at ApiBackoff w ++ extra
         ∧ length extra ≤ 2 * k ∧ Forall (λ q, q = 1%Q ∨ q = 2%Q) extra)
    ∧ uuid_draws w' = uuid_draws w
    ∧ ((∃ contents, r = Ok contents ∧ contents ≠ [] ∧ 0 < k)
       ∨ (k = remaining
          ∧ ∃ last', r = Raise (retries_exhausted_message last')
              ∧ (remaining = 0 → last' = last)
              ∧ (0 < remaining →
                 ∃ w0 resp, merge_cluster cluster_blocks w0 = (Ok resp, w')
                   ∧ last' = Some (error_or_default (mr_error resp))))).
Proof.
  induction remaining as [|remaining IH]; intros attempt last w Hatt r w'.
  - subst r w'. exists 0. simpl. rewrite !app_nil_r. split_and!; try (done || lia).
    + exists []. rewrite app_nil_r. split_and!; [done | simpl; lia | constructor].
    + right. split; [done|]. exists last. split_and!; [done | done | lia].
  - destruct (merge_attempt_effect cluster_blocks w)
      as (resp & c & o & Hc & Hm & Ha & Ho). cbn zeta in Hm, Ha.
    set (w1 := mkWorld _ _ _ _) in *.
    assert (∀ site, delays_at site w1
              = delays_at site w
                ++ (if decide (ApiBackoff = site) then take (c - 1) [1%Q; 2%Q] else []))
      as Hd1.
    { intros site. unfold w1. by rewrite delays_at_slept, api_delays_filter. }
    assert (Forall (λ q, q = 1%Q ∨ q = 2%Q) (take (c - 1) [1%Q; 2%Q])) as Hfa.
    { apply Forall_take. constructor; [by left|]. constructor; [by right|]. constructor. }
    assert (length (take (c - 1) [1%Q; 2%Q]) ≤ 2) as Hlen.
    { rewrite length_take. simpl. lia. }
    assert (http_calls w1 = http_calls w + c) as Hcalls1 by done.
    assert (uuid_draws w1 = uuid_draws w) as Hu1 by done.
    clearbody w1.
    subst r w'. rewrite (_single_llm_merge_loop_step _ _ _ _ _ _ _ Ha).
    destruct Ho as [(contents & -> & Hne)| ->].
    + exists 1. simpl. rewrite app_nil_r. split_and!; try lia.
      * by rewrite (Hd1 MergeBackoff), app_nil_r.
      * eexists. split; [apply (Hd1 ApiBackoff)|]. simpl. split; [lia | done].
      * left. eexists. split_and!; [reflexivity | done | lia].
    + set (e := error_or_default (mr_error resp)) in *.
      set (w2 := if (attempt <? llm_max_retries settings)%Z then _ else w1).
      assert (delays_at MergeBackoff w2
              = delays_at MergeBackoff w
                ++ (if (attempt <? llm_max_retries settings)%Z
                    then [(llm_retry_delay settings * inject_Z (2 ^ (attempt - 1)))%Q]
                    else [])
              ∧ delays_at ApiBackoff w2
                = delays_at ApiBackoff w ++ take (c - 1) [1%Q; 2%Q]
              ∧ http_calls w2 = http_calls w + c
              ∧ uuid_draws w2 = uuid_draws w) as (Hm2 & Ha2 & Hc2 & Hu2).
      { pose proof (Hd1 MergeBackoff) as HdM. pose proof (Hd1 ApiBackoff) as HdA.
        simpl in HdM, HdA. rewrite app_nil_r in HdM. subst w2.
        destruct (attempt <? llm_max_retries settings)%Z.
        - rewrite !delays_at_slept. simpl. rewrite app_nil_r, HdM, HdA. done.
        - rewrite app_nil_r. done. }
      destruct (IH (attempt + 1)%Z (Some e) w2 ltac:(lia))
        as (k & Hk & Hkpos & Hmerge & Hcalls & (extra & Hapi & Hxl & Hxf) & Hu & Hres).
      assert ((llm_max_retries settings <= attempt)%Z → w2 = w1) as Hw2.
      { intros Hge. subst w2.
        destruct (Z.ltb_spec attempt (llm_max_retries settings)); [lia|done]. }
      cbn zeta in *. clearbody w2.
      exists (S k). split; [lia|]. split; [intros _; apply Nat.lt_0_succ|]. split.
      { rewrite Hmerge, Hm2, <- app_assoc. f_equal.
        destruct (Z.ltb_spec attempt (llm_max_retries settings)) as [Hlt|Hge].
        - assert (0 < k) as Hkp by (apply Hkpos; lia).
          replace (S k - 1) with (S (k - 1)) by lia.
          cbn [seq fmap list_fmap app]. rewrite <- fmap_S_seq, <- list_fmap_compose.
          f_equal; [do 3 f_equal; lia|].
          apply list_fmap_ext. intros _ a _. simpl. do 3 f_equal. lia.
        - assert (k = 0) as -> by lia. done. }
      split; [lia|]. split.
      { exists (take (c - 1) [1%Q; 2%Q] ++ extra). split_and!.
        - by rewrite Hapi, Ha2, app_assoc.
        - rewrite length_app. lia.
        - by apply Forall_app. }
      split; [congruence|].
      destruct Hres as [(contents & Hr & Hne & Hkp)|(-> & last' & Hr & Hl0 & Hl1)].
      { left. exists contents. split_and!; [done | done | lia]. }
      right. split; [done|]. exists last'. split_and!; [done | lia |].
      intros _. destruct remaining as [|remaining].
      * exists w, resp. rewrite (Hl0 eq_refl). split; [|done].
        simpl. rewrite Hm, Hw2; [done|lia].
      * apply Hl1. lia.
Qed.

(** C6, amended: [_single_llm_merge] attempts the merge at most
    [LLM_MAX_RETRIES] times; after the failed attempt number [a] that is not
    the last it sleeps [LLM_RETRY_DELAY * 2^(a-1)] seconds (2 s, then 4 s
    with the defaults); it returns the contents of the first attempt that
    yields any, and otherwise raises an error that carries the error of the
    last attempt.  Inside every attempt [_call_blockify_api] posts up to
    three requests, sleeping 1 s and then 2 s after a transport or HTTP
    failure, so up to three requests per attempt are made and the first
    delay after such a failure is 1 s. *)
Theorem llm_merge_retry_schedule (cluster_blocks : list Block) (w : World) :
  let R := Z.to_nat (llm_max_retries settings) in
  let r := (_single_llm_merge cluster_blocks w).1 in
  let w' := (_single_llm_merge cluster_blocks w).2 in
  (∃ k : nat, k ≤ R
    ∧ delays_at MergeBackoff w'
      = delays_at MergeBackoff w
        ++ ((λ a : nat, (llm_retry_delay settings * inject_Z (2 ^ Z.of_nat a))%Q)
              <$> seq 0 (k - 1))
    ∧ http_calls w + k ≤ http_calls w' ≤ http_calls w + 3 * k
    ∧ (∃ extra, delays_at ApiBackoff w' = delays_at ApiBackoff w ++ extra
         ∧ length extra ≤ 2 * k ∧ Forall (λ q, q = 1%Q ∨ q = 2%Q) extra)
    ∧ ((∃ contents, r = Ok contents ∧ contents ≠ [] ∧ 0 < k)
       ∨ (k = R
          ∧ ∃ last', r = Raise (retries_exhausted_message last')
              ∧ (0 < R →
                 ∃ w0 resp, merge_cluster cluster_blocks w0 = (Ok resp, w')
                   ∧ last' = Some (error_or_default (mr_error resp))))))
  ∧ (∀ prompt w0, ∃ c : nat, 1 ≤ c ≤ 3
       ∧ (_call_blockify_api prompt w0).2
         = mkWorld (http_calls w0 + c) (uuid_draws w0)
             (slept w0 ++ ((λ q, (ApiBackoff, q)) <$> take (c - 1) [1%Q; 2%Q]))
             (saved_intermediate w0)).
Proof.
  intros R r w'. split; [|apply _call_blockify_api_effect].
  subst r w'. unfold _single_llm_merge. fold R.
  destruct (Z.le_gt_cases 0 (llm_max_retries settings)) as [Hnn|Hneg].
  - destruct (_single_llm_merge_loop_spec cluster_blocks R 1%Z None w ltac:(lia))
      as (k & Hk & _ & Hmerge & Hcalls & Hapi & _ & Hres). cbn zeta in *.
    exists k. split; [done|]. split.
    { rewrite Hmerge. f_equal. apply list_fmap_ext. intros _ a _. simpl.
      do 3 f_equal. lia. }
    split; [done|]. split; [done|].
    destruct Hres as [?|(-> & last' & Hr & _ & Hl)]; [by left|].
    right. split; [done|]. by exists last'.
  - assert (R = 0) as -> by lia. exists 0. simpl. rewrite !app_nil_r.
    split_and!; try (done || lia).
    + exists []. rewrite app_nil_r. split_and!; [done | simpl; lia | constructor].
    + right. split; [done|]. exists None. split; [done | lia].
Qed.

(** *** Effects: inversion and monotonicity of the identifier counter *)

Lemma M_bind_Ok_inv {A B} (m : M A) (f : A → M B) (w w' : World) (b : B) :
  (m ≫= f) w = (Ok b, w') → ∃ a w1, m w = (Ok a, w1) ∧ f a w1 = (Ok b, w').
Proof.
  unfold mbind, M_bind. destruct (m w) as [[a|e] w1]; [|done]. eauto.
Qed.

Lemma lift_Ok_inv {A} (r : Result A) (w w' : World) (a : A) :
  lift r w = (Ok a, w') → r = Ok a ∧ w' = w.
Proof. unfold lift. by intros [= -> ->]. Qed.

Lemma mapM_M_Forall2 {A B} (f : A → M B) (l : list A) :
  ∀ w ys w', mapM f l w = (Ok ys, w') →
    Forall2 (λ x y, ∃ w0 w1, f x w0 = (Ok y, w1)) l ys.
Proof.
  induction l as [|x l IH]; intros w ys w' H.
  - injection H as <- _. constructor.
  - cbn [mapM] in H.
    apply M_bind_Ok_inv in H as (y & w1 & Hy & H).
    apply M_bind_Ok_inv in H as (k & w2 & Hk & H).
    injection H as <- _. constructor; [eauto | by eapply IH].
Qed.


Lemma draws_mono_ret {A} (a : A) : draws_mono (mret a).
Proof. by intros w. Qed.

Lemma draws_mono_raise {A} (e : string) : draws_mono (raise (A := A) e).
Proof. by intros w. Qed.

Lemma draws_mono_lift {A} (r : Result A) : draws_mono (lift r).
Proof. by intros w. Qed.

Lemma draws_mono_bind {A B} (m : M A) (f : A → M B) :
  draws_mono m → (∀ a, draws_mono (f a)) → draws_mono (m ≫= f).
Proof.
  intros Hm Hf w. unfold mbind, M_bind. specialize (Hm w).
  destruct (m w) as [[a|e] w1]; simpl in *; [|done].
  specialize (Hf a w1). lia.
Qed.

Lemma draws_mono_try {A} (m : M A) (h : string → M A) :
  draws_mono m → (∀ e, draws_mono (h e)) → draws_mono (try_except m h).
Proof.
  intros Hm Hh w. unfold try_except. specialize (Hm w).
  destruct (m w) as [[a|e] w1]; simpl in *; [done|].
  specialize (Hh e w1). lia.
Qed.

Lemma draws_mono_mapM {A B} (f : A → M B) (l : list A) :
  (∀ x, draws_mono (f x)) → draws_mono (mapM f l).
Proof.
  intros Hf. induction l as [|x l IH]; [apply draws_mono_ret|].
  cbn [mapM]. apply draws_mono_bind; [done|]. intros y.
  apply draws_mono_bind; [done|]. intros k. apply draws_mono_ret.
Qed.

Lemma draws_mono_draw_uuid : draws_mono draw_uuid.
Proof. intros w. simpl. lia. Qed.

Lemma draws_mono_single_llm_merge (cluster_blocks : list Block) :
  draws_mono (_single_llm_merge cluster_blocks).
Proof.
  intros w. unfold _single_llm_merge.
  destruct (Z.le_gt_cases 0 (llm_max_retries settings)) as [Hnn|Hneg].
  - destruct (_single_llm_merge_loop_spec cluster_blocks
                (Z.to_nat (llm_max_retries settings)) 1%Z None w ltac:(lia))
      as (k & _ & _ & _ & _ & _ & Hu & _). cbn zeta in Hu. lia.
  - replace (Z.to_nat (llm_max_retries settings)) with 0 by lia. done.
Qed.

Lemma draws_mono_results_to_blocks (rs : list Content) :
  draws_mono (_results_to_blocks rs).
Proof.
  apply draws_mono_mapM. intros r. apply draws_mono_bind;
    [apply draws_mono_draw_uuid | intros u; apply draws_mono_ret].
Qed.

Lemma draws_mono_process (levels : nat) :
  ∀ cluster_blocks θ,
    draws_mono (_process_large_cluster_recursively levels cluster_blocks θ).
Proof.
  induction levels as [|levels IH]; intros cluster_blocks θ;
    destruct cluster_blocks as [|b1 [|b2 bs]]; cbn [_process_large_cluster_recursively];
    try apply draws_mono_ret; try apply draws_mono_single_llm_merge.
  destruct (_ <=? _)%Z; [apply draws_mono_single_llm_merge|].
  apply draws_mono_bind; [apply draws_mono_lift|]. intros k.
  apply draws_mono_bind.
  { destruct (_ && _).
    - apply draws_mono_mapM. intros sub.
      apply draws_mono_try; [apply IH | intros e; apply draws_mono_ret].
    - apply draws_mono_mapM. intros sub. apply IH. }
  intros per. destruct (_ <? _)%Z.
  { apply draws_mono_bind; [apply draws_mono_results_to_blocks | intros s; apply IH]. }
  destruct (Nat.ltb _ _); [|apply draws_mono_ret].
  apply draws_mono_bind; [apply draws_mono_results_to_blocks|]. intros s.
  apply draws_mono_bind; [apply draws_mono_lift|]. intros cl.
  case_bool_decide; [apply draws_mono_ret | apply IH].
Qed.

(** *** Blocks produced by a cluster merge *)

Lemma _contents_to_blocks_spec (contents : list Content) (source_blocks : list Block) :
  ∀ w, _contents_to_blocks contents source_blocks w
    = (Ok (zip_with (merged_block (blockifyResultUUID <$> source_blocks)
                                  (first_document_uuid source_blocks))
                    contents (uuid4 <$> seq (uuid_draws w) (length contents))),
       mkWorld (http_calls w) (uuid_draws w + length contents) (slept w)
               (saved_intermediate w)).
Proof.
  unfold _contents_to_blocks.
  induction contents as [|c contents IH]; intros w.
  - simpl. unfold mret, M_ret. destruct w. simpl. do 2 f_equal. lia.
  - cbn [mapM]. unfold mbind at 1, M_bind at 1. unfold mbind at 1, M_bind at 1.
    unfold draw_uuid at 1. cbn beta iota. unfold mret at 1, M_ret at 1.
    unfold mbind, M_bind. rewrite IH. simpl. unfold mret, M_ret.
    do 2 f_equal. lia.
Qed.

Lemma zip_with_merged_block (ids : list string) (doc : option string)
    (contents : list Content) :
  ∀ us : list string, length us = length contents →
    Forall (λ b, type b = "merged"%string
                 ∧ blockifyResultsUsed b = Some (Some ids)
                 ∧ hidden b = Some false ∧ exported b = Some false
                 ∧ reviewed b = Some false)
           (zip_with (merged_block ids doc) contents us)
    ∧ blockifyResultUUID <$> zip_with (merged_block ids doc) contents us = us.
Proof.
  induction contents as [|c contents IH]; intros [|u us] Hlen; try done.
  simpl in Hlen. destruct (IH us ltac:(lia)) as [Hfa Hids].
  cbn [zip_with]. split.
  - constructor; [done|done].
  - by rewrite fmap_cons, Hids.
Qed.

Lemma _merge_cluster_with_llm_inv (cluster_blocks : list Block) (θ : Q)
    (w w' : World) (out : list Block) :
  _merge_cluster_with_llm cluster_blocks θ w = (Ok out, w') →
  ∃ contents w1, uuid_draws w ≤ uuid_draws w1
    ∧ _contents_to_blocks contents cluster_blocks w1 = (Ok out, w').
Proof.
  unfold _merge_cluster_with_llm, _single_llm_merge_to_blocks.
  destruct (_ <=? _)%Z; intros (contents & w1 & Hc & Hb)%M_bind_Ok_inv;
    exists contents, w1; (split; [|done]).
  - pose proof (draws_mono_single_llm_merge cluster_blocks w) as Hm.
    by rewrite Hc in Hm.
  - pose proof (draws_mono_process (Z.to_nat (max_recursion_depth settings))
                  cluster_blocks θ w) as Hm.
    by rewrite Hc in Hm.
Qed.

(** C10: every block produced by one cluster merge has
    [blockifyResultsUsed] equal to the identifiers of all blocks of the input
    cluster, whatever the number of blocks produced, with [type = "merged"]
    and [hidden], [exported], [reviewed] false; the identifiers of the
    produced blocks are the results of successive new [uuid4()] draws, hence
    pairwise distinct when [uuid4] never repeats itself. *)
Theorem merged_blocks_share_sources (cluster_blocks : list Block) (θ : Q)
    (w w' : World) (out : list Block) :
  _merge_cluster_with_llm cluster_blocks θ w = (Ok out, w') →
  Forall (λ b, type b = "merged"%string
               ∧ blockifyResultsUsed b
                 = Some (Some (blockifyResultUUID <$> cluster_blocks))
               ∧ hidden b = Some false ∧ exported b = Some false
               ∧ reviewed b = Some false) out
  ∧ ∃ c : nat, uuid_draws w ≤ c ∧ uuid_draws w' = c + length out
      ∧ blockifyResultUUID <$> out = uuid4 <$> seq c (length out)
      ∧ ((∀ i j, uuid4 i = uuid4 j → i = j) →
         NoDup (blockifyResultUUID <$> out)).
Proof.
  intros H. apply _merge_cluster_with_llm_inv in H as (contents & w1 & Hmono & Hb).
  rewrite _contents_to_blocks_spec in Hb. injection Hb as Ho Hw. subst out w'.
  destruct (zip_with_merged_block (blockifyResultUUID <$> cluster_blocks)
              (first_document_uuid cluster_blocks) contents
              (uuid4 <$> seq (uuid_draws w1) (length contents))) as [Hfa Hids].
  { by rewrite length_fmap, length_seq. }
  split; [done|]. exists (uuid_draws w1).
  assert (length (zip_with (merged_block (blockifyResultUUID <$> cluster_blocks)
                              (first_document_uuid cluster_blocks)) contents
                    (uuid4 <$> seq (uuid_draws w1) (length contents)))
          = length contents) as Hlen.
  { rewrite length_zip_with, length_fmap, length_seq. lia. }
  rewrite Hlen. split_and!; [done | done | done |].
  intros Hinj. rewrite Hids. apply NoDup_fmap_2; [|apply NoDup_seq].
  intros i j. apply Hinj.
Qed.

(** *** The iteration driver *)

Lemma try_except_Ok_inv {A} (m : M A) (h : string → M A) (w w' : World) (a : A) :
  try_except m h w = (Ok a, w') →
  m w = (Ok a, w') ∨ ∃ e w1, m w = (Raise e, w1) ∧ h e w1 = (Ok a, w').
Proof.
  unfold try_except. destruct (m w) as [[a'|e] w1]; [|by eauto].
  intros [= -> ->]. by left.
Qed.

Lemma index_all_Ok {A} (l : list A) (indices : list nat) (xs : list A) :
  index_all l indices = Ok xs → Forall2 (λ i x, l !! i = Some x) indices xs.
Proof.
  unfold index_all. revert xs. induction indices as [|i indices IH]; intros xs.
  - intros [= <-]. constructor.
  - cbn [mapM]. destruct (l !! i) as [x|] eqn:E; [|done]. simpl.
    destruct (mapM _ indices) as [ys|] eqn:E'; [|done]. simpl.
    intros [= <-]. constructor; [done | by apply IH].
Qed.

Lemma index_all_elem_of {A} (l : list A) (indices : list nat) (xs : list A) (x : A) :
  index_all l indices = Ok xs → x ∈ xs → x ∈ l.
Proof.
  intros H%index_all_Ok Hx. apply list_elem_of_lookup in Hx as [k Hk].
  destruct (Forall2_lookup_r _ _ _ _ _ H Hk) as (i & _ & Hi).
  by eapply list_elem_of_lookup_2.
Qed.


Lemma _merge_cluster_with_llm_ok : merge_ok _merge_cluster_with_llm.
Proof.
  intros blocks θ w out w' H.
  apply _merge_cluster_with_llm_inv in H as (contents & w1 & Hmono & Hb).
  rewrite _contents_to_blocks_spec in Hb. injection Hb as Ho Hw. subst out w'.
  destruct (zip_with_merged_block (blockifyResultUUID <$> blocks)
              (first_document_uuid blocks) contents
              (uuid4 <$> seq (uuid_draws w1) (length contents))) as [Hfa Hids].
  { by rewrite length_fmap, length_seq. }
  eapply Forall_impl; [exact Hfa|]. intros b (Ht & Hu & Hh & _). done.
Qed.



Lemma sources_known_app (active_ids : list string) (merged new : list Block) :
  sources_known active_ids merged →
  Forall (λ b, type b = "merged"%string ∧ hidden b = Some false
               ∧ ∃ srcs, blockifyResultsUsed b = Some (Some srcs) ∧ srcs ≠ []
                   ∧ ∀ u, u ∈ srcs →
                       u ∈ active_ids
                       ∨ ∃ j b', merged !! j = Some b' ∧ blockifyResultUUID b' = u)
         new →
  sources_known active_ids (merged ++ new).
Proof.
  intros Hold Hnew i b Hi. apply lookup_app_Some in Hi as [Hi|[Hge Hi]].
  - destruct (Hold i b Hi) as (Ht & Hh & srcs & Hs & Hne & Hu).
    split_and!; [done..|]. exists srcs. split_and!; [done..|].
    intros u Hin. destruct (Hu u Hin) as [?|(j & b' & Hj & Hb' & Hid)]; [by left|].
    right. exists j, b'. split_and!; [done | by apply lookup_app_l_Some | done].
  - rewrite Forall_forall in Hnew.
    destruct (Hnew b (list_elem_of_lookup_2 _ _ _ Hi)) as (Ht & Hh & srcs & Hs & Hne & Hu).
    split_and!; [done..|]. exists srcs. split_and!; [done..|].
    intros u Hin. destruct (Hu u Hin) as [?|(j & b' & Hb' & Hid)]; [by left|].
    right. exists j, b'. split_and!; [|by apply lookup_app_l_Some | done].
    apply lookup_lt_Some in Hb'. lia.
Qed.

Lemma collect_merged_results (rs : list ClusterResult) :
  ∀ (acc : Collected) (b : Block),
    b ∈ merged_results (foldl collect acc rs) →
    b ∈ merged_results acc
    ∨ ∃ r, r ∈ rs ∧ cr_success r = true ∧ b ∈ cr_merge_results r.
Proof.
  induction rs as [|r rs IH]; intros acc b Hb; simpl in Hb; [by left|].
  apply IH in Hb as [Hb|(r' & Hr' & Hs & Hb)].
  - unfold collect in Hb. destruct (cr_success r) eqn:E; [|by left].
    simpl in Hb. apply elem_of_app in Hb as [Hb|Hb]; [by left|].
    right. exists r. split_and!; [by left | done | done].
  - right. exists r'. split_and!; [by right | done | done].
Qed.

Lemma process_single_cluster_success (f : list Block → Q → M (list Block))
    (master : list Block) (θ : Q) (indices : list nat) (w w' : World)
    (r : ClusterResult) :
  process_single_cluster f master θ indices w = (Ok r, w') →
  cr_success r = true →
  index_all master indices = Ok (cr_cluster_blocks r)
  ∧ ∃ w0 w1, f (cr_cluster_blocks r) θ w0 = (Ok (cr_merge_results r), w1).
Proof.
  unfold process_single_cluster.
  intros (blocks & w1 & [Hidx ->]%lift_Ok_inv & H)%M_bind_Ok_inv Hs.
  apply try_except_Ok_inv in H as [H|(e & w2 & _ & H)].
  - apply M_bind_Ok_inv in H as (out & w2 & Hf & H).
    case_bool_decide; injection H as <- _; [done|]. simpl. eauto.
  - injection H as <- _. done.
Qed.

Lemma _add_embeddings_to_blocks_ids (blocks out : list Block) (b : Block) :
  _add_embeddings_to_blocks blocks = Ok out → b ∈ out →
  ∃ b0, b0 ∈ blocks ∧ blockifyResultUUID b = blockifyResultUUID b0.
Proof.
  unfold _add_embeddings_to_blocks. case_bool_decide.
  { intros [= <-] Hb. by apply elem_of_nil in Hb. }
  destruct (generate_embeddings _) as [es|]; [|done]. simpl. intros [= <-] Hb.
  apply elem_of_zip_with in Hb as (b0 & e & -> & Hb0 & _). by exists b0.
Qed.


Lemma iteration_body_inv (f : list Block → Q → M (list Block))
    (active_blocks : list Block) (starting_count iteration : Z)
    (active_ids : list string) (st st' : LoopState) (go_on : bool) (w w' : World) :
  merge_ok f →
  loop_inv active_ids st →
  iteration_body f active_blocks starting_count iteration st w
  = (Ok (go_on, st'), w') →
  loop_inv active_ids st'.
Proof.
  intros Hf [Hsrc Hmaster]. unfold iteration_body.
  destruct (Nat.ltb _ 2); [by intros [= _ <- _]|].
  intros (embeddings & w1 & _ & H)%M_bind_Ok_inv.
  apply M_bind_Ok_inv in H as (pairs & w2 & _ & H).
  case_bool_decide; [by injection H as _ <- _|].
  apply M_bind_Ok_inv in H as (clusters & w3 & _ & H).
  case_bool_decide; [by injection H as _ <- _|].
  apply M_bind_Ok_inv in H as (u & w4 & _ & H).
  apply M_bind_Ok_inv in H as (done_ & w5 & Hdone & H).
  set (acc := foldl collect _ _) in H.
  apply M_bind_Ok_inv in H as (mwe & w6 & [Hmwe ->]%lift_Ok_inv & H).
  apply M_bind_Ok_inv in H as (keep & w7 & [Hkeep ->]%lift_Ok_inv & H).
  assert (∀ θ' hid,
            loop_inv active_ids
              (mkLoop (keep ++ mwe) θ' hid (all_merged_blocks st ++ merged_results acc)))
    as Hinv.
  { intros θ' hid. split; simpl.
    - apply sources_known_app; [done|]. apply Forall_forall. intros b Hb.
      apply collect_merged_results in Hb as [Hb|(r & Hr & Hs & Hb)];
        [by apply elem_of_nil in Hb|].
      rewrite as_completed_perm in Hr.
      apply mapM_M_Forall2 in Hdone.
      apply list_elem_of_lookup in Hr as [k Hk].
      destruct (Forall2_lookup_r _ _ _ _ _ Hdone Hk) as (idx & Hidx & w0 & w0' & Hp).
      apply list_elem_of_lookup_2, list_elem_of_filter in Hidx as [Hlen _].
      destruct (process_single_cluster_success _ _ _ _ _ _ _ Hp Hs)
        as (Hblocks & wa & wb & Hmerge).
      pose proof (Hf _ _ _ _ _ Hmerge) as Hout. rewrite Forall_forall in Hout.
      destruct (Hout b Hb) as (Ht & Hu & Hh). split_and!; [done..|].
      eexists. split; [exact Hu|]. split.
      + apply index_all_Ok, Forall2_length in Hblocks.
        destruct (cr_cluster_blocks r); [simpl in Hblocks; lia | done].
      + intros u' (x & -> & Hx)%list_elem_of_fmap. apply Hmaster.
        by eapply index_all_elem_of.
    - intros b [Hb|Hb]%elem_of_app.
      + destruct (Hmaster b) as [?|(j & b' & Hj & Hid)];
          [by eapply index_all_elem_of | by left |].
        right. exists j, b'. split; [by apply lookup_app_l_Some | done].
      + right. revert Hmwe. case_bool_decide.
        { intros [= <-]. by apply elem_of_nil in Hb. }
        intros Hmwe. destruct (_add_embeddings_to_blocks_ids _ _ _ Hmwe Hb)
          as (b0 & Hb0 & Hid).
        apply list_elem_of_lookup in Hb0 as [k Hk].
        exists (length (all_merged_blocks st) + k), b0. split; [|done].
        rewrite lookup_app_r by lia. rewrite <- Hk. f_equal. lia. }
  destruct (_ && _); [injection H as _ <- _; apply Hinv|].
  apply M_bind_Ok_inv in H as (u' & w8 & _ & H). injection H as _ <- _. apply Hinv.
Qed.

Lemma iteration_loop_inv (f : list Block → Q → M (list Block))
    (active_blocks : list Block) (starting_count : Z) (active_ids : list string)
    (remaining : nat) :
  merge_ok f →
  ∀ (iteration : Z) (st st' : LoopState) (w w' : World),
    loop_inv active_ids st →
    iteration_loop f active_blocks starting_count remaining iteration st w
    = (Ok st', w') →
    loop_inv active_ids st'.
Proof.
  intros Hf. induction remaining as [|remaining IH]; intros iteration st st' w w' Hinv.
  - by intros [= <- _].
  - cbn [iteration_loop]. intros ([go_on st1] & w1 & Hbody & H)%M_bind_Ok_inv.
    pose proof (iteration_body_inv _ _ _ _ _ _ _ _ _ _ Hf Hinv Hbody) as Hinv1.
    destruct go_on; [by eapply IH | by injection H as <- _].
Qed.

Lemma run_dedupe_starting_count (blocks : list Block) (θ : Q) (n : Z)
    (f : list Block → Q → M (list Block)) (w w' : World)
    (final : list Block) (stats0 : Stats) :
  run_dedupe blocks θ n f w = (Ok (final, stats0), w') →
  startingBlockCount stats0
  = Z.of_nat (length (filter (λ b, is_active b = true) blocks)).
Proof.
  unfold run_dedupe. destruct (_ <? 2)%Z; [by intros [= _ <- _]|].
  intros (master & w1 & _ & H)%M_bind_Ok_inv.
  apply M_bind_Ok_inv in H as (st & w2 & _ & H). by injection H as _ <- _.
Qed.

Lemma run_dedupe_spec (blocks : list Block) (θ : Q) (n : Z)
    (f : list Block → Q → M (list Block)) (w w' : World)
    (final : list Block) (stats0 : Stats) :
  merge_ok f →
  run_dedupe blocks θ n f w = (Ok (final, stats0), w') →
  ∃ kept merged, final = kept ++ merged
    ∧ (∀ b, b ∈ kept → b ∈ filter (λ b, is_active b = true) blocks)
    ∧ sources_known
        (blockifyResultUUID <$> filter (λ b, is_active b = true) blocks) merged.
Proof.
  intros Hf. unfold run_dedupe.
  set (active := filter (λ b, is_active b = true) blocks).
  destruct (_ <? 2)%Z.
  { intros [= <- _ _]. exists active, []. rewrite app_nil_r.
    split_and!; [done | done |]. by intros i b ?. }
  intros (master & w1 & [Hmaster ->]%lift_Ok_inv & H)%M_bind_Ok_inv.
  apply M_bind_Ok_inv in H as (st & w2 & Hloop & H). injection H as <- _ _.
  eexists _, _. split; [reflexivity|]. split.
  - by intros b [_ Hb]%list_elem_of_filter.
  - eapply (iteration_loop_inv f active _ _ _ Hf) in Hloop; [apply Hloop|].
    split; simpl; [by intros i b ?|].
    intros b Hb. left.
    destruct (_add_embeddings_to_blocks_ids _ _ _ Hmaster Hb) as (b0 & Hb0 & ->).
    apply list_elem_of_fmap. by exists b0.
Qed.

Lemma process_dedupe_request_inv (request : AutoDistillRequest) (w w' : World)
    (resp : Response) :
  process_dedupe_request request w = (Ok resp, w') →
  ∃ final stats0 w1,
    run_dedupe (results request) (similarity request) (iterations request)
               _merge_cluster_with_llm w = (Ok (final, stats0), w1)
    ∧ resp_results resp
      = (hidden_copy <$> results request)
        ++ (clean_block <$> filter (λ b, type b = "merged"%string) final)
    ∧ stats resp
      = (let starting_count := startingBlockCount stats0 in
         let final_count :=
           Z.of_nat (length (clean_block <$>
                               filter (λ b, type b = "merged"%string) final)) in
         mkStats starting_count final_count starting_count final_count
           (if (0 <? starting_count)%Z
            then py_round2
                   (PyFloat (PrimFloat.mul (float_of_Z 100)
                               (PrimFloat.sub (float_of_Z 1)
                                  (PrimFloat.div (float_of_Z final_count)
                                                 (float_of_Z starting_count)))))
            else PyInt 0)).
Proof.
  unfold process_dedupe_request.
  intros ([final stats0] & w1 & Hrun & H)%M_bind_Ok_inv.
  injection H as <- _. by exists final, stats0, w1.
Qed.

(** [round_half_even] gives the nearest integer, and the even one of the
    two nearest at a tie. *)
Lemma round_half_even_nearest (q : Q) :
  (inject_Z (round_half_even q) - (1 # 2) <= q
   <= inject_Z (round_half_even q) + (1 # 2))%Q
  ∧ ((q == inject_Z (round_half_even q) - (1 # 2)
      ∨ q == inject_Z (round_half_even q) + (1 # 2))%Q →
     Z.even (round_half_even q) = true).
Proof.
  unfold round_half_even. cbv zeta.
  pose proof (Qfloor_le q) as Hlo. pose proof (Qlt_floor q) as Hhi.
  rewrite inject_Z_plus in Hhi. change (inject_Z 1) with 1%Q in Hhi.
  destruct (Qcompare_spec (q - inject_Z (Qfloor q)) (1 # 2)) as [Heq|Hlt|Hgt].
  - destruct (Z.even (Qfloor q)) eqn:Hev.
    + split; [lra | done].
    + rewrite inject_Z_plus. change (inject_Z 1) with 1%Q. split; [lra|].
      intros _. by rewrite Z.even_add, Hev.
  - split; [lra|]. intros [H|H]; lra.
  - rewrite inject_Z_plus. change (inject_Z 1) with 1%Q. split; [lra|].
    intros [H|H]; lra.
Qed.

Lemma float_round2_nearest (x : float) : nearest_hundredth x (float_round2 x).
Proof.
  unfold nearest_hundredth, float_round2.
  destruct (Prim2SF x) as [sg|sg| |sg m e]; [done..|].
  exists (round_half_even (magnitude m e * 100)).
  destruct (round_half_even_nearest (magnitude m e * 100)) as [Hb Hev].
  split; [exact Hb|]. split; [exact Hev | reflexivity].
Qed.


Lemma filter_none {A} (P : A → Prop) `{∀ x, Decision (P x)} (l : list A) :
  (∀ x, x ∈ l → ¬ P x) → filter P l = [].
Proof.
  induction l as [|x l IH]; intros Hl; [done|].
  rewrite filter_cons_False by (apply Hl; by left).
  apply IH. intros y Hy. apply Hl. by right.
Qed.

Lemma filter_type_merged_known (active_ids : list string) (merged : list Block) :
  sources_known active_ids merged →
  filter (λ b, type b = "merged"%string) merged = merged.
Proof.
  intros Hk. induction merged as [|b merged IH] using rev_ind; [done|].
  rewrite filter_app. rewrite IH.
  - f_equal. destruct (Hk (length merged) b) as (Ht & _).
    { by rewrite lookup_app_r, Nat.sub_diag. }
    by rewrite filter_cons_True.
  - intros i b' Hi. destruct (Hk i b' (lookup_app_l_Some _ _ _ _ Hi))
      as (Ht & Hh & srcs & Hs & Hne & Hu).
    split_and!; [done..|]. exists srcs. split_and!; [done..|].
    intros u Hin. destruct (Hu u Hin) as [?|(j & b'' & Hj & Hb'' & Hid)]; [by left|].
    right. exists j, b''. split_and!; [done| |done].
    apply lookup_lt_Some in Hi. by rewrite lookup_app_l in Hb'' by lia.
Qed.

(** C1, amended: after a successful run on a request none of whose active
    blocks has type "merged" already, every block that follows the input
    blocks in the results is a merged block whose [blockifyResultsUsed] is
    non-empty and lists only identifiers of input blocks that were neither
    hidden nor exported, or identifiers of merged blocks that stand before
    it in the results (merged blocks made in an earlier iteration). *)
Theorem sources_active_or_earlier_merged (request : AutoDistillRequest)
    (w w' : World) (resp : Response) :
  (∀ b, b ∈ results request → is_active b = true → type b ≠ "merged"%string) →
  process_dedupe_request request w = (Ok resp, w') →
  let active_ids :=
    blockifyResultUUID <$> filter (λ b, is_active b = true) (results request) in
  let merged := drop (length (results request)) (resp_results resp) in
  ∀ i b, merged !! i = Some b →
    type b = "merged"%string
    ∧ ∃ srcs, blockifyResultsUsed b = Some (Some srcs) ∧ srcs ≠ []
        ∧ ∀ u, u ∈ srcs →
            u ∈ active_ids
            ∨ ∃ j b', j < i ∧ merged !! j = Some b'
                ∧ blockifyResultUUID b' = u.
Proof.
  intros Hfresh H active_ids merged.
  apply process_dedupe_request_inv in H as (fin & stats0 & w1 & Hrun & Hres & _).
  apply run_dedupe_spec in Hrun as (kept & made & -> & Hkept & Hknown);
    [|apply _merge_cluster_with_llm_ok].
  assert (merged = clean_block <$> made) as ->.
  { subst merged. rewrite Hres.
    rewrite drop_app_length' by (by rewrite length_fmap).
    rewrite filter_app, (filter_type_merged_known _ _ Hknown).
    rewrite (filter_none _ kept); [done|].
    intros b Hb. specialize (Hkept b Hb).
    apply list_elem_of_filter in Hkept as [Hact Hin]. by apply Hfresh. }
  intros i b Hi. apply list_lookup_fmap_Some in Hi as (b0 & -> & Hi).
  destruct (Hknown i b0 Hi) as (Ht & Hh & srcs & Hs & Hne & Hu).
  split; [done|]. exists srcs. split_and!; [done..|].
  intros u Hin. destruct (Hu u Hin) as [?|(j & b' & Hj & Hb' & Hid)]; [by left|].
  right. exists j, (clean_block b'). split_and!; [done| |done].
  by rewrite list_lookup_fmap, Hb'.
Qed.

(** *** The LSH index in full *)

Lemma ordered_pairs_complete (l : list nat) (a b : nat) :
  StronglySorted lt l → a ∈ l → b ∈ l → a < b → (a, b) ∈ ordered_pairs l.
Proof.
  induction 1 as [|x l Hl IH Hx]; intros Ha Hb Hab; [by apply elem_of_nil in Ha|].
  simpl. apply elem_of_app.
  apply elem_of_cons in Ha as [->|Ha].
  - left. apply elem_of_cons in Hb as [->|Hb]; [lia|].
    apply list_elem_of_fmap. by exists b.
  - apply elem_of_cons in Hb as [->|Hb].
    + rewrite Forall_forall in Hx. specialize (Hx a Ha). lia.
    + right. by apply IH.
Qed.

Lemma _hash_vector_hyperplanes (l l' : LSHIndex) (v : vec) (t : nat) :
  hyperplanes l = hyperplanes l' → _hash_vector l v t = _hash_vector l' v t.
Proof. unfold _hash_vector. by intros ->. Qed.

Lemma table_holds_add (hash : nat → nat) (indexed : list nat) (idx : nat)
    (t : gmap nat (gset nat)) :
  table_holds hash indexed t →
  table_holds hash (indexed ++ [idx]) (table_add (hash idx) idx t).
Proof.
  intros Ht h x. unfold table_add. rewrite elem_of_app, list_elem_of_singleton.
  destruct (decide (hash idx = h)) as [<-|Hne].
  - rewrite lookup_insert_eq. split.
    + intros (b & [= <-] & [Hx| ->%elem_of_singleton]%elem_of_union); [|by auto].
      destruct (t !! hash idx) as [b0|] eqn:E; simpl in Hx;
        [|by apply elem_of_empty in Hx].
      destruct (proj1 (Ht (hash idx) x)) as [? ?]; [by eauto|]. by auto.
    + intros [[Hx | ->] Hh]; (eexists; split; [done|]); apply elem_of_union.
      * left. destruct (proj2 (Ht (hash idx) x)) as (b0 & -> & ?); by auto.
      * right. by apply elem_of_singleton.
  - rewrite lookup_insert_ne by done. rewrite (Ht h x). split.
    + intros [? ?]. by auto.
    + intros [[?| ->] ?]; [by auto|done].
Qed.

Lemma LSHIndex_index_tables (idx : nat) (V : list vec) (ts : list nat) :
  ∀ lsh : LSHIndex, NoDup ts →
    let lsh' :=
      foldl (λ l' table_idx,
        let hash_value := _hash_vector l' (row V idx) table_idx in
        mkLSH (lsh_dim l') (num_tables l') (num_bits l') (hyperplanes l')
              (alter (table_add hash_value idx) table_idx (tables l')))
        lsh ts in
    hyperplanes lsh' = hyperplanes lsh ∧ num_tables lsh' = num_tables lsh
    ∧ length (tables lsh') = length (tables lsh)
    ∧ ∀ ti, tables lsh' !! ti
        = if decide (ti ∈ ts)
          then table_add (_hash_vector lsh (row V idx) ti) idx <$> tables lsh !! ti
          else tables lsh !! ti.
Proof.
  induction ts as [|t ts IH]; intros lsh Hnd; cbn [foldl].
  { split_and!; [done..|]. intros ti. rewrite decide_False; [done|].
    apply not_elem_of_nil. }
  apply NoDup_cons in Hnd as [Ht Hnd].
  destruct (IH (mkLSH (lsh_dim lsh) (num_tables lsh) (num_bits lsh) (hyperplanes lsh)
                      (alter (table_add (_hash_vector lsh (row V idx) t) idx) t
                             (tables lsh))) Hnd)
    as (Hh & Hn & Hlen & Htab).
  cbn [hyperplanes num_tables tables] in Hh, Hn, Hlen, Htab.
  split_and!; [done | done | |].
  { by rewrite Hlen, length_alter. }
  intros ti. rewrite Htab. destruct (decide (ti = t)) as [->|Hne].
  - rewrite decide_False by done. rewrite decide_True by (by left).
    by rewrite list_lookup_alter_eq.
  - rewrite list_lookup_alter_ne by done.
    destruct (decide (ti ∈ ts)) as [Hin|Hin].
    + by rewrite decide_True by (by right).
    + rewrite decide_False; [done|]. by intros [?|?]%elem_of_cons.
Qed.

Lemma LSHIndex_index_holds (lsh0 : LSHIndex) (V : list vec) (idxs : list nat) :
  ∀ (indexed : list nat) (lsh : LSHIndex),
    lsh_holds lsh0 V indexed lsh →
    lsh_holds lsh0 V (indexed ++ idxs)
      (foldl (λ l idx,
         foldl (λ l' table_idx,
           let hash_value := _hash_vector l' (row V idx) table_idx in
           mkLSH (lsh_dim l') (num_tables l') (num_bits l') (hyperplanes l')
                 (alter (table_add hash_value idx) table_idx (tables l')))
           l (seq 0 (num_tables l)))
         lsh idxs).
Proof.
  induction idxs as [|idx idxs IH]; intros indexed lsh Hl; cbn [foldl].
  { by rewrite app_nil_r. }
  replace (indexed ++ idx :: idxs) with ((indexed ++ [idx]) ++ idxs)
    by (by rewrite <- app_assoc).
  apply IH. clear IH. destruct Hl as (Hh & Hn & Hlen & Htab).
  destruct (LSHIndex_index_tables idx V (seq 0 (num_tables lsh)) lsh (NoDup_seq _ _))
    as (Hh' & Hn' & Hlen' & Htab').
  split_and!; [by etrans | by etrans | by etrans |].
  intros ti t. rewrite Htab'. intros Hti.
  assert (ti < num_tables lsh) as Hlt.
  { destruct (decide (ti ∈ seq 0 (num_tables lsh))) as [Hin|_].
    - apply elem_of_seq in Hin. lia.
    - apply lookup_lt_Some in Hti. lia. }
  rewrite decide_True in Hti by (apply elem_of_seq; lia).
  apply fmap_Some in Hti as (t0 & Ht0 & ->).
  rewrite (_hash_vector_hyperplanes lsh lsh0) by done.
  by apply (table_holds_add (λ x, _hash_vector lsh0 (row V x) ti)), Htab.
Qed.

Lemma LSHIndex_init_holds (dim : nat) (V : list vec) :
  lsh_holds (LSHIndex_init dim) V [] (LSHIndex_init dim).
Proof.
  split_and!; [done | done | by cbn [LSHIndex_init tables]; rewrite length_replicate |].
  cbn [LSHIndex_init tables]. intros ti t [-> _]%lookup_replicate h x. split.
  - intros (b & Hb & _). by rewrite lookup_empty in Hb.
  - intros [Hx _]. by apply elem_of_nil in Hx.
Qed.

Lemma LSHIndex_index_init_holds (dim : nat) (V : list vec) :
  lsh_holds (LSHIndex_init dim) V (seq 0 (length V))
            (LSHIndex_index (LSHIndex_init dim) V).
Proof.
  exact (LSHIndex_index_holds (LSHIndex_init dim) V (seq 0 (length V)) []
           (LSHIndex_init dim) (LSHIndex_init_holds dim V)).
Qed.

(** A pair is a candidate exactly when its two rows fall into the same
    bucket of at least one table. *)
Lemma elem_of_get_candidate_pairs (V : list vec) (dim a b : nat) :
  (a, b) ∈ get_candidate_pairs (LSHIndex_index (LSHIndex_init dim) V)
  ↔ a < b < length V
    ∧ ∃ ti, ti < NUM_HASH_TABLES
        ∧ _hash_vector (LSHIndex_init dim) (row V a) ti
          = _hash_vector (LSHIndex_init dim) (row V b) ti.
Proof.
  destruct (LSHIndex_index_init_holds dim V) as (_ & _ & Hlen & Htab).
  change (num_tables (LSHIndex_init dim)) with NUM_HASH_TABLES in Hlen.
  split.
  - intros Hab. split; [by eapply get_candidate_pairs_ordered|].
    unfold get_candidate_pairs in Hab.
    rewrite elem_of_list_to_set, list_elem_of_bind in Hab.
    destruct Hab as (table & Hab & Htable).
    apply list_elem_of_bind in Hab as (bucket & Hab & Hbucket).
    destruct (Nat.ltb 1 (size bucket)); [|by apply elem_of_nil in Hab].
    apply (elem_of_ordered_pairs lt) in Hab as (_ & Ha & Hb);
      [|apply sorted_elements_lt].
    rewrite py_sorted_Permutation in Ha, Hb.
    apply elem_of_elements in Ha, Hb.
    apply list_elem_of_fmap in Hbucket as ([h bk] & -> & Hbk).
    apply elem_of_map_to_list in Hbk. simpl in Ha, Hb.
    apply list_elem_of_lookup in Htable as (ti & Hti).
    exists ti. split.
    + apply lookup_lt_Some in Hti. by rewrite Hlen in Hti.
    + destruct (proj1 (Htab ti table Hti h a)) as [_ Hha]; [by eauto|].
      destruct (proj1 (Htab ti table Hti h b)) as [_ Hhb]; [by eauto|].
      congruence.
  - intros [[Hab Hb] (ti & Hti & Hhash)].
    destruct (lookup_lt_is_Some_2 (tables (LSHIndex_index (LSHIndex_init dim) V)) ti)
      as [table Htable]; [by rewrite Hlen|].
    set (h := _hash_vector (LSHIndex_init dim) (row V a) ti) in *.
    destruct (proj2 (Htab ti table Htable h a)) as (bucket & Hbucket & Ha).
    { split; [apply elem_of_seq; lia|reflexivity]. }
    destruct (proj2 (Htab ti table Htable h b)) as (bucket' & Hbucket' & Hb').
    { split; [apply elem_of_seq; lia|symmetry; exact Hhash]. }
    assert (bucket' = bucket) as -> by congruence.
    unfold get_candidate_pairs. rewrite elem_of_list_to_set, list_elem_of_bind.
    exists table. split; [|by eapply list_elem_of_lookup_2].
    apply list_elem_of_bind. exists bucket. split.
    + assert (1 < size bucket) as Hsize.
      { assert (({[a]} ∪ {[b]} : gset nat) ⊆ bucket) as Hsub.
        { intros x [->%elem_of_singleton| ->%elem_of_singleton]%elem_of_union; done. }
        apply subseteq_size in Hsub.
        rewrite size_union in Hsub
          by (apply disjoint_singleton_l, not_elem_of_singleton; lia).
        rewrite !size_singleton in Hsub. lia. }
      apply Nat.ltb_lt in Hsize. rewrite Hsize.
      apply ordered_pairs_complete; [apply sorted_elements_lt| | |done];
        rewrite py_sorted_Permutation; by apply elem_of_elements.
    + apply list_elem_of_fmap. exists (h, bucket).
      split; [done|]. by apply elem_of_map_to_list.
Qed.

Lemma elem_of_verified_candidates_2 (V : list vec) (θ : Q) (cl : list (nat * nat))
    (i j : nat) :
  (i, j) ∈ cl → (θ <= cosine (row V i) (row V j))%Q →
  (i, j, cosine (row V i) (row V j)) ∈ compute_chunk_similarities V θ cl.
Proof.
  intros Hin Hθ. unfold compute_chunk_similarities. apply list_elem_of_bind.
  exists (i, j). split; [|done]. simpl.
  apply Qle_bool_iff in Hθ. rewrite Hθ. by apply list_elem_of_singleton.
Qed.

Lemma lsh_pairs_characterised (V : list vec) (θ : Q) :
  (0 < similarity_parallel_threads settings)%Z →
  MIN_ITEMS_TO_ENABLE_LSH ≤ length V →
  ∃ out, find_similar_pairs_with_lsh V θ = Ok out
    ∧ ∀ i j s, (i, j, s) ∈ out ↔
        i < j < length V
        ∧ s = cosine (row V i) (row V j) ∧ (θ <= s)%Q
        ∧ ∃ ti, ti < NUM_HASH_TABLES
            ∧ _hash_vector (LSHIndex_init (length (default [] (head V)))) (row V i) ti
              = _hash_vector (LSHIndex_init (length (default [] (head V)))) (row V j) ti.
Proof.
  intros HT Hn. unfold find_similar_pairs_with_lsh.
  apply Nat.ltb_ge in Hn. rewrite Hn.
  set (dim := length (default [] (head V))).
  set (cands := get_candidate_pairs _).
  set (cl := set_order (elements cands)).
  assert (∀ i j, (i, j) ∈ cl ↔
            i < j < length V
            ∧ ∃ ti, ti < NUM_HASH_TABLES
                ∧ _hash_vector (LSHIndex_init dim) (row V i) ti
                  = _hash_vector (LSHIndex_init dim) (row V j) ti) as Hcl.
  { intros i j. unfold cl. rewrite set_order_perm, elem_of_elements.
    apply elem_of_get_candidate_pairs. }
  destruct (Nat.eqb (length cl) 0) eqn:E.
  { exists []. split; [done|]. intros i j s. split; [by intros ?%elem_of_nil|].
    intros (Hij & _ & _ & Hti). apply Nat.eqb_eq, nil_length_inv in E.
    assert ((i, j) ∈ cl) as Hin by (apply Hcl; by split).
    rewrite E in Hin. by apply elem_of_nil in Hin. }
  unfold check_threads.
  destruct (Z.eqb_spec (similarity_parallel_threads settings) 0); [lia|].
  destruct (Z.ltb_spec (similarity_parallel_threads settings) 0); [lia|].
  simpl. eexists. split; [reflexivity|].
  assert (concat (as_completed _
            (compute_chunk_similarities V θ <$>
               py_chunks (chunk_size_for (length cl) (similarity_parallel_threads settings)) cl))
          ≡ₚ compute_chunk_similarities V θ cl) as Hperm.
  { apply (pool_results_Permutation _ _ cl), chunk_size_for_pos. }
  intros i j s. rewrite Hperm. split.
  - intros Hin. apply elem_of_verified_candidates in Hin as (Hkey & Hθ & Hs).
    unfold pair_key in Hkey. simpl in Hkey, Hθ, Hs.
    apply Hcl in Hkey as [Hij Hti]. done.
  - intros (Hij & -> & Hθ & Hti). apply elem_of_verified_candidates_2; [|done].
    apply Hcl. by split.
Qed.


(** *** Connected components *)

Lemma elem_of_table_add (h idx x y : nat) (t : gmap nat (gset nat)) :
  y ∈ default ∅ (table_add h idx t !! x)
  ↔ y ∈ default ∅ (t !! x) ∨ (x = h ∧ y = idx).
Proof.
  unfold table_add. destruct (decide (h = x)) as [->|Hne].
  - rewrite lookup_insert_eq. simpl. rewrite elem_of_union, elem_of_singleton.
    split; [intros [?| ->]|intros [?|[_ ->]]]; by auto.
  - rewrite lookup_insert_ne by done. split; [by left|].
    intros [?|[-> _]]; done.
Qed.

Lemma build_adjacency_linked (similar_pairs : list Pair) (x y : nat) :
  y ∈ default ∅ (build_adjacency similar_pairs !! x) ↔ linked similar_pairs x y.
Proof.
  unfold build_adjacency, linked.
  assert (∀ acc : gmap nat (gset nat),
            y ∈ default ∅ (foldl (λ adjacency p,
                   table_add p.1.2 p.1.1 (table_add p.1.1 p.1.2 adjacency))
                 acc similar_pairs !! x)
            ↔ y ∈ default ∅ (acc !! x)
              ∨ ∃ s, (x, y, s) ∈ similar_pairs ∨ (y, x, s) ∈ similar_pairs) as H.
  { induction similar_pairs as [|[[i j] s] ps IH]; intros acc; cbn [foldl].
    - split; [by left|]. intros [?|(s & [?%elem_of_nil|?%elem_of_nil])]; done.
    - rewrite IH, !elem_of_table_add. simpl. split.
      + intros [[[?|[-> ->]]|[-> ->]]|(s' & [?|?])]; [by left|right..].
        * exists s. left. by left.
        * exists s. right. by left.
        * exists s'. left. by right.
        * exists s'. right. by right.
      + intros [?|(s' & [[[= -> -> ->]|?]%elem_of_cons|[[= -> -> ->]|?]%elem_of_cons])].
        * by left; left; left.
        * by left; left; right.
        * right. exists s'. by left.
        * by left; right.
        * right. exists s'. by right. }
  rewrite H, lookup_empty. simpl. split; [|by right].
  intros [?%elem_of_empty|?]; done.
Qed.

Lemma component_unfold (budget : nat) (adjacency : gmap nat (gset nat))
    (stack : list nat) (visited : gset nat) (cluster : list nat) :
  component budget adjacency stack visited cluster
  = match stack with
    | [] => Some (visited, cluster)
    | node :: rest =>
        if bool_decide (node ∈ visited)
        then component budget adjacency rest visited cluster
        else
          match budget with
          | 0 => None
          | S b =>
              component b adjacency
                (rev (filter (λ neighbor, neighbor ∉ visited ∪ {[node]})
                             (elements (default ∅ (adjacency !! node)))) ++ rest)
                (visited ∪ {[node]}) (cluster ++ [node])
          end
    end.
Proof. by destruct budget, stack. Qed.

Lemma elem_of_rev {A} (x : A) (l : list A) : x ∈ rev l ↔ x ∈ l.
Proof.
  induction l as [|y l IH]; [done|]. simpl.
  rewrite elem_of_app, IH, list_elem_of_singleton, elem_of_cons. tauto.
Qed.

Ltac in_nil :=
  match goal with H : _ ∈ [] |- _ => by apply elem_of_nil in H end.

Lemma component_spec (adjacency : gmap nat (gset nat)) (U : gset nat) :
  (∀ x y, x ∈ U → y ∈ default ∅ (adjacency !! x) → y ∈ U) →
  ∀ (budget : nat) (stack : list nat) (visited : gset nat) (cluster : list nat),
    (∀ x, x ∈ stack → x ∈ U) →
    (size (U ∖ visited) ≤ budget) →
    ∃ new,
      component budget adjacency stack visited cluster
      = Some (visited ∪ list_to_set new, cluster ++ new)
      ∧ NoDup new
      ∧ (∀ x, x ∈ new → (x ∉ visited) ∧ x ∈ U)
      ∧ (∀ x, x ∈ stack → x ∈ visited ∨ x ∈ new)
      ∧ (∀ x y, x ∈ new → y ∈ default ∅ (adjacency !! x) → y ∈ visited ∨ y ∈ new)
      ∧ (∀ x, x ∈ new →
           ∃ s, s ∈ stack ∧ rtc (λ a b, b ∈ default ∅ (adjacency !! a)) s x).
Proof.
  intros Hclosed budget.
  induction budget as [|b IHb]; intros stack;
    induction stack as [|node rest IHs]; intros visited cluster Hstack Hsize.
  - exists []. rewrite component_unfold, app_nil_r.
    change (list_to_set []) with (∅ : gset nat). rewrite (right_id_L ∅ (∪) visited).
    split_and!; [done | constructor | intros; in_nil..].
  - rewrite component_unfold. case_bool_decide as Hv.
    + destruct (IHs visited cluster) as (new & Hc & Hnd & Hnew & Hst & Hcl & Hre);
        [by intros x ?; apply Hstack; right | done |].
      exists new. split_and!; [done | done | done | | done |].
      * intros x [->|?]%elem_of_cons; [by left|by apply Hst].
      * intros x Hx. destruct (Hre x Hx) as (s & ? & ?). exists s. split; [by right|done].
    + exfalso. assert (node ∈ U ∖ visited) as Hin.
      { apply elem_of_difference. split; [apply Hstack; by left|done]. }
      assert (size (U ∖ visited) = 0) as H0 by lia.
      apply size_empty_inv in H0. rewrite H0 in Hin. by apply elem_of_empty in Hin.
  - exists []. rewrite component_unfold, app_nil_r.
    change (list_to_set []) with (∅ : gset nat). rewrite (right_id_L ∅ (∪) visited).
    split_and!; [done | constructor | intros; in_nil..].
  - rewrite component_unfold. case_bool_decide as Hv.
    + destruct (IHs visited cluster) as (new & Hc & Hnd & Hnew & Hst & Hcl & Hre);
        [by intros x ?; apply Hstack; right | done |].
      exists new. split_and!; [done | done | done | | done |].
      * intros x [->|?]%elem_of_cons; [by left|by apply Hst].
      * intros x Hx. destruct (Hre x Hx) as (s & ? & ?). exists s. split; [by right|done].
    + assert (node ∈ U) as HnodeU by (apply Hstack; by left).
      set (visited' := visited ∪ {[node]}).
      set (pushed := filter (λ neighbor, neighbor ∉ visited')
                            (elements (default ∅ (adjacency !! node)))).
      destruct (IHb (rev pushed ++ rest) visited' (cluster ++ [node]))
        as (new & Hc & Hnd & Hnew & Hst & Hcl & Hre).
      { intros x [Hx|Hx]%elem_of_app; [|apply Hstack; by right].
        rewrite elem_of_rev in Hx. apply list_elem_of_filter in Hx as [_ Hx].
        apply elem_of_elements in Hx. by apply (Hclosed node). }
      { assert (U ∖ visited' ⊂ U ∖ visited) as Hsub.
        { split.
          - intros x [? Hx]%elem_of_difference. apply elem_of_difference.
            split; [done|]. intros ?. apply Hx, elem_of_union. by left.
          - intros Hsub. specialize (Hsub node).
            rewrite !elem_of_difference in Hsub.
            destruct Hsub as [_ Hsub]; [done|]. apply Hsub, elem_of_union.
            right. by apply elem_of_singleton. }
        apply subset_size in Hsub. lia. }
      exists (node :: new). split_and!.
      * rewrite Hc. f_equal. f_equal.
        -- unfold visited'. by rewrite list_to_set_cons, (assoc_L (∪)).
        -- by rewrite <- app_assoc.
      * constructor; [|done]. intros Hin. apply Hnew in Hin as [Hin _].
        apply Hin, elem_of_union. right. by apply elem_of_singleton.
      * intros x [->|Hx]%elem_of_cons; [done|].
        apply Hnew in Hx as [Hx ?]. split; [|done].
        intros ?. apply Hx, elem_of_union. by left.
      * intros x [->|Hx]%elem_of_cons; [right; by left|].
        destruct (Hst x) as [[?| ->%elem_of_singleton]%elem_of_union|?];
          [apply elem_of_app; by right | by left | right; by left | right; by right].
      * assert (∀ x, x ∈ visited' ∨ x ∈ new → x ∈ visited ∨ x ∈ node :: new) as Hmono.
        { intros x [[?| ->%elem_of_singleton]%elem_of_union|?];
            [by left | right; by left | right; by right]. }
        intros x y [->|Hx]%elem_of_cons Hy; apply Hmono; [|by eapply Hcl].
        destruct (decide (y ∈ visited')) as [?|Hny]; [by left|].
        apply Hst, elem_of_app. left. rewrite elem_of_rev.
        apply list_elem_of_filter. split; [done|]. by apply elem_of_elements.
      * intros x [->|Hx]%elem_of_cons.
        { exists node. split; [by left|done]. }
        destruct (Hre x Hx) as (s & [Hs|Hs]%elem_of_app & Hrtc).
        -- exists node. split; [by left|].
           rewrite elem_of_rev in Hs. apply list_elem_of_filter in Hs as [_ Hs].
           apply elem_of_elements in Hs. by eapply rtc_l.
        -- exists s. split; [by right|done].
Qed.

Lemma elem_of_concat {A} (x : A) (ls : list (list A)) :
  x ∈ concat ls ↔ ∃ l, x ∈ l ∧ l ∈ ls.
Proof.
  induction ls as [|l ls IH]; simpl.
  - split; [by intros ?%elem_of_nil|]. by intros (l & _ & ?%elem_of_nil).
  - rewrite elem_of_app, IH. split.
    + intros [?|(l' & ? & ?)]; [exists l; split; [done|by left]|].
      exists l'. split; [done|by right].
    + intros (l' & ? & [->|?]%elem_of_cons); [by left|]. right. by exists l'.
Qed.

Lemma linked_sym (similar_pairs : list Pair) (a b : nat) :
  linked similar_pairs a b → linked similar_pairs b a.
Proof. intros (s & [?|?]); exists s; by auto. Qed.

Lemma rtc_neighbours_linked (similar_pairs : list Pair) (a b : nat) :
  rtc (λ x y, y ∈ default ∅ (build_adjacency similar_pairs !! x)) a b →
  rtc (linked similar_pairs) a b.
Proof.
  induction 1 as [|x y z Hxy _ IH]; [done|].
  eapply rtc_l; [|done]. by apply build_adjacency_linked.
Qed.

Lemma connected_components_loop (similar_pairs : list Pair) (n_items : nat) :
  (∀ i j s, (i, j, s) ∈ similar_pairs → i < n_items ∧ j < n_items) →
  ∀ (m k : nat) (visited : gset nat) (clusters : list (list nat)),
    k + m = n_items →
    components_inv similar_pairs n_items k visited clusters →
    ∃ visited' clusters',
      foldl (λ acc i,
        '(visited, clusters) ← acc;
        if bool_decide (i ∈ visited) then Ok (visited, clusters)
        else
          match component (n_items + 2 * length similar_pairs)
                          (build_adjacency similar_pairs) [i] visited [] with
          | Some (visited', cluster) => Ok (visited', clusters ++ [cluster])
          | None => Raise "visit budget exhausted"%string
          end)
        (Ok (visited, clusters)) (seq k m)
      = Ok (visited', clusters')
      ∧ components_inv similar_pairs n_items n_items visited' clusters'.
Proof.
  intros Hbound. set (U := list_to_set (seq 0 n_items) : gset nat).
  assert (∀ x, x ∈ U ↔ x < n_items) as HU.
  { intros x. unfold U. rewrite elem_of_list_to_set, elem_of_seq. lia. }
  assert (∀ x y, x ∈ U → y ∈ default ∅ (build_adjacency similar_pairs !! x) → y ∈ U)
    as Hclosed.
  { intros x y _ (s & [Hp|Hp])%build_adjacency_linked; apply HU;
      by destruct (Hbound _ _ _ Hp). }
  assert (size U = n_items) as HsizeU.
  { unfold U. rewrite size_list_to_set by apply NoDup_seq. apply length_seq. }
  match goal with |- context [foldl ?f _ _] => set (body := f) end.
  induction m as [|m IH]; intros k visited clusters Hk Hinv.
  { exists visited, clusters. split; [done|].
    replace k with n_items in Hinv by lia. exact Hinv. }
  cbn [seq foldl].
  assert (body (Ok (visited, clusters)) k
          = if bool_decide (k ∈ visited) then Ok (visited, clusters)
            else
              match component (n_items + 2 * length similar_pairs)
                              (build_adjacency similar_pairs) [k] visited [] with
              | Some (visited', cluster) => Ok (visited', clusters ++ [cluster])
              | None => Raise "visit budget exhausted"%string
              end) as -> by reflexivity.
  destruct Hinv as (Hvis & Hnd & Hlt & Hdone & Hcl & Hroot).
  case_bool_decide as Hv.
  { apply IH; [lia|]. split_and!; [done..| |done|done].
    intros i Hi. destruct (decide (i = k)) as [->|?]; [done|]. apply Hdone. lia. }
  destruct (component_spec _ U Hclosed (n_items + 2 * length similar_pairs)
              [k] visited [])
    as (new & -> & Hndn & Hnew & Hst & Hcln & Hre).
  { intros x ->%list_elem_of_singleton. apply HU. lia. }
  { etrans; [apply subseteq_size|]; [|rewrite HsizeU; lia].
    intros x [? _]%elem_of_difference. done. }
  rewrite app_nil_l. apply IH; [lia|].
  assert (k ∈ new) as Hk_new.
  { destruct (Hst k) as [?|?]; [by left|done|done]. }
  split_and!.
  - by rewrite concat_app, list_to_set_app_L, Hvis, concat_cons, concat_nil, app_nil_r.
  - rewrite concat_app, concat_cons, concat_nil, app_nil_r. apply NoDup_app.
    split_and!; [done| |done].
    intros x Hx Hx'. apply Hnew in Hx' as [Hx' _]. apply Hx'.
    rewrite Hvis. by apply elem_of_list_to_set.
  - intros x [?|Hx%elem_of_list_to_set]%elem_of_union; [by apply Hlt|].
    apply HU. by apply Hnew.
  - intros i Hi. apply elem_of_union. destruct (decide (i = k)) as [->|?].
    + right. by apply elem_of_list_to_set.
    + left. apply Hdone. lia.
  - intros c x y [Hc| ->%list_elem_of_singleton]%elem_of_app Hx Hxy;
      [by eapply Hcl|].
    destruct (Hcln x y Hx) as [Hy|Hy]; [by apply build_adjacency_linked| |done].
    exfalso. rewrite Hvis in Hy. apply elem_of_list_to_set in Hy.
    apply elem_of_concat in Hy as (c & Hyc & Hc).
    assert (x ∈ c) as Hxc by (eapply Hcl; [done|done|by apply linked_sym]).
    apply Hnew in Hx as [Hx _]. apply Hx. rewrite Hvis.
    apply elem_of_list_to_set, elem_of_concat. by exists c.
  - intros c [Hc| ->%list_elem_of_singleton]%elem_of_app; [by apply Hroot|].
    exists k. split; [done|]. intros x Hx.
    destruct (Hre x Hx) as (s & ->%list_elem_of_singleton & Hrtc).
    by apply rtc_neighbours_linked.
Qed.

Lemma connected_components_spec (similar_pairs : list Pair) (n_items : nat) :
  (∀ i j s, (i, j, s) ∈ similar_pairs → i < n_items ∧ j < n_items) →
  ∃ clusters, connected_components similar_pairs n_items = Ok clusters
    ∧ concat clusters ≡ₚ seq 0 n_items
    ∧ (∀ c x y, c ∈ clusters → x ∈ c → linked similar_pairs x y → y ∈ c)
    ∧ (∀ c, c ∈ clusters →
         ∃ root, root ∈ c ∧ ∀ x, x ∈ c → rtc (linked similar_pairs) root x).
Proof.
  intros Hbound. unfold connected_components.
  destruct (connected_components_loop similar_pairs n_items Hbound n_items 0 ∅ [])
    as (visited & clusters & -> & Hvis & Hnd & Hlt & Hdone & Hcl & Hroot).
  { done. }
  { split_and!; [done | constructor | by intros x ?%elem_of_empty | lia
                 | by intros c x y ?%elem_of_nil | by intros c ?%elem_of_nil]. }
  simpl. exists clusters. split_and!; [done| |done|done].
  apply NoDup_Permutation; [done|apply NoDup_seq|].
  intros x. rewrite elem_of_seq. split.
  - intros Hx. assert (x ∈ visited) as Hx'.
    { rewrite Hvis. by apply elem_of_list_to_set. }
    apply Hlt in Hx'. lia.
  - intros [_ Hx]. apply Hdone in Hx. rewrite Hvis in Hx.
    by apply elem_of_list_to_set in Hx.
Qed.

(** When the similar pairs join indices below [n_items], BFS clustering returns
    the connected components of the graph of the similar pairs: every index
    below [n_items] lies in exactly one cluster, the two indices of a
    similar pair are never put into different clusters, and the members of a
    cluster are all reachable from one of them along similar pairs. *)
Theorem _bfs_clustering_gives_the_connected_components
    (similar_pairs : list Pair) (n_items : nat) :
  (∀ i j s, (i, j, s) ∈ similar_pairs → i < n_items ∧ j < n_items) →
  ∃ clusters, _bfs_clustering similar_pairs n_items = Ok clusters
    ∧ concat clusters ≡ₚ seq 0 n_items
    ∧ (∀ c i j s, c ∈ clusters → (i, j, s) ∈ similar_pairs → i ∈ c ↔ j ∈ c)
    ∧ (∀ c, c ∈ clusters →
         ∃ root, root ∈ c ∧ ∀ x, x ∈ c → rtc (linked similar_pairs) root x).
Proof.
  intros Hbound.
  destruct (connected_components_spec similar_pairs n_items Hbound)
    as (clusters & Hc & Hperm & Hcl & Hroot).
  exists clusters. split_and!; [done | done | | done].
  intros c i j s Hin Hp. split; intros H.
  - apply (Hcl c i j Hin H). exists s. by left.
  - apply (Hcl c j i Hin H). exists s. by right.
Qed.

Lemma _bfs_clustering_components (similar_pairs : list Pair) (n_items : nat) :
  (∀ i j s, (i, j, s) ∈ similar_pairs → i < n_items ∧ j < n_items) →
  ∃ clusters, _bfs_clustering similar_pairs n_items = Ok clusters
    ∧ concat clusters ≡ₚ seq 0 n_items
    ∧ (∀ c i j s, c ∈ clusters → (i, j, s) ∈ similar_pairs → i ∈ c ↔ j ∈ c).
Proof.
  intros Hbound.
  destruct (connected_components_spec similar_pairs n_items Hbound)
    as (clusters & Hc & Hperm & Hcl & _).
  exists clusters. split_and!; [done | done |].
  intros c i j s Hin Hp. split; intros H.
  - apply (Hcl c i j Hin H). exists s. by left.
  - apply (Hcl c j i Hin H). exists s. by right.
Qed.

Lemma concat_singletons {A} (l : list A) : concat ((λ x, [x]) <$> l) = l.
Proof.
  induction l as [|x l IH]; [done|].
  rewrite fmap_cons. cbn [concat app]. by rewrite IH.
Qed.

(** [_create_clusters] gives a partition of the indices below [n_items]
    that never separates a similar pair whenever Louvain is not used or
    fails: one singleton per index when there is no similar pair, and the
    connected components when the graph has fewer nodes than
    [LOUVAIN_NODE_THRESHOLD] or [louvain_communities] raises. *)
Theorem _create_clusters_without_louvain (similar_pairs : list Pair) (n_items : nat) :
  (∀ i j s, (i, j, s) ∈ similar_pairs → i < n_items ∧ j < n_items) →
  (Z.of_nat (size (build_adjacency similar_pairs)) < louvain_node_threshold settings)%Z
  ∨ (∃ e, louvain_communities similar_pairs n_items = Raise e) →
  ∃ clusters, _create_clusters similar_pairs n_items = Ok clusters
    ∧ concat clusters ≡ₚ seq 0 n_items
    ∧ (similar_pairs = [] → clusters = (λ i, [i]) <$> seq 0 n_items)
    ∧ (∀ c i j s, c ∈ clusters → (i, j, s) ∈ similar_pairs → i ∈ c ↔ j ∈ c).
Proof.
  intros Hbound Hlouvain. unfold _create_clusters. case_bool_decide as Hnil.
  { eexists. split_and!; [done | by rewrite concat_singletons | done |].
    intros c i j s _ Hp. rewrite Hnil in Hp. by apply elem_of_nil in Hp. }
  destruct (_bfs_clustering_components similar_pairs n_items Hbound)
    as (clusters & Hc & Hperm & Hcl).
  exists clusters.
  assert (_louvain_clustering similar_pairs n_items = Ok clusters
          ∨ (louvain_node_threshold settings
               <=? Z.of_nat (size (build_adjacency similar_pairs)))%Z = false) as Hcase.
  { destruct Hlouvain as [Hlt|[e He]].
    - right. apply Z.leb_gt. done.
    - left. unfold _louvain_clustering. by rewrite He. }
  split_and!; [|done|done|done].
  destruct (louvain_node_threshold settings
              <=? Z.of_nat (size (build_adjacency similar_pairs)))%Z eqn:E.
  - destruct Hcase as [?|?]; [done|discriminate].
  - done.
Qed.

(** *** Dense similarity, embeddings and the merge client *)

(** The dense strategy returns its pairs in descending order of similarity;
    it returns no pair for fewer than two rows, without looking at the
    thread count; and with two rows or more of positive dimension a thread
    count of zero makes it raise on the chunk size. *)
Theorem dense_pairs_sorted_and_edge_cases (V : list vec) (θ : Q) :
  (∀ out, find_similar_pairs_dense V θ = Ok out →
     Sorted (λ a b, (pair_sim b <= pair_sim a)%Q) out)
  ∧ (length V < 2 → find_similar_pairs_dense V θ = Ok [])
  ∧ (2 ≤ length V → (∀ v, v ∈ V → v ≠ []) →
     similarity_parallel_threads settings = 0%Z →
     find_similar_pairs_dense V θ = Raise "integer division or modulo by zero"%string).
Proof.
  split_and!.
  - intros out. apply find_similar_pairs_dense_sorted.
  - intros Hn. unfold find_similar_pairs_dense.
    apply Nat.ltb_lt in Hn. rewrite Hn. by rewrite orb_true_r.
  - intros Hn Hdim HT. unfold find_similar_pairs_dense.
    rewrite positive_dimension_size by done.
    unfold check_threads. by rewrite HT.
Qed.

Lemma mapM_Result_total {A B} (f : A → Result B) (g : A → B) (l : list A) :
  (∀ x, f x = Ok (g x)) → mapM f l = Ok (g <$> l).
Proof.
  intros Hf. induction l as [|x l IH]; [done|].
  cbn [mapM]. rewrite Hf, IH. done.
Qed.

Lemma concat_fmap_fmap {A B} (g : A → B) (ls : list (list A)) :
  concat (fmap (M := list) g <$> ls) = g <$> concat ls.
Proof.
  induction ls as [|l ls IH]; [done|].
  rewrite !fmap_cons. cbn [concat]. by rewrite fmap_app, IH.
Qed.

Lemma generate_embeddings_Ok (embed : string → vec) (texts : list string) :
  (∀ batch, openai_embeddings batch = Ok (embed <$> batch)) →
  (0 < openai_embedding_batch_size settings)%Z →
  (0 < embedding_parallel_threads settings)%Z →
  generate_embeddings texts = Ok (embed <$> texts).
Proof.
  intros Hembed HB HT. unfold generate_embeddings.
  case_bool_decide as Hnil; [by rewrite Hnil|].
  destruct (Z.eqb_spec (openai_embedding_batch_size settings) 0); [lia|].
  destruct (Z.ltb_spec (openai_embedding_batch_size settings) 0); [lia|].
  unfold check_threads.
  destruct (Z.eqb_spec (embedding_parallel_threads settings) 0); [lia|].
  destruct (Z.ltb_spec (embedding_parallel_threads settings) 0); [lia|].
  simpl. rewrite (mapM_Result_total _ (fmap (M := list) embed)) by done. simpl.
  rewrite concat_fmap_fmap, concat_py_chunks by lia. done.
Qed.

(** Batching is invisible: when the embedding endpoint answers every batch
    with one vector per text, and the batch size and the thread count are
    positive, [generate_embeddings] returns the vectors of all the texts in
    the order of the texts, whatever the batch size; and
    [_add_embeddings_to_blocks] then returns every block, in order, with its
    vector under [_embedding] and nothing else changed. *)
Theorem generate_embeddings_batching_is_transparent (embed : string → vec) :
  (∀ batch, openai_embeddings batch = Ok (embed <$> batch)) →
  (0 < openai_embedding_batch_size settings)%Z →
  (0 < embedding_parallel_threads settings)%Z →
  (∀ texts, generate_embeddings texts = Ok (embed <$> texts))
  ∧ (∀ blocks,
       _add_embeddings_to_blocks blocks
       = Ok ((λ b, set_embedding (Some (embed (create_text_blob b))) b) <$> blocks)).
Proof.
  intros Hembed HB HT. split.
  - intros texts. by apply generate_embeddings_Ok.
  - intros blocks. unfold _add_embeddings_to_blocks.
    case_bool_decide as Hnil; [by rewrite Hnil|].
    rewrite (generate_embeddings_Ok embed) by done. simpl. f_equal.
    clear Hnil. induction blocks as [|b blocks IH]; [done|].
    rewrite !fmap_cons. cbn [zip_with]. by rewrite IH.
Qed.

(** The text sent to the embedding endpoint for a block is never empty:
    when the three content fields are blank it is ["block-"] followed by the
    block identifier. *)
Theorem create_text_blob_never_empty (block : Block) :
  create_text_blob block ≠ ""%string
  ∧ (strip (name (blockifiedTextResult block)) = ""%string →
     strip (criticalQuestion (blockifiedTextResult block)) = ""%string →
     strip (trustedAnswer (blockifiedTextResult block)) = ""%string →
     create_text_blob block = ("block-" +:+ blockifyResultUUID block)%string).
Proof.
  unfold create_text_blob. split.
  - case_bool_decide; [|done]. discriminate.
  - intros H1 H2 H3. cbn [filter list_filter].
    rewrite !decide_False by (intros ?; done). done.
Qed.

(** [merge_cluster] never raises: whatever the endpoint does, it returns a
    response, after one to three requests and without drawing an
    identifier.  A successful response carries a non-empty list of contents
    whose first element is [merged_content], and no error; an unsuccessful
    one carries an error text and no content. *)
Theorem merge_cluster_never_raises (cluster_blocks : list Block) (w : World) :
  ∃ resp w', merge_cluster cluster_blocks w = (Ok resp, w')
    ∧ http_calls w < http_calls w' ≤ http_calls w + 3
    ∧ uuid_draws w' = uuid_draws w
    ∧ (if success resp
       then ∃ c cs, merged_content resp = Some c
                    ∧ merged_contents resp = Some (c :: cs)
                    ∧ mr_error resp = None
       else merged_content resp = None ∧ merged_contents resp = None
            ∧ is_Some (mr_error resp)).
Proof.
  destruct (_call_blockify_api_effect (_create_merge_prompt cluster_blocks) w)
    as (c & Hc & Hw).
  unfold merge_cluster, try_except, mbind, M_bind, mret, M_ret.
  destruct (_call_blockify_api _ w) as [[raw|e] w1]; simpl in Hw; subst w1;
    [destruct raw as [raw|];
     [case_bool_decide;
      [|destruct (_parse_all_xml_ideablocks raw) as [|first rest];
        [destruct (_parse_llm_response raw) as [single|]|]]|]|];
    (eexists _, _; split; [done|]; simpl;
     split; [lia|]; split; [done|]; repeat split; by eauto).
Qed.

(** The synthetic blocks built from merged contents carry exactly these
    contents, in order, under one new identifier each; they have type
    ["synthetic"] and none of the other keys, and no request is made. *)
Theorem _results_to_blocks_keeps_contents (rs : list Content) (w : World) :
  ∃ blocks,
    _results_to_blocks rs w
    = (Ok blocks,
       mkWorld (http_calls w) (uuid_draws w + length rs) (slept w)
               (saved_intermediate w))
    ∧ content_of_block <$> blocks = rs
    ∧ blockifyResultUUID <$> blocks = uuid4 <$> seq (uuid_draws w) (length rs)
    ∧ Forall (λ b, type b = "synthetic"%string ∧ hidden b = None
                   ∧ exported b = None ∧ blockifyResultsUsed b = None
                   ∧ _embedding b = None) blocks.
Proof.
  unfold _results_to_blocks. revert w.
  induction rs as [|r rs IH]; intros w.
  - exists []. split_and!; [|done..|constructor].
    cbn [mapM]. unfold mret, M_ret. destruct w. simpl. do 2 f_equal. lia.
  - destruct (IH (mkWorld (http_calls w) (S (uuid_draws w)) (slept w)
                          (saved_intermediate w)))
      as (blocks & Hrun & Hc & Hid & Hfa).
    exists (synthetic_block r (uuid4 (uuid_draws w)) :: blocks). split_and!.
    + cbn [mapM]. unfold mbind, M_bind, draw_uuid at 1, mret, M_ret.
      unfold mbind, M_bind, mret, M_ret in Hrun. rewrite Hrun. simpl.
      do 2 f_equal. lia.
    + rewrite fmap_cons, Hc. by destruct r.
    + rewrite fmap_cons, Hid. simpl. done.
    + constructor; [done|]. done.
Qed.

(** *** The iteration driver and the response *)

Lemma iteration_body_threshold (f : list Block → Q → M (list Block))
    (active_blocks : list Block) (starting_count iteration : Z)
    (st st' : LoopState) (go_on : bool) (w w' : World) :
  iteration_body f active_blocks starting_count iteration st w
  = (Ok (go_on, st'), w') →
  current_threshold st'
  = if go_on && (similarity_increase_iteration_start settings <=? iteration)%Z
    then Qmin (current_threshold st + similarity_increase_per_iteration settings)
              (max_similarity_threshold settings)
    else current_threshold st.
Proof.
  unfold iteration_body.
  destruct (Nat.ltb _ 2); [by intros [= <- <- _]|].
  intros (embeddings & w1 & _ & H)%M_bind_Ok_inv.
  apply M_bind_Ok_inv in H as (pairs & w2 & _ & H).
  case_bool_decide; [by injection H as <- <- _|].
  apply M_bind_Ok_inv in H as (clusters & w3 & _ & H).
  case_bool_decide; [by injection H as <- <- _|].
  apply M_bind_Ok_inv in H as (u & w4 & _ & H).
  apply M_bind_Ok_inv in H as (done_ & w5 & Hdone & H).
  set (acc := foldl collect _ _) in H.
  apply M_bind_Ok_inv in H as (mwe & w6 & _ & H).
  apply M_bind_Ok_inv in H as (keep & w7 & _ & H).
  destruct (_ && _); [by injection H as <- <- _|].
  apply M_bind_Ok_inv in H as (u' & w8 & _ & H). injection H as <- <- _.
  simpl. by destruct (_ <=? _)%Z.
Qed.

(** The similarity threshold of the iteration loop: a round that goes on
    to the next one raises it by [SIMILARITY_INCREASE_PER_ITERATION], capped
    at [MAX_SIMILARITY_THRESHOLD], from iteration
    [SIMILARITY_INCREASE_ITERATION_START] on, and leaves it as it is before;
    so with a non-negative increase a threshold that starts at or below the
    cap never falls and never passes the cap. *)
Theorem threshold_rises_up_to_the_cap (f : list Block → Q → M (list Block))
    (active_blocks : list Block) (starting_count : Z) (remaining : nat) :
  (0 <= similarity_increase_per_iteration settings)%Q →
  ∀ (iteration : Z) (st st' : LoopState) (w w' : World),
    (current_threshold st <= max_similarity_threshold settings)%Q →
    iteration_loop f active_blocks starting_count remaining iteration st w
    = (Ok st', w') →
    (current_threshold st <= current_threshold st')%Q
    ∧ (current_threshold st' <= max_similarity_threshold settings)%Q.
Proof.
  intros Hinc. induction remaining as [|remaining IH];
    intros iteration st st' w w' Hcap.
  - intros [= <- _]. split; [apply Qle_refl|done].
  - cbn [iteration_loop]. intros ([go_on st1] & w1 & Hbody & H)%M_bind_Ok_inv.
    apply iteration_body_threshold in Hbody.
    assert ((current_threshold st <= current_threshold st1)%Q
            ∧ (current_threshold st1 <= max_similarity_threshold settings)%Q)
      as [Hle Hcap1].
    { rewrite Hbody. destruct (_ && _); [|split; [apply Qle_refl|done]].
      split; [|apply Q.le_min_r].
      apply Q.min_glb; [|done].
      rewrite <- (Qplus_0_r (current_threshold st)) at 1.
      by apply Qplus_le_r. }
    destruct go_on; [|by injection H as <- _].
    destruct (IH _ _ _ _ _ Hcap1 H) as [Hle' Hcap'].
    split; [by eapply Qle_trans|done].
Qed.

(** With fewer than two active input blocks nothing is embedded and no
    request is made: the run returns at once, with every input block hidden
    in the results and the starting count as the number of blocks removed. *)
Theorem fewer_than_two_active_blocks_no_request (request : AutoDistillRequest)
    (w : World) :
  length (filter (λ b, is_active b = true) (results request)) < 2 →
  ∃ resp, process_dedupe_request request w = (Ok resp, w)
    ∧ resp_results resp
      = (hidden_copy <$> results request)
        ++ (clean_block <$>
              filter (λ b, type b = "merged"%string)
                     (filter (λ b, is_active b = true) (results request)))
    ∧ startingBlockCount (stats resp)
      = Z.of_nat (length (filter (λ b, is_active b = true) (results request)))
    ∧ blocksRemoved (stats resp) = startingBlockCount (stats resp).
Proof.
  intros Hlt. unfold process_dedupe_request, run_dedupe.
  set (active := filter (λ b, is_active b = true) (results request)) in *.
  destruct (Z.ltb_spec (Z.of_nat (length active)) 2) as [_|?]; [|lia].
  eexists. split; [reflexivity|]. simpl. done.
Qed.

(** In the response of every successful run the first entries are the
    input blocks, in input order and with their identifiers, each with
    [hidden] true and without embedding, and every entry after them has
    type ["merged"]. *)
Theorem results_start_with_the_hidden_inputs (request : AutoDistillRequest)
    (w w' : World) (resp : Response) :
  process_dedupe_request request w = (Ok resp, w') →
  take (length (results request)) (resp_results resp)
  = hidden_copy <$> results request
  ∧ (∀ i b, results request !! i = Some b →
       ∃ b', resp_results resp !! i = Some b'
         ∧ blockifyResultUUID b' = blockifyResultUUID b
         ∧ type b' = type b
         ∧ blockifiedTextResult b' = blockifiedTextResult b
         ∧ hidden b' = Some true ∧ _embedding b' = None)
  ∧ Forall (λ b, type b = "merged"%string ∧ _embedding b = None)
           (drop (length (results request)) (resp_results resp)).
Proof.
  intros (fin & stats0 & w1 & _ & Hres & _)%process_dedupe_request_inv.
  rewrite Hres. split_and!.
  - rewrite take_app_length'; [done|by rewrite length_fmap].
  - intros i b Hi. exists (hidden_copy b). split; [|done].
    rewrite lookup_app_l by (rewrite length_fmap; by eapply lookup_lt_Some).
    by rewrite list_lookup_fmap, Hi.
  - rewrite drop_app_length' by (by rewrite length_fmap).
    apply Forall_fmap, Forall_forall. intros b [Ht _]%list_elem_of_filter. done.
Qed.

(** *** Clusters among synthetic blocks *)

Lemma _find_similar_clusters_spec (embed : string → vec)
    (blocks : list Block) (θ : Q) :
  (∀ batch, openai_embeddings batch = Ok (embed <$> batch)) →
  (∀ t, embed t ≠ []) →
  (0 < openai_embedding_batch_size settings)%Z →
  (0 < embedding_parallel_threads settings)%Z →
  (0 < similarity_parallel_threads settings)%Z →
  let V := embed <$> (create_text_blob <$> blocks) in
  ∃ clusters, _find_similar_clusters blocks θ = Ok clusters
    ∧ Forall (λ c, 1 < length c) clusters
    ∧ (∀ c i j, c ∈ clusters → i < j < length blocks →
         (θ <= cosine (row V i) (row V j))%Q → i ∈ c ↔ j ∈ c)
    ∧ (clusters = [] ↔
       ∀ i j, i < j < length blocks → ¬ (θ <= cosine (row V i) (row V j))%Q).
Proof.
  intros Hembed Hdim HB HET HST V. unfold _find_similar_clusters.
  destruct (Nat.ltb_spec (length blocks) 2) as [Hlen|Hlen].
  { exists []. split_and!; [done | constructor | by intros c i j ?%elem_of_nil |].
    split; [|done]. intros _ i j Hij. lia. }
  rewrite (generate_embeddings_Ok embed) by done.
  unfold mbind at 1, result_bind at 1. fold V.
  assert (length V = length blocks) as HlenV by (unfold V; by rewrite !length_fmap).
  destruct (find_similar_pairs_dense_sound V θ HST)
    as (pairs & -> & Hsound & _ & Hcomplete).
  assert (∀ v, v ∈ V → v ≠ []) as HdimV.
  { intros v (t & -> & _)%list_elem_of_fmap. apply Hdim. }
  specialize (Hcomplete HdimV). rewrite HlenV in Hsound, Hcomplete.
  unfold mbind at 1, result_bind at 1.
  case_bool_decide as Hnil.
  { exists []. split_and!; [done | constructor | by intros c i j ?%elem_of_nil |].
    split; [|done]. intros _ i j Hij Hθ.
    specialize (Hcomplete i j Hij Hθ). rewrite Hnil in Hcomplete.
    by apply elem_of_nil in Hcomplete. }
  destruct (connected_components_spec pairs (length blocks))
    as (comps & -> & Hperm & Hcl & _).
  { intros i j s Hp. specialize (Hsound i j s Hp). lia. }
  simpl. eexists. split; [reflexivity|]. split_and!.
  - apply Forall_forall. by intros c [? _]%list_elem_of_filter.
  - intros c i j [_ Hc]%list_elem_of_filter Hij Hθ.
    specialize (Hcomplete i j Hij Hθ). split; intros H.
    + apply (Hcl c i j Hc H). eexists. by left.
    + apply (Hcl c j i Hc H). eexists. by right.
  - split.
    + intros Hempty. exfalso. destruct pairs as [|[[i j] s] pairs]; [done|].
      destruct (Hsound i j s) as (Hij & _); [by left|].
      assert (i ∈ concat comps) as Hi.
      { rewrite Hperm. apply elem_of_seq. lia. }
      apply elem_of_concat in Hi as (c & Hic & Hc).
      assert (j ∈ c) as Hjc.
      { apply (Hcl c i j Hc Hic). exists s. left. by left. }
      assert (c ∈ filter (λ c, 1 < length c) comps) as Hin.
      { apply list_elem_of_filter. split; [|done].
        destruct c as [|x [|y c]]; [by apply elem_of_nil in Hic| |simpl; lia].
        apply list_elem_of_singleton in Hic, Hjc. lia. }
      rewrite Hempty in Hin. by apply elem_of_nil in Hin.
    + intros Hnone. exfalso. destruct pairs as [|[[i j] s] pairs]; [done|].
      destruct (Hsound i j s) as (Hij & Hθ & Hs); [by left|].
      apply (Hnone i j Hij). by rewrite <- Hs.
Qed.


(** *** Snapshots saved during a run *)

Lemma saved_frame_ret {A} (a : A) : saved_frame (mret a).
Proof. by intros w. Qed.

Lemma saved_frame_raise {A} (e : string) : saved_frame (raise (A := A) e).
Proof. by intros w. Qed.

Lemma saved_frame_lift {A} (r : Result A) : saved_frame (lift r).
Proof. by intros w. Qed.

Lemma saved_frame_sleep (site : SleepSite) (q : Q) : saved_frame (sleep site q).
Proof. by intros w. Qed.

Lemma saved_frame_requests_post (prompt : string) : saved_frame (requests_post prompt).
Proof. by intros w. Qed.

Lemma saved_frame_draw_uuid : saved_frame draw_uuid.
Proof. by intros w. Qed.

Lemma saved_frame_bind {A B} (m : M A) (f : A → M B) :
  saved_frame m → (∀ a, saved_frame (f a)) → saved_frame (m ≫= f).
Proof.
  intros Hm Hf w. unfold mbind, M_bind. specialize (Hm w).
  destruct (m w) as [[a|e] w1]; simpl in *; [|done].
  specialize (Hf a w1). congruence.
Qed.

Lemma saved_frame_try {A} (m : M A) (h : string → M A) :
  saved_frame m → (∀ e, saved_frame (h e)) → saved_frame (try_except m h).
Proof.
  intros Hm Hh w. unfold try_except. specialize (Hm w).
  destruct (m w) as [[a|e] w1]; simpl in *; [done|].
  specialize (Hh e w1). congruence.
Qed.

Lemma saved_frame_mapM {A B} (f : A → M B) (l : list A) :
  (∀ x, saved_frame (f x)) → saved_frame (mapM f l).
Proof.
  intros Hf. induction l as [|x l IH]; [apply saved_frame_ret|].
  cbn [mapM]. apply saved_frame_bind; [done|]. intros y.
  apply saved_frame_bind; [done|]. intros k. apply saved_frame_ret.
Qed.

Ltac frame :=
  repeat first
    [ assumption
    | apply saved_frame_ret | apply saved_frame_raise | apply saved_frame_lift
    | apply saved_frame_sleep | apply saved_frame_requests_post
    | apply saved_frame_draw_uuid
    | apply saved_frame_bind; [|intros ?]
    | apply saved_frame_try; [|intros ?]
    | apply saved_frame_mapM; intros ?
    | match goal with
      | |- saved_frame (match ?x with _ => _ end) => destruct x
      end ].

Lemma saved_frame_call_blockify_api (prompt : string) :
  saved_frame (_call_blockify_api prompt).
Proof.
  unfold _call_blockify_api.
  assert (∀ max_retries remaining attempt,
            saved_frame (_call_blockify_api_loop max_retries remaining attempt prompt))
    as H; [|apply H].
  intros max_retries remaining.
  induction remaining as [|remaining IH]; intros attempt;
    cbn [_call_blockify_api_loop]; frame; apply IH.
Qed.

Lemma saved_frame_merge_cluster (cluster_blocks : list Block) :
  saved_frame (merge_cluster cluster_blocks).
Proof. unfold merge_cluster. frame; apply saved_frame_call_blockify_api. Qed.

Lemma saved_frame_single_llm_merge (cluster_blocks : list Block) :
  saved_frame (_single_llm_merge cluster_blocks).
Proof.
  unfold _single_llm_merge.
  assert (∀ remaining attempt last,
            saved_frame (_single_llm_merge_loop remaining attempt last cluster_blocks))
    as H; [|apply H].
  intros remaining. induction remaining as [|remaining IH]; intros attempt last;
    cbn [_single_llm_merge_loop]; frame; try apply IH.
  unfold merge_attempt. frame; apply saved_frame_merge_cluster.
Qed.

Lemma saved_frame_contents_to_blocks (contents : list Content) (source_blocks : list Block) :
  saved_frame (_contents_to_blocks contents source_blocks).
Proof. unfold _contents_to_blocks. frame. Qed.

Lemma saved_frame_results_to_blocks (rs : list Content) :
  saved_frame (_results_to_blocks rs).
Proof. unfold _results_to_blocks. frame. Qed.

Lemma saved_frame_process (levels : nat) :
  ∀ cluster_blocks θ,
    saved_frame (_process_large_cluster_recursively levels cluster_blocks θ).
Proof.
  induction levels as [|levels IH]; intros cluster_blocks θ;
    destruct cluster_blocks as [|b1 [|b2 bs]]; cbn [_process_large_cluster_recursively];
    try apply saved_frame_ret; try apply saved_frame_single_llm_merge.
  destruct (_ <=? _)%Z; [apply saved_frame_single_llm_merge|].
  apply saved_frame_bind; [apply saved_frame_lift|]. intros k.
  apply saved_frame_bind.
  { destruct (_ && _).
    - apply saved_frame_mapM. intros sub.
      apply saved_frame_try; [apply IH | intros e; apply saved_frame_ret].
    - apply saved_frame_mapM. intros sub. apply IH. }
  intros per. destruct (_ <? _)%Z.
  { apply saved_frame_bind; [apply saved_frame_results_to_blocks | intros s; apply IH]. }
  destruct (Nat.ltb _ _); [|apply saved_frame_ret].
  apply saved_frame_bind; [apply saved_frame_results_to_blocks|]. intros s.
  apply saved_frame_bind; [apply saved_frame_lift|]. intros cl.
  case_bool_decide; [apply saved_frame_ret | apply IH].
Qed.

Lemma saved_frame_merge_cluster_with_llm (cluster_blocks : list Block) (θ : Q) :
  saved_frame (_merge_cluster_with_llm cluster_blocks θ).
Proof.
  unfold _merge_cluster_with_llm, _single_llm_merge_to_blocks.
  destruct (_ <=? _)%Z.
  - apply saved_frame_bind; [apply saved_frame_single_llm_merge|].
    intros c. apply saved_frame_contents_to_blocks.
  - apply saved_frame_bind; [apply saved_frame_process|].
    intros c. apply saved_frame_contents_to_blocks.
Qed.

Lemma saved_frame_run {A} (m : M A) (w w' : World) (r : Result A) :
  saved_frame m → m w = (r, w') → saved_intermediate w' = saved_intermediate w.
Proof. intros Hm Hr. specialize (Hm w). by rewrite Hr in Hm. Qed.

Lemma saved_frame_process_single_cluster (f : list Block → Q → M (list Block))
    (master : list Block) (θ : Q) (indices : list nat) :
  (∀ blocks θ', saved_frame (f blocks θ')) →
  saved_frame (process_single_cluster f master θ indices).
Proof.
  intros Hf. unfold process_single_cluster.
  apply saved_frame_bind; [apply saved_frame_lift|]. intros blocks.
  apply saved_frame_try; [|intros e; apply saved_frame_ret].
  apply saved_frame_bind; [apply Hf|]. intros out.
  case_bool_decide; apply saved_frame_ret.
Qed.

Lemma iteration_body_snapshot (f : list Block → Q → M (list Block))
    (active_blocks : list Block) (starting_count iteration : Z)
    (st st' : LoopState) (go_on : bool) (w w' : World) :
  (∀ blocks θ, saved_frame (f blocks θ)) →
  iteration_body f active_blocks starting_count iteration st w
  = (Ok (go_on, st'), w') →
  (∃ new, all_merged_blocks st' = all_merged_blocks st ++ new)
  ∧ saved_intermediate w'
    = saved_intermediate w
      ++ (if go_on && negb (bool_decide (all_merged_blocks st' = []))
          then [_build_intermediate_result active_blocks (all_merged_blocks st')
                                           starting_count]
          else []).
Proof.
  intros Hf. unfold iteration_body.
  assert (∀ w0 : World, saved_intermediate w0 = saved_intermediate w0 ++ []) as Hnil.
  { intros w0. by rewrite app_nil_r. }
  assert (all_merged_blocks st = all_merged_blocks st ++ []) as Hnil'.
  { by rewrite app_nil_r. }
  destruct (Nat.ltb _ 2); [intros [= <- <- <-]; by eauto|].
  intros (embeddings & w1 & [_ ->]%lift_Ok_inv & H)%M_bind_Ok_inv.
  apply M_bind_Ok_inv in H as (pairs & w2 & [_ ->]%lift_Ok_inv & H).
  case_bool_decide; [injection H as <- <- <-; by eauto|].
  apply M_bind_Ok_inv in H as (clusters & w3 & [_ ->]%lift_Ok_inv & H).
  case_bool_decide; [injection H as <- <- <-; by eauto|].
  apply M_bind_Ok_inv in H as (u & w4 & [_ ->]%lift_Ok_inv & H).
  apply M_bind_Ok_inv in H as (done_ & w5 & Hdone & H).
  apply saved_frame_run in Hdone;
    [|apply saved_frame_mapM; intros c; by apply saved_frame_process_single_cluster].
  set (acc := foldl collect _ _) in H.
  apply M_bind_Ok_inv in H as (mwe & w6 & [_ ->]%lift_Ok_inv & H).
  apply M_bind_Ok_inv in H as (keep & w7 & [_ ->]%lift_Ok_inv & H).
  destruct (_ && _).
  { injection H as <- <- <-. simpl. split; [by eauto|]. by rewrite app_nil_r. }
  apply M_bind_Ok_inv in H as (u' & w8 & Hsave & H). injection H as <- <- <-.
  simpl. split; [by eauto|].
  case_bool_decide as Hm; simpl.
  - injection Hsave as _ <-. by rewrite app_nil_r.
  - unfold try_except, save_intermediate in Hsave. injection Hsave as _ <-.
    simpl. by rewrite Hdone.
Qed.

Lemma iteration_loop_snapshots (f : list Block → Q → M (list Block))
    (active_blocks : list Block) (starting_count : Z) (remaining : nat) :
  (∀ blocks θ, saved_frame (f blocks θ)) →
  ∀ (iteration : Z) (st st' : LoopState) (w w' : World),
    iteration_loop f active_blocks starting_count remaining iteration st w
    = (Ok st', w') →
    ∃ snaps, saved_intermediate w' = saved_intermediate w ++ snaps
      ∧ length snaps ≤ remaining
      ∧ all_merged_blocks st `prefix_of` all_merged_blocks st'
      ∧ Forall (λ s, ∃ m, m `prefix_of` all_merged_blocks st' ∧ m ≠ []
                     ∧ s = _build_intermediate_result active_blocks m starting_count)
               snaps.
Proof.
  intros Hf. induction remaining as [|remaining IH]; intros iteration st st' w w'.
  - intros [= <- <-]. exists []. rewrite app_nil_r. split_and!; [done..|constructor].
  - cbn [iteration_loop]. intros ([go_on st1] & w1 & Hbody & H)%M_bind_Ok_inv.
    apply iteration_body_snapshot in Hbody as [[new Hnew] Hsaved]; [|done].
    destruct go_on; simpl in Hsaved.
    + destruct (IH _ _ _ _ _ H) as (snaps & Hs & Hlen & Hpre & Hfa).
      eexists. split_and!.
      * rewrite Hs, Hsaved, <- app_assoc. reflexivity.
      * rewrite length_app. case_bool_decide; simpl; lia.
      * etrans; [|exact Hpre]. rewrite Hnew. by apply prefix_app_r.
      * apply Forall_app. split; [|done].
        case_bool_decide as Hm; simpl; [constructor|].
        constructor; [|constructor]. by exists (all_merged_blocks st1).
    + injection H as <- <-. exists []. rewrite Hsaved.
      split_and!; [done | simpl; lia | rewrite Hnew; by apply prefix_app_r | constructor].
Qed.

(** The crash-recovery snapshots of a run: at most one is saved per
    iteration, and each is the partial result built from the active input
    blocks and a non-empty prefix of the merged blocks of the final results:
    a snapshot never holds a merged block that the final response lacks. *)
Theorem snapshots_are_prefixes_of_the_result (request : AutoDistillRequest)
    (w w' : World) (resp : Response) :
  process_dedupe_request request w = (Ok resp, w') →
  let active := filter (λ b, is_active b = true) (results request) in
  ∃ merged snaps,
    clean_block <$> merged `suffix_of` resp_results resp
    ∧ saved_intermediate w' = saved_intermediate w ++ snaps
    ∧ length snaps ≤ Z.to_nat (iterations request)
    ∧ Forall (λ s, ∃ m, m `prefix_of` merged ∧ m ≠ []
                   ∧ s = _build_intermediate_result active m
                           (Z.of_nat (length active)))
             snaps.
Proof.
  intros Hp active. pose proof Hp as Hp'.
  apply process_dedupe_request_inv in Hp' as (fin & stats0 & w1 & Hrun & Hres & _).
  unfold process_dedupe_request in Hp.
  apply M_bind_Ok_inv in Hp as ([fin' stats'] & w1' & Hrun' & Hp).
  injection Hp as _ <-. rewrite Hrun in Hrun'. injection Hrun' as _ _ ->.
  clear fin' stats'.
  unfold run_dedupe in Hrun. fold active in Hrun.
  destruct (_ <? 2)%Z.
  { injection Hrun as <- _ <-. exists [], []. rewrite app_nil_r.
    split_and!; [apply suffix_nil | done | simpl; lia | constructor]. }
  apply M_bind_Ok_inv in Hrun as (master & w2 & [Hmaster ->]%lift_Ok_inv & H).
  apply M_bind_Ok_inv in H as (st & w3 & Hloop & H). injection H as <- _ <-.
  pose proof Hloop as Hinv.
  eapply (iteration_loop_inv _merge_cluster_with_llm active _
            (blockifyResultUUID <$> active) _ _merge_cluster_with_llm_ok) in Hinv.
  2:{ split; simpl; [by intros i b ?|].
      intros b Hb. left.
      destruct (_add_embeddings_to_blocks_ids _ _ _ Hmaster Hb) as (b0 & Hb0 & ->).
      apply list_elem_of_fmap. by exists b0. }
  destruct Hinv as [Hknown _].
  apply iteration_loop_snapshots in Hloop as (snaps & Hs & Hlen & _ & Hfa);
    [|apply saved_frame_merge_cluster_with_llm].
  exists (all_merged_blocks st), snaps. split_and!; [|done..].
  rewrite Hres, filter_app, (filter_type_merged_known _ _ Hknown), fmap_app, app_assoc.
  by apply suffix_app_r.
Qed.
End Pipeline.

(** ** Properties of request validation *)

(** C5, as stated, fails: a block with [type = "original"] belongs to the
    set the claim lists and is rejected by validation, and a block with
    [type = "blockify"] is outside that set and is accepted. *)
Lemma validate_original_rejected :
  (raw_type (raw_of_type "original") ∈ spec_type_literal)
  ∧ validate_BlockifyResult (raw_of_type "original") = None
  ∧ (raw_type (raw_of_type "blockify") ∉ spec_type_literal)
  ∧ is_Some (validate_BlockifyResult (raw_of_type "blockify")).
Proof.
  split_and!.
  - compute_done.
  - reflexivity.
  - compute_done.
  - by eexists.
Qed.

(** C5, amended: validation accepts a submitted block exactly when its
    [type] field is one of "blockify", "merged", "synthetic", "new"; the
    accepted block keeps that type. *)
Theorem validate_BlockifyResult_accepts_iff (r : RawBlock) :
  (is_Some (validate_BlockifyResult r)
   ↔ raw_type r ∈ ["blockify"; "merged"; "synthetic"; "new"])
  ∧ ∀ b, validate_BlockifyResult r = Some b → type b = raw_type r.
Proof.
  unfold validate_BlockifyResult, BlockifyResult_type_literal.
  case_bool_decide as Hin; split.
  - split; [done | by eexists].
  - intros b [= <-]. reflexivity.
  - split; [intros [b Hb]; discriminate | done].
  - intros b Hb. discriminate.
Qed.

(** ** Properties of the job stores *)

Lemma sqlite_timeout_after_success jid now (st : SQLite.store) j :
  SQLite.get_job jid st = Some j → status j = SUCCESS →
  SQLite.update_job_timeout jid now st = st.
Proof.
  unfold SQLite.get_job, SQLite.update_job_timeout. intros -> Hs.
  by rewrite bool_decide_eq_true_2.
Qed.

Lemma filesystem_timeout_after_success jid now (st : Filesystem.store) j :
  Filesystem.get_job jid st = Some j → status j = SUCCESS →
  Filesystem.update_job_timeout jid now st = st.
Proof.
  unfold Filesystem.get_job, Filesystem.update_job_timeout.
  destruct (Filesystem._jobs st !! jid) as [job|]; [|done].
  intros [= ->] Hs. by rewrite bool_decide_eq_true_2.
Qed.

Lemma sqlite_success_clears jid res now (st : SQLite.store) :
  SQLite.get_intermediate_result jid (SQLite.update_job_success jid res now st) = None.
Proof.
  unfold SQLite.get_intermediate_result, SQLite.get_job, SQLite.update_job_success.
  simpl. destruct (SQLite.jobs st !! jid) as [model|] eqn:E.
  - by rewrite lookup_insert_eq.
  - by rewrite E.
Qed.

Lemma sqlite_success_recorded jid res now (st : SQLite.store) j :
  SQLite.get_job jid st = Some j →
  ∃ j', SQLite.get_job jid (SQLite.update_job_success jid res now st) = Some j'
        ∧ status j' = SUCCESS ∧ result j' = Some res
        ∧ completed_at j' = Some now ∧ intermediate_result j' = None.
Proof.
  unfold SQLite.get_job, SQLite.update_job_success. simpl. intros ->.
  eexists. rewrite lookup_insert_eq. done.
Qed.

Lemma filesystem_success_recorded jid res now (st : Filesystem.store) j :
  Filesystem._jobs st !! jid = Some j → job_id j = jid →
  (∃ j', Filesystem.get_job jid (Filesystem.update_job_success jid res now st) = Some j'
         ∧ status j' = SUCCESS ∧ result j' = Some res
         ∧ completed_at j' = Some now ∧ intermediate_result j' = None)
  ∧ Filesystem.get_intermediate_result jid
      (Filesystem.update_job_success jid res now st) = None.
Proof.
  intros Hj Hid.
  unfold Filesystem.get_job, Filesystem.get_intermediate_result,
    Filesystem.update_job_success, Filesystem._load_job_from_disk,
    Filesystem._persist_job, Filesystem._cleanup_intermediate.
  rewrite Hj. simpl. rewrite !lookup_delete_eq. split; [|done].
  rewrite Hid, lookup_insert_eq. eexists. done.
Qed.

(** C2: in both backends a timeout update on a job whose status is success
    leaves the store as it is (status, result and completion time are not
    overwritten), and when [update_job_success] marks a job successful no
    intermediate snapshot of that job is left to read. *)
Theorem success_is_final_and_clears_snapshot :
  (∀ jid now (st : SQLite.store) j,
      SQLite.get_job jid st = Some j → status j = SUCCESS →
      SQLite.update_job_timeout jid now st = st)
  ∧ (∀ jid now (st : Filesystem.store) j,
      Filesystem.get_job jid st = Some j → status j = SUCCESS →
      Filesystem.update_job_timeout jid now st = st)
  ∧ (∀ jid res now (st : SQLite.store),
      SQLite.get_intermediate_result jid
        (SQLite.update_job_success jid res now st) = None
      ∧ ∀ j, SQLite.get_job jid st = Some j →
          ∃ j', SQLite.get_job jid (SQLite.update_job_success jid res now st) = Some j'
                ∧ status j' = SUCCESS ∧ result j' = Some res
                ∧ completed_at j' = Some now ∧ intermediate_result j' = None)
  ∧ (∀ jid res now (st : Filesystem.store) j,
      Filesystem._jobs st !! jid = Some j → job_id j = jid →
      (∃ j', Filesystem.get_job jid (Filesystem.update_job_success jid res now st) = Some j'
             ∧ status j' = SUCCESS ∧ result j' = Some res
             ∧ completed_at j' = Some now ∧ intermediate_result j' = None)
      ∧ Filesystem.get_intermediate_result jid
          (Filesystem.update_job_success jid res now st) = None).
Proof.
  split_and!.
  - apply sqlite_timeout_after_success.
  - apply filesystem_timeout_after_success.
  - intros jid res now st. split.
    + apply sqlite_success_clears.
    + apply sqlite_success_recorded.
  - apply filesystem_success_recorded.
Qed.

Lemma success_is_final_and_clears_snapshot_witness :
  SQLite.update_job_timeout "job-1" 9 sqlite_done = sqlite_done
  ∧ Filesystem.update_job_timeout "job-1" 9 filesystem_done = filesystem_done
  ∧ SQLite.get_intermediate_result "job-1" sqlite_done = None
  ∧ is_Some (Filesystem.get_intermediate_result "job-1" filesystem_running)
  ∧ Filesystem.get_intermediate_result "job-1" filesystem_done = None.
Proof.
  destruct success_is_final_and_clears_snapshot as (Hsq & Hfs & Hsq' & Hfs').
  split_and!.
  - eapply Hsq; vm_compute; reflexivity.
  - eapply Hfs; vm_compute; reflexivity.
  - apply Hsq'.
  - vm_compute. by eexists.
  - eapply Hfs'; vm_compute; reflexivity.
Defined.

(** ** Examples on concrete inputs *)

Lemma in_order_perm (A : Type) (l : list A) : in_order A l ≡ₚ l.
Proof. done. Qed.

Lemma ascending_perm (l : list (nat * nat)) : ascending l ≡ₚ l.
Proof. apply py_sorted_Permutation. Qed.

Lemma demo_uuid4_inj (i j : nat) : demo_uuid4 i = demo_uuid4 j → i = j.
Proof.
  unfold demo_uuid4. intros H. apply (inj (String.app "uuid-")) in H.
  by apply (inj pretty) in H.
Qed.

Local Abbreviation demo_process :=
  (process_dedupe_request default_settings norm_exact in_order ascending demo_randn
     demo_embeddings no_louvain demo_endpoint demo_parse_all demo_parse_one
     demo_uuid4).

(** C1, as stated, fails: in this two-iteration run the second merged block
    lists "uuid-0", the identifier minted for the first merged block, which
    is not the identifier of an input block. *)
Lemma sources_list_minted_identifier :
  ∃ resp w',
    demo_process demo_request initial_world = (Ok resp, w')
    ∧ blockifyResultUUID <$> results demo_request = ["a"; "b"; "c"]
    ∧ blockifyResultUUID <$> drop 3 (resp_results resp) = ["uuid-0"; "uuid-1"]
    ∧ blockifyResultsUsed <$> drop 3 (resp_results resp)
      = [Some (Some ["a"; "b"]); Some (Some ["c"; "uuid-0"])]
    ∧ ("uuid-0" ∉ blockifyResultUUID <$> results demo_request).
Proof.
  eexists _, _. split; [vm_compute; reflexivity|].
  split_and!; [reflexivity.. | compute_done].
Qed.

Lemma sources_active_or_earlier_merged_witness :
  ∃ resp w',
    demo_process demo_request initial_world = (Ok resp, w')
    ∧ ∀ i b, drop (length (results demo_request)) (resp_results resp) !! i = Some b →
        type b = "merged"
        ∧ ∃ srcs, blockifyResultsUsed b = Some (Some srcs) ∧ srcs ≠ []
            ∧ ∀ u, u ∈ srcs →
                u ∈ blockifyResultUUID
                      <$> filter (λ b, is_active b = true) (results demo_request)
                ∨ ∃ j b', (j < i)%nat
                    ∧ drop (length (results demo_request)) (resp_results resp) !! j
                      = Some b'
                    ∧ blockifyResultUUID b' = u.
Proof.
  eexists _, _. split; [vm_compute; reflexivity|].
  eapply (sources_active_or_earlier_merged default_settings norm_exact in_order
            ascending demo_randn demo_embeddings no_louvain demo_endpoint
            demo_parse_all demo_parse_one demo_uuid4 in_order_perm
            demo_request initial_world).
  - intros b Hb _.
    repeat (apply elem_of_cons in Hb as [->|Hb]; [discriminate|]).
    by apply elem_of_nil in Hb.
  - vm_compute; reflexivity.
Defined.


(** With 160 active inputs and 73 merged blocks the quotient [73 / 160] is
    not exact in binary64 and the product falls just below 54.375: the
    percentage is 54.37, where the exact value 54.375 rounds to 54.38.
    [_create_stats] gives the same on [(160 - 73) / 160 * 100]. *)
Lemma percent_of_73_in_160 :
  float_round2 (PrimFloat.mul (float_of_Z 100)
                  (PrimFloat.sub (float_of_Z 1)
                     (PrimFloat.div (float_of_Z 73) (float_of_Z 160))))
  = hundredths false 5437
  ∧ blockReductionPercent (_create_stats 160 73 73) = PyFloat (hundredths false 5437)
  ∧ round_half_even (100 * (1 - 73 / 160) * 100)%Q = 5438%Z.
Proof. split_and!; vm_compute; reflexivity. Qed.

(** One merge that yields two blocks. *)
Lemma merged_blocks_share_sources_witness :
  ∃ out w',
    _merge_cluster_with_llm default_settings norm_exact in_order demo_embeddings
      two_block_endpoint demo_parse_all demo_parse_one demo_uuid4
      [block_a; block_b] (8 # 10) initial_world = (Ok out, w')
    ∧ length out = 2%nat
    ∧ Forall (λ b, blockifyResultsUsed b = Some (Some ["a"; "b"])) out
    ∧ NoDup (blockifyResultUUID <$> out).
Proof.
  eexists _, _. split; [vm_compute; reflexivity|].
  edestruct (merged_blocks_share_sources default_settings norm_exact in_order
               demo_embeddings two_block_endpoint demo_parse_all demo_parse_one
               demo_uuid4 [block_a; block_b] (8 # 10) initial_world)
    as (Hfa & c & _ & _ & _ & Hnd); [vm_compute; reflexivity|].
  split_and!.
  - reflexivity.
  - eapply Forall_impl; [exact Hfa|]. by intros b (_ & Hu & _).
  - apply Hnd, demo_uuid4_inj.
Defined.


(** C4 fails on the LSH path: on these fifty vectors, with the candidate
    set iterated in ascending order and the chunks completing in submission
    order, the pairs come back as verified, a pair of similarity 3/5 before
    the pair of similarity 1. *)
Theorem lsh_pairs_not_sorted :
  find_similar_pairs_with_lsh default_settings norm_exact in_order ascending
    demo_randn fifty_vectors (1 # 2)
  = Ok [(0, 1, (15 # 25)%Q); (0, 2, 1%Q); (1, 2, (15 # 25)%Q)]
  ∧ ¬ Sorted (λ a b, (pair_sim b <= pair_sim a)%Q)
        [(0, 1, (15 # 25)%Q); (0, 2, 1%Q); (1, 2, (15 # 25)%Q)].
Proof.
  split; [by vm_compute|].
  intros H. apply Sorted_inv in H as [_ H]. apply HdRel_inv in H.
  by vm_compute in H.
Qed.

(** C6, as stated, fails: when every request fails with an HTTP error the
    first delay is 1 s, not 2 s, and nine requests are made, not three; when
    only the first request fails the merge succeeds after a single delay of
    1 s. *)
Lemma retry_first_delay_is_one_second :
  _single_llm_merge default_settings failing_endpoint demo_parse_all demo_parse_one
    [block_a; block_b] initial_world
  = (Raise "LLM merge failed after 3 attempts. Last error: 503 Server Error: Service Unavailable",
     mkWorld 9 0
       [(ApiBackoff, 1%Q); (ApiBackoff, 2%Q); (MergeBackoff, 2%Q);
        (ApiBackoff, 1%Q); (ApiBackoff, 2%Q); (MergeBackoff, 4%Q);
        (ApiBackoff, 1%Q); (ApiBackoff, 2%Q)] [])
  ∧ _single_llm_merge default_settings flaky_endpoint demo_parse_all demo_parse_one
      [block_a; block_b] initial_world
    = (Ok [content_first; content_second], mkWorld 2 0 [(ApiBackoff, 1%Q)] []).
Proof. split; by vm_compute. Qed.

(** C8 fails on the slice bounds: for a cluster of 209 blocks the target
    size is 20 and there are 11 subclusters, and binary64 arithmetic puts
    the bounds of index 3 and 6 at 56 and 113, one below
    [floor(3 * 209 / 11) = 57] and [floor(6 * 209 / 11) = 114]. *)
Theorem slices_of_209_blocks :
  target_size_of default_settings 209 = 20%Z
  ∧ num_subclusters_of 209 20 = Ok 11%Z
  ∧ slice_ranges 11 209
    = [(0, 19); (19, 38); (38, 56); (56, 76); (76, 95); (95, 113);
       (113, 133); (133, 152); (152, 171); (171, 190); (190, 209)]%Z
  ∧ (λ i, (i * 209 / 11)%Z) <$> [0; 1; 2; 3; 4; 5; 6; 7; 8; 9; 10; 11]%Z
    = [0; 19; 38; 57; 76; 95; 114; 133; 152; 171; 190; 209]%Z.
Proof. split_and!; by vm_compute. Qed.

(** The rest of C8 on the code: for every cluster size from 21 to 500 the
    slices computed with the default settings follow one another from 0 to
    [n] and are each shorter than [n]. *)
Lemma slices_partition_up_to_500 :
  forallb (slices_partition default_settings) (seq 21 480) = true.
Proof. by vm_compute. Qed.

(** C9 fails when an active input block already has [type = "merged"]:
    whatever the environment, it comes back twice, hidden among the input
    blocks and unchanged after them, here with no sources, and it is
    counted as a block added. *)
Theorem merged_input_passes_through (settings : Settings) (norm : vec → Q)
    (as_completed : ∀ A : Type, list A → list A)
    (set_order : list (nat * nat) → list (nat * nat))
    (randn : nat → nat → nat → list vec)
    (openai_embeddings : list string → Result (list vec))
    (louvain_communities : list Pair → nat → Result (list (list nat)))
    (distill_endpoint : nat → string → HttpOutcome)
    (parse_all : string → list Content) (parse_one : string → option Content)
    (uuid4 : nat → string) (w : World) :
  ∃ resp,
    process_dedupe_request settings norm as_completed set_order randn
      openai_embeddings louvain_communities distill_endpoint parse_all parse_one
      uuid4 merged_input_request w = (Ok resp, w)
    ∧ resp_results resp = [hidden_copy merged_input; merged_input]
    ∧ blockifyResultsUsed merged_input = Some None
    ∧ finalBlockCount (stats resp) = 1%Z
    ∧ blocksAdded (stats resp) = 1%Z.
Proof. eexists. split_and!; reflexivity. Qed.

(** ** Further properties of the job stores *)

Lemma all_running_insert jid j (st : Filesystem.store) jf fi ff :
  all_running st → status j = RUNNING →
  all_running (Filesystem.mkStore (<[jid := j]> (Filesystem._jobs st)) jf fi ff).
Proof.
  intros Hall Hj k j'. simpl. destruct (decide (jid = k)) as [->|Hne].
  - rewrite lookup_insert_eq. by intros [= <-].
  - rewrite lookup_insert_ne by done. apply Hall.
Qed.

Lemma all_running_delete jid (st : Filesystem.store) jf fi ff :
  all_running st →
  all_running (Filesystem.mkStore (delete jid (Filesystem._jobs st)) jf fi ff).
Proof.
  intros Hall k j'. simpl. intros [_ H]%lookup_delete_Some. by apply (Hall k).
Qed.

(** In the filesystem store every job held in memory is running: the
    constructor starts with none, [create_job] adds a running job, the
    progress and snapshot updates keep the status, and the three terminal
    updates and [delete_job] remove the job from memory.  Hence the early
    return of [update_job_timeout] is never taken: a timeout on a job held in
    memory always removes it. *)
Theorem filesystem_memory_holds_running_jobs (st : Filesystem.store) :
  all_running st →
  (∀ jid now hook, all_running (Filesystem.create_job jid now hook st))
  ∧ (∀ jid res now, all_running (Filesystem.update_job_success jid res now st))
  ∧ (∀ jid err now, all_running (Filesystem.update_job_failure jid err now st))
  ∧ (∀ jid now, all_running (Filesystem.update_job_timeout jid now st))
  ∧ (∀ jid phase p details,
       all_running (Filesystem.update_job_progress jid phase p details st))
  ∧ (∀ jid res, all_running (Filesystem.save_intermediate_result jid res st))
  ∧ (∀ jid, all_running (Filesystem.delete_job jid st).2)
  ∧ (∀ jid now,
       Filesystem._jobs (Filesystem.update_job_timeout jid now st) !! jid = None).
Proof.
  intros Hall. split_and!.
  - intros. by apply all_running_insert.
  - intros jid res now. unfold Filesystem.update_job_success.
    destruct (Filesystem._jobs st !! jid); [by apply all_running_delete|done].
  - intros jid err now. unfold Filesystem.update_job_failure.
    destruct (Filesystem._jobs st !! jid); [by apply all_running_delete|done].
  - intros jid now. unfold Filesystem.update_job_timeout.
    destruct (Filesystem._jobs st !! jid); [|done].
    case_bool_decide; [done|by apply all_running_delete].
  - intros jid phase p details. unfold Filesystem.update_job_progress.
    destruct (Filesystem._jobs st !! jid) as [j|] eqn:Hj; [|done].
    apply all_running_insert; [done|]. simpl. by apply (Hall jid).
  - intros jid res. unfold Filesystem.save_intermediate_result.
    destruct (Filesystem._jobs st !! jid) as [j|] eqn:Hj; [|done].
    apply all_running_insert; [done|]. simpl. by apply (Hall jid).
  - intros jid. by apply all_running_delete.
  - intros jid now. unfold Filesystem.update_job_timeout.
    destruct (Filesystem._jobs st !! jid) as [j|] eqn:Hj; [|done].
    rewrite bool_decide_eq_false_2.
    + simpl. apply lookup_delete_eq.
    + rewrite (Hall jid j Hj). discriminate.
Qed.

Lemma all_running__init__ jf fi : all_running (Filesystem.__init__ jf fi).
Proof. intros jid j H. simpl in H. by rewrite lookup_empty in H. Qed.

Lemma filesystem_memory_holds_running_jobs_witness :
  all_running filesystem_running
  ∧ Filesystem._jobs (Filesystem.update_job_timeout "job-1" 9 filesystem_running)
      !! "job-1" = None.
Proof.
  assert (all_running filesystem_running) as H.
  { apply (filesystem_memory_holds_running_jobs
             (Filesystem.create_job "job-1" 1 None (Filesystem.mkStore ∅ ∅ ∅ ∅))).
    apply (filesystem_memory_holds_running_jobs (Filesystem.mkStore ∅ ∅ ∅ ∅)).
    apply (all_running__init__ ∅ ∅). }
  split; [exact H|].
  by apply (filesystem_memory_holds_running_jobs filesystem_running).
Defined.

(** Once one of the three terminal updates has been applied to a job the
    filesystem store holds in memory, the job is read back from its file,
    finished and with the progress fields and the snapshot field at their
    defaults, and every later update of that job (success, failure, timeout,
    progress, snapshot) leaves the store as it is: the first terminal update
    wins. *)
Theorem filesystem_first_terminal_update_wins (jid : string)
    (st st' : Filesystem.store) (j : Job) :
  Filesystem._jobs st !! jid = Some j → job_id j = jid → status j = RUNNING →
  (∃ res now, st' = Filesystem.update_job_success jid res now st)
  ∨ (∃ err now, st' = Filesystem.update_job_failure jid err now st)
  ∨ (∃ now, st' = Filesystem.update_job_timeout jid now st) →
  (∃ j', Filesystem.get_job jid st' = Some j' ∧ status j' ≠ RUNNING
         ∧ is_Some (completed_at j')
         ∧ progress j' = 0%Q ∧ progress_phase j' = "" ∧ intermediate_result j' = None)
  ∧ (∀ res now, Filesystem.update_job_success jid res now st' = st')
  ∧ (∀ err now, Filesystem.update_job_failure jid err now st' = st')
  ∧ (∀ now, Filesystem.update_job_timeout jid now st' = st')
  ∧ (∀ phase p details,
       Filesystem.update_job_progress jid phase p details st' = st')
  ∧ (∀ res, Filesystem.save_intermediate_result jid res st' = st').
Proof.
  intros Hj Hid Hrun Hst'.
  assert (Filesystem._jobs st' !! jid = None
          ∧ ∃ j', Filesystem.job_files st' !! jid = Some j' ∧ status j' ≠ RUNNING
              ∧ is_Some (completed_at j')
              ∧ progress j' = 0%Q ∧ progress_phase j' = ""
              ∧ intermediate_result j' = None) as [Hnone (j' & Hfile & Hj')].
  { destruct Hst' as [(res & now & ->)|[(err & now & ->)|(now & ->)]].
    - unfold Filesystem.update_job_success. rewrite Hj. simpl.
      split; [apply lookup_delete_eq|].
      unfold Filesystem._persist_job. simpl. rewrite Hid, lookup_insert_eq.
      eexists. split; [done|]. simpl. split_and!; by eauto.
    - unfold Filesystem.update_job_failure. rewrite Hj. simpl.
      split; [apply lookup_delete_eq|].
      unfold Filesystem._persist_job. simpl. rewrite Hid, lookup_insert_eq.
      eexists. split; [done|]. simpl. split_and!; by eauto.
    - unfold Filesystem.update_job_timeout. rewrite Hj.
      rewrite bool_decide_eq_false_2 by (by rewrite Hrun). simpl.
      split; [apply lookup_delete_eq|].
      unfold Filesystem._persist_job. simpl. rewrite Hid, lookup_insert_eq.
      eexists. split; [done|]. simpl. split_and!; by eauto. }
  split_and!.
  - exists j'. split; [|done].
    unfold Filesystem.get_job, Filesystem._load_job_from_disk. by rewrite Hnone.
  - intros. unfold Filesystem.update_job_success. by rewrite Hnone.
  - intros. unfold Filesystem.update_job_failure. by rewrite Hnone.
  - intros. unfold Filesystem.update_job_timeout. by rewrite Hnone.
  - intros. unfold Filesystem.update_job_progress. by rewrite Hnone.
  - intros. unfold Filesystem.save_intermediate_result. by rewrite Hnone.
Qed.

Lemma filesystem_first_terminal_update_wins_witness :
  Filesystem.update_job_success "job-1" sample_result 11
    (Filesystem.update_job_timeout "job-1" 9 filesystem_running)
  = Filesystem.update_job_timeout "job-1" 9 filesystem_running
  ∧ ∃ j', Filesystem.get_job "job-1"
            (Filesystem.update_job_timeout "job-1" 9 filesystem_running) = Some j'
          ∧ status j' = TIMEOUT ∧ result j' = None.
Proof.
  edestruct (filesystem_first_terminal_update_wins "job-1" filesystem_running
               (Filesystem.update_job_timeout "job-1" 9 filesystem_running))
    as (_ & Hs & _); [vm_compute; reflexivity | reflexivity | reflexivity | |].
  - right; right. by exists 9%Q.
  - split; [apply Hs|]. eexists. split; [vm_compute; reflexivity|]. done.
Defined.

(** The SQLite store applies [update_job_success] and [update_job_failure]
    whatever the stored status: a success that arrives after a timeout
    turns the job into a successful one that still carries the timeout
    error, and a failure that arrives after a success turns the job into a
    failed one that still carries the result. *)
Theorem sqlite_late_update_overwrites_status (jid : string) (st : SQLite.store)
    (j : Job) :
  SQLite.get_job jid st = Some j →
  (∀ res now1 now2, status j ≠ SUCCESS →
     SQLite.get_job jid
       (SQLite.update_job_success jid res now2 (SQLite.update_job_timeout jid now1 st))
     = Some (mkJob (job_id j) SUCCESS (created_at j) (Some now2) (Some res)
                   (Some "Job execution timed out") (progress j)
                   (progress_phase j) (progress_details j) None (webhook_url j)))
  ∧ (∀ res err now1 now2,
       SQLite.get_job jid
         (SQLite.update_job_failure jid err now2 (SQLite.update_job_success jid res now1 st))
       = Some (mkJob (job_id j) FAILURE (created_at j) (Some now2) (Some res)
                     (Some err) (progress j) (progress_phase j)
                     (progress_details j) None (webhook_url j))).
Proof.
  unfold SQLite.get_job. intros Hj. split.
  - intros res now1 now2 Hs.
    unfold SQLite.update_job_success, SQLite.update_job_timeout. rewrite Hj.
    rewrite bool_decide_eq_false_2 by done. simpl.
    by rewrite !lookup_insert_eq.
  - intros res err now1 now2.
    unfold SQLite.update_job_success, SQLite.update_job_failure. rewrite Hj.
    simpl. by rewrite !lookup_insert_eq.
Qed.

Lemma sqlite_late_update_overwrites_status_witness :
  ∃ j', SQLite.get_job "job-1"
          (SQLite.update_job_success "job-1" sample_result 11
             (SQLite.update_job_timeout "job-1" 9 sqlite_running)) = Some j'
        ∧ status j' = SUCCESS ∧ error j' = Some "Job execution timed out"
        ∧ result j' = Some sample_result.
Proof.
  edestruct (sqlite_late_update_overwrites_status "job-1" sqlite_running)
    as [H _]; [vm_compute; reflexivity|].
  eexists. split; [apply H; discriminate|]. done.
Defined.

(** A snapshot saved for a job the store knows stays readable after the job
    has failed or timed out, in both backends (the filesystem store reads it
    back from the snapshot file once the job has left the memory). *)
Theorem snapshot_survives_failure_and_timeout (jid : string) (res : json) :
  (∀ (st : SQLite.store) j, SQLite.get_job jid st = Some j →
     (∀ err now,
        SQLite.get_intermediate_result jid
          (SQLite.update_job_failure jid err now
             (SQLite.save_intermediate_result jid res st)) = Some res)
     ∧ (∀ now,
        SQLite.get_intermediate_result jid
          (SQLite.update_job_timeout jid now
             (SQLite.save_intermediate_result jid res st)) = Some res))
  ∧ (∀ (st : Filesystem.store) j, Filesystem._jobs st !! jid = Some j →
       status j = RUNNING →
       (∀ err now,
          Filesystem.get_intermediate_result jid
            (Filesystem.update_job_failure jid err now
               (Filesystem.save_intermediate_result jid res st)) = Some res)
       ∧ (∀ now,
          Filesystem.get_intermediate_result jid
            (Filesystem.update_job_timeout jid now
               (Filesystem.save_intermediate_result jid res st)) = Some res)).
Proof.
  split.
  - intros st j. unfold SQLite.get_job. intros Hj. split.
    + intros err now.
      unfold SQLite.get_intermediate_result, SQLite.get_job,
        SQLite.update_job_failure, SQLite.save_intermediate_result.
      rewrite Hj. simpl. by rewrite !lookup_insert_eq.
    + intros now.
      unfold SQLite.get_intermediate_result, SQLite.get_job,
        SQLite.update_job_timeout, SQLite.save_intermediate_result.
      rewrite Hj. simpl. rewrite !lookup_insert_eq. simpl.
      case_bool_decide; simpl; by rewrite !lookup_insert_eq.
  - intros st j Hj Hrun. split.
    + intros err now.
      unfold Filesystem.get_intermediate_result, Filesystem.update_job_failure,
        Filesystem.save_intermediate_result.
      rewrite Hj. simpl. rewrite !lookup_insert_eq. simpl.
      by rewrite lookup_delete_eq, lookup_insert_eq.
    + intros now.
      unfold Filesystem.get_intermediate_result, Filesystem.update_job_timeout,
        Filesystem.save_intermediate_result.
      rewrite Hj. simpl. rewrite !lookup_insert_eq. simpl.
      rewrite bool_decide_eq_false_2 by (by rewrite Hrun). simpl.
      by rewrite lookup_delete_eq, lookup_insert_eq.
Qed.

(** [delete_job] reports whether the store knew the job (for the
    filesystem store: in memory or as a file); afterwards neither the job
    nor a snapshot of it can be read, and the other jobs are untouched. *)
Theorem delete_job_forgets_the_job (jid : string) :
  (∀ st : SQLite.store,
     ((SQLite.delete_job jid st).1 = true ↔ is_Some (SQLite.get_job jid st))
     ∧ SQLite.get_job jid (SQLite.delete_job jid st).2 = None
     ∧ SQLite.get_intermediate_result jid (SQLite.delete_job jid st).2 = None
     ∧ ∀ other, other ≠ jid →
         SQLite.get_job other (SQLite.delete_job jid st).2 = SQLite.get_job other st)
  ∧ (∀ st : Filesystem.store,
       ((Filesystem.delete_job jid st).1 = true ↔ is_Some (Filesystem.get_job jid st))
       ∧ Filesystem.get_job jid (Filesystem.delete_job jid st).2 = None
       ∧ Filesystem.get_intermediate_result jid (Filesystem.delete_job jid st).2 = None
       ∧ ∀ other, other ≠ jid →
           Filesystem.get_job other (Filesystem.delete_job jid st).2
           = Filesystem.get_job other st
           ∧ Filesystem.get_intermediate_result other (Filesystem.delete_job jid st).2
             = Filesystem.get_intermediate_result other st).
Proof.
  split.
  - intros st.
    unfold SQLite.delete_job, SQLite.get_intermediate_result, SQLite.get_job.
    destruct (SQLite.jobs st !! jid) as [j|] eqn:Hj; simpl.
    + rewrite lookup_delete_eq. split_and!; [by split; eauto | done | done |].
      intros other Hne. by rewrite lookup_delete_ne.
    + rewrite Hj. split_and!; [|done..].
      split; [done|]. by intros [? ?].
  - intros st.
    unfold Filesystem.delete_job, Filesystem.get_intermediate_result,
      Filesystem.get_job, Filesystem._load_job_from_disk,
      Filesystem._cleanup_intermediate.
    simpl. rewrite !lookup_delete_eq. split_and!; [|done..|].
    + rewrite orb_true_iff, !bool_decide_eq_true.
      destruct (Filesystem._jobs st !! jid) as [j|]; [by split; eauto|].
      split; [by intros [[? ?]|?]|by right].
    + intros other Hne. by rewrite !lookup_delete_ne.
Qed.

(** The filesystem store writes the job file at the terminal updates only:
    a job that was created, reported progress and saved a snapshot is
    unknown to a store constructed anew on the same directory, while its
    snapshot can still be read there. *)
Theorem filesystem_running_job_lost_on_restart (jid : string) (now : Q)
    (hook : option string) (phase : string) (p : Q) (details : option json)
    (res : json) (st : Filesystem.store) :
  Filesystem.job_files st !! jid = None →
  let st1 :=
    Filesystem.save_intermediate_result jid res
      (Filesystem.update_job_progress jid phase p details
         (Filesystem.create_job jid now hook st)) in
  let st2 :=
    Filesystem.__init__ (Filesystem.job_files st1) (Filesystem.intermediate_files st1) in
  Filesystem.get_job jid st1
  = Some (mkJob jid RUNNING now None None None p phase
                (default (JDict []) details) (Some res) hook)
  ∧ Filesystem.get_job jid st2 = None
  ∧ Filesystem.get_intermediate_result jid st2 = Some res.
Proof.
  intros Hfile.
  unfold Filesystem.save_intermediate_result, Filesystem.update_job_progress,
    Filesystem.create_job, Filesystem.get_job, Filesystem.get_intermediate_result,
    Filesystem._load_job_from_disk, Filesystem.__init__.
  simpl. rewrite !lookup_insert_eq. simpl. rewrite !lookup_insert_eq. simpl.
  rewrite !lookup_insert_eq, lookup_empty. done.
Qed.

Lemma filesystem_running_job_lost_on_restart_witness :
  Filesystem.get_job "job-1"
    (Filesystem.__init__ (Filesystem.job_files filesystem_running)
                         (Filesystem.intermediate_files filesystem_running)) = None
  ∧ is_Some (Filesystem.get_job "job-1" filesystem_running).
Proof.
  split; [|vm_compute; by eexists].
  pose proof (filesystem_running_job_lost_on_restart "job-1" 1 None "" 0 None
                sample_snapshot (Filesystem.mkStore ∅ ∅ ∅ ∅) eq_refl) as (_ & H & _).
  vm_compute in H. vm_compute. exact H.
Defined.

(** [cleanup_old_jobs] of the SQLite store removes exactly the jobs whose
    completion time lies before the cutoff [now - max_age_seconds] and
    returns their number; a job that has no completion time (a running job)
    is never removed. *)
Theorem sqlite_cleanup_old_jobs_removes_completed_before_cutoff
    (max_age_seconds : Z) (now : Q) (st : SQLite.store) :
  let cutoff := (now - inject_Z max_age_seconds)%Q in
  let r := SQLite.cleanup_old_jobs max_age_seconds now st in
  (r.1 + size (SQLite.jobs r.2) = size (SQLite.jobs st))%nat
  ∧ (∀ jid j, SQLite.get_job jid st = Some j → completed_at j = None →
       SQLite.get_job jid r.2 = Some j)
  ∧ (∀ jid j c, SQLite.get_job jid st = Some j → completed_at j = Some c →
       SQLite.get_job jid r.2 = if Qlt_le_dec c cutoff then None else Some j)
  ∧ (∀ jid, SQLite.get_job jid st = None → SQLite.get_job jid r.2 = None).
Proof.
  intros cutoff r. subst r. unfold SQLite.cleanup_old_jobs, SQLite.get_job.
  fold cutoff. simpl. split_and!.
  - rewrite <- map_size_disj_union.
    + f_equal. rewrite <- (map_filter_union_complement
                 (λ kv, SQLite.completed_before cutoff kv.2 = true) (SQLite.jobs st)) at 3.
      f_equal. apply map_filter_ext. intros i x _. simpl.
      by destruct (SQLite.completed_before cutoff x).
    + apply map_disjoint_spec. intros i x y.
      rewrite !map_lookup_filter_Some. simpl. intros [? ?] [? ?]. congruence.
  - intros jid j Hj Hc. apply map_lookup_filter_Some. split; [done|].
    simpl. unfold SQLite.completed_before. by rewrite Hc.
  - intros jid j c Hj Hc. destruct (Qlt_le_dec c cutoff) as [Hlt|Hle].
    + apply map_lookup_filter_None. right. intros x Hx. simpl.
      assert (x = j) as -> by congruence.
      unfold SQLite.completed_before. rewrite Hc.
      destruct (Qle_bool cutoff c) eqn:E; [|done].
      apply Qle_bool_iff in E. by apply Qle_not_lt in E.
    + apply map_lookup_filter_Some. split; [done|]. simpl.
      unfold SQLite.completed_before. rewrite Hc.
      apply Qle_bool_iff in Hle. by rewrite Hle.
  - intros jid Hj. apply map_lookup_filter_None. by left.
Qed.

Lemma size_filter_insert_out {A} (P : string * A → Prop) `{!∀ x, Decision (P x)}
    (m : gmap string A) (k : string) (old new : A) :
  m !! k = Some old → P (k, old) → ¬ P (k, new) →
  S (size (filter P (<[k := new]> m))) = size (filter P m).
Proof.
  intros Hk Hold Hnew. rewrite map_filter_insert_False by done.
  rewrite map_filter_delete, map_size_delete.
  assert (filter P m !! k = Some old) as Hf by (by apply map_lookup_filter_Some).
  rewrite Hf. simpl.
  assert (size (filter P m) ≠ 0%nat); [|lia].
  intros H0%map_size_empty_inv. by rewrite H0, lookup_empty in Hf.
Qed.

Lemma size_filter_insert_same {A} (P : string * A → Prop) `{!∀ x, Decision (P x)}
    (m : gmap string A) (k : string) (old new : A) :
  m !! k = Some old → (P (k, old) ↔ P (k, new)) →
  size (filter P (<[k := new]> m)) = size (filter P m).
Proof.
  intros Hk Hiff. destruct (decide (P (k, new))) as [Hn|Hn].
  - rewrite map_filter_insert_True by done.
    apply map_size_insert_Some. exists old.
    apply map_lookup_filter_Some. split; [done|]. by apply Hiff.
  - rewrite map_filter_insert_not'; [done|done|].
    intros y Hy. assert (y = old) as -> by congruence. by rewrite Hiff.
Qed.

(** The number of active jobs follows the running jobs: in the SQLite
    store (the rows whose status is running) it grows by one when a job is
    created under a new identifier, falls by one when a running job
    succeeds, fails or times out, and is not changed by progress and
    snapshot updates; in the filesystem store (the jobs held in memory) it
    grows by one at a creation under a new identifier and falls by one at
    each terminal update of a job held in memory. *)
Theorem active_job_count_follows_running_jobs (jid : string) :
  (∀ st : SQLite.store,
     (∀ now hook, SQLite.get_job jid st = None →
        SQLite.get_active_job_count (SQLite.create_job jid now hook st)
        = S (SQLite.get_active_job_count st))
     ∧ (∀ j, SQLite.get_job jid st = Some j → status j = RUNNING →
          (∀ res now,
             S (SQLite.get_active_job_count (SQLite.update_job_success jid res now st))
             = SQLite.get_active_job_count st)
          ∧ (∀ err now,
             S (SQLite.get_active_job_count (SQLite.update_job_failure jid err now st))
             = SQLite.get_active_job_count st)
          ∧ (∀ now,
             S (SQLite.get_active_job_count (SQLite.update_job_timeout jid now st))
             = SQLite.get_active_job_count st))
     ∧ (∀ phase p details,
          SQLite.get_active_job_count (SQLite.update_job_progress jid phase p details st)
          = SQLite.get_active_job_count st)
     ∧ (∀ res,
          SQLite.get_active_job_count (SQLite.save_intermediate_result jid res st)
          = SQLite.get_active_job_count st))
  ∧ (∀ st : Filesystem.store,
       (∀ now hook, Filesystem._jobs st !! jid = None →
          Filesystem.get_active_job_count (Filesystem.create_job jid now hook st)
          = S (Filesystem.get_active_job_count st))
       ∧ (∀ j, Filesystem._jobs st !! jid = Some j → status j = RUNNING →
            (∀ res now,
               S (Filesystem.get_active_job_count
                    (Filesystem.update_job_success jid res now st))
               = Filesystem.get_active_job_count st)
            ∧ (∀ err now,
               S (Filesystem.get_active_job_count
                    (Filesystem.update_job_failure jid err now st))
               = Filesystem.get_active_job_count st)
            ∧ (∀ now,
               S (Filesystem.get_active_job_count
                    (Filesystem.update_job_timeout jid now st))
               = Filesystem.get_active_job_count st))).
Proof.
  split.
  - intros st. unfold SQLite.get_active_job_count, SQLite.get_job. split_and!.
    + intros now hook Hj. unfold SQLite.create_job. simpl.
      rewrite map_filter_insert_True by done.
      apply map_size_insert_None, map_lookup_filter_None. by left.
    + intros j Hj Hrun. split_and!.
      * intros res now. unfold SQLite.update_job_success. rewrite Hj. simpl.
        by apply (size_filter_insert_out _ _ _ j).
      * intros err now. unfold SQLite.update_job_failure. rewrite Hj. simpl.
        by apply (size_filter_insert_out _ _ _ j).
      * intros now. unfold SQLite.update_job_timeout. rewrite Hj.
        rewrite bool_decide_eq_false_2 by (by rewrite Hrun). simpl.
        by apply (size_filter_insert_out _ _ _ j).
    + intros phase p details. unfold SQLite.update_job_progress.
      destruct (SQLite.jobs st !! jid) as [j|] eqn:Hj; [|done].
      case_bool_decide; [|done]. simpl.
      by apply (size_filter_insert_same _ _ _ j).
    + intros res. unfold SQLite.save_intermediate_result.
      destruct (SQLite.jobs st !! jid) as [j|] eqn:Hj; [|done]. simpl.
      by apply (size_filter_insert_same _ _ _ j).
  - intros st. unfold Filesystem.get_active_job_count. split.
    + intros now hook Hj. unfold Filesystem.create_job. simpl.
      by apply map_size_insert_None.
    + intros j Hj Hrun.
      assert (S (size (delete jid (Filesystem._jobs st))) = size (Filesystem._jobs st))
        as Hsize.
      { rewrite map_size_delete, Hj. simpl.
        assert (size (Filesystem._jobs st) ≠ 0%nat); [|lia].
        intros H0%map_size_empty_inv. by rewrite H0, lookup_empty in Hj. }
      split_and!.
      * intros res now. unfold Filesystem.update_job_success. by rewrite Hj.
      * intros err now. unfold Filesystem.update_job_failure. by rewrite Hj.
      * intros now. unfold Filesystem.update_job_timeout. rewrite Hj.
        by rewrite bool_decide_eq_false_2 by (by rewrite Hrun).
Qed.

(** ** The job manager on the two stores *)

Lemma sqlite_run_callbacks (jid : string) (callbacks : list Callback) :
  ∀ (st : SQLite.store) (j : Job),
    SQLite.jobs st !! jid = Some j → status j = RUNNING →
    ∃ j', SQLite.jobs (foldl (λ s c, run_callback jid c s) st callbacks) !! jid = Some j'
      ∧ status j' = RUNNING ∧ job_id j' = job_id j ∧ created_at j' = created_at j
      ∧ result j' = result j ∧ error j' = error j
      ∧ webhook_url j' = webhook_url j
      ∧ intermediate_result j'
        = match last (snapshots_of callbacks) with
          | Some r => Some r
          | None => intermediate_result j
          end.
Proof.
  induction callbacks as [|c callbacks IH] using rev_ind; intros st j Hj Hrun.
  { exists j. by split_and!. }
  rewrite foldl_app. cbn [foldl].
  destruct (IH st j Hj Hrun) as (j1 & Hj1 & Hs1 & Hid & Hc & Hr & He & Hw & Hi).
  set (st1 := foldl _ st callbacks) in *.
  unfold snapshots_of. rewrite omap_app. fold (snapshots_of callbacks).
  destruct c as [phase p details|r]; simpl.
  - unfold SQLite.update_job_progress. rewrite Hj1.
    rewrite bool_decide_eq_true_2 by done. simpl. rewrite lookup_insert_eq.
    eexists. split; [done|]. simpl. rewrite app_nil_r. by split_and!.
  - unfold SQLite.save_intermediate_result. rewrite Hj1. simpl.
    rewrite lookup_insert_eq. eexists. split; [done|]. simpl.
    rewrite last_snoc. by split_and!.
Qed.

Lemma filesystem_run_callbacks (jid : string) (callbacks : list Callback) :
  ∀ (st : Filesystem.store) (j : Job),
    Filesystem._jobs st !! jid = Some j →
    let st' := foldl (λ s c, run_callback jid c s) st callbacks in
    Filesystem.job_files st' = Filesystem.job_files st
    ∧ Filesystem.intermediate_files st' !! jid
      = match last (snapshots_of callbacks) with
        | Some r => Some r
        | None => Filesystem.intermediate_files st !! jid
        end
    ∧ ∃ j', Filesystem._jobs st' !! jid = Some j'
        ∧ status j' = status j ∧ job_id j' = job_id j ∧ created_at j' = created_at j
        ∧ result j' = result j ∧ error j' = error j
        ∧ webhook_url j' = webhook_url j.
Proof.
  induction callbacks as [|c callbacks IH] using rev_ind; intros st j Hj st'.
  { split_and!; [done..|]. exists j. by split_and!. }
  subst st'. rewrite foldl_app. cbn [foldl].
  destruct (IH st j Hj) as (Hfiles & Hinter & j1 & Hj1 & Hs1 & Hid & Hc & Hr & He & Hw).
  set (st1 := foldl _ st callbacks) in *.
  unfold snapshots_of. rewrite omap_app. fold (snapshots_of callbacks).
  destruct c as [phase p details|r]; simpl.
  - unfold Filesystem.update_job_progress. rewrite Hj1. simpl.
    rewrite lookup_insert_eq, app_nil_r. split_and!; [done..|].
    eexists. split; [done|]. simpl. by split_and!.
  - unfold Filesystem.save_intermediate_result. rewrite Hj1. simpl.
    rewrite !lookup_insert_eq, last_snoc. split_and!; [done..|].
    eexists. split; [done|]. simpl. by split_and!.
Qed.

(** Polling a job submitted under a new identifier after its function has
    run, in both stores.  If the
    function returned a non-empty dictionary, the status is the base
    dictionary (schema version, status "success", no results, no error)
    updated with the returned one.  If it raised, the status carries
    "failure", the text of the exception and, when the function had saved
    snapshots, the last of them as [intermediate_result]. *)
Theorem job_status_after_execution (jid : string) (now now' : Q)
    (hook : option string) (callbacks : list Callback) :
  (∀ (st0 : SQLite.store) d, SQLite.get_job jid st0 = None → d ≠ [] →
     get_job_status jid
       (_execute_job jid callbacks (Ok (JDict d)) now' (submit_job jid now hook st0))
     = Ok (Some (dict_update
                   [("schemaVersion", JNum 1); ("status", JStr "success");
                    ("results", JList []); ("error", JNull)] d)))
  ∧ (∀ (st0 : SQLite.store) e, SQLite.get_job jid st0 = None →
       get_job_status jid
         (_execute_job jid callbacks (Raise e) now' (submit_job jid now hook st0))
       = Ok (Some ([("schemaVersion", JNum 1); ("status", JStr "failure");
                    ("results", JList []); ("error", JStr e)]
                   ++ match last (snapshots_of callbacks) with
                      | Some s => if truthy s then [("intermediate_result", s)] else []
                      | None => []
                      end)))
  ∧ (∀ (st0 : Filesystem.store) d, Filesystem.get_job jid st0 = None → d ≠ [] →
       get_job_status jid
         (_execute_job jid callbacks (Ok (JDict d)) now' (submit_job jid now hook st0))
       = Ok (Some (dict_update
                     [("schemaVersion", JNum 1); ("status", JStr "success");
                      ("results", JList []); ("error", JNull)] d)))
  ∧ (∀ (st0 : Filesystem.store) e, Filesystem.get_job jid st0 = None →
       Filesystem.intermediate_files st0 !! jid = None →
       get_job_status jid
         (_execute_job jid callbacks (Raise e) now' (submit_job jid now hook st0))
       = Ok (Some ([("schemaVersion", JNum 1); ("status", JStr "failure");
                    ("results", JList []); ("error", JStr e)]
                   ++ match last (snapshots_of callbacks) with
                      | Some s => if truthy s then [("intermediate_result", s)] else []
                      | None => []
                      end))).
Proof.
  split_and!.
  - intros st0 d _ Hd. unfold _execute_job, submit_job, get_job_status.
    cbn [create_job track_future update_job_success update_job_failure get_job
         get_intermediate_result SQLiteJobStore FilesystemJobStore].
    match goal with |- context [foldl _ ?init callbacks] =>
      destruct (sqlite_run_callbacks jid callbacks init
                  (mkJob jid RUNNING now None None None 0 "" (JDict []) None hook))
        as (j1 & Hj1 & _); [simpl; apply lookup_insert_eq | done |]
    end.
    unfold SQLite.update_job_success, SQLite.get_job. rewrite Hj1. simpl.
    rewrite lookup_insert_eq. simpl.
    rewrite bool_decide_eq_false_2 by (by destruct d). done.
  - intros st0 e _. unfold _execute_job, submit_job, get_job_status.
    cbn [create_job track_future update_job_success update_job_failure get_job
         get_intermediate_result SQLiteJobStore FilesystemJobStore].
    match goal with |- context [foldl _ ?init callbacks] =>
      destruct (sqlite_run_callbacks jid callbacks init
                  (mkJob jid RUNNING now None None None 0 "" (JDict []) None hook))
        as (j1 & Hj1 & _ & _ & _ & _ & _ & _ & Hi); [simpl; apply lookup_insert_eq | done |]
    end.
    unfold SQLite.update_job_failure, SQLite.get_intermediate_result, SQLite.get_job.
    rewrite Hj1. simpl. rewrite !lookup_insert_eq. simpl. rewrite Hi.
    destruct (last (snapshots_of callbacks)) as [s|]; [|done].
    by destruct (truthy s).
  - intros st0 d _ Hd. unfold _execute_job, submit_job, get_job_status.
    cbn [create_job track_future update_job_success update_job_failure get_job
         get_intermediate_result SQLiteJobStore FilesystemJobStore].
    match goal with |- context [foldl _ ?init callbacks] =>
      destruct (filesystem_run_callbacks jid callbacks init
                  (mkJob jid RUNNING now None None None 0 "" (JDict []) None hook))
        as (_ & _ & j1 & Hj1 & Hs & Hid & _); [simpl; apply lookup_insert_eq|]
    end.
    unfold Filesystem.update_job_success, Filesystem.get_job,
      Filesystem._load_job_from_disk, Filesystem._persist_job.
    rewrite Hj1. simpl. rewrite lookup_delete_eq, Hid. simpl.
    rewrite lookup_insert_eq. simpl.
    rewrite bool_decide_eq_false_2 by (by destruct d). done.
  - intros st0 e _ Hfresh. unfold _execute_job, submit_job, get_job_status.
    cbn [create_job track_future update_job_success update_job_failure get_job
         get_intermediate_result SQLiteJobStore FilesystemJobStore].
    match goal with |- context [foldl _ ?init callbacks] =>
      destruct (filesystem_run_callbacks jid callbacks init
                  (mkJob jid RUNNING now None None None 0 "" (JDict []) None hook))
        as (_ & Hi & j1 & Hj1 & Hs & Hid & _); [simpl; apply lookup_insert_eq|]
    end.
    simpl in Hi. rewrite Hfresh in Hi.
    unfold Filesystem.update_job_failure, Filesystem.get_job,
      Filesystem.get_intermediate_result,
      Filesystem._load_job_from_disk, Filesystem._persist_job.
    rewrite Hj1. simpl. rewrite !lookup_delete_eq, Hid. simpl.
    rewrite lookup_insert_eq. simpl. rewrite Hi.
    destruct (last (snapshots_of callbacks)) as [s|]; [|done].
    by destruct (truthy s).
Qed.

(** ** Runs of the functions above on the examples *)


Lemma _bfs_clustering_gives_the_connected_components_witness :
  ∃ clusters,
    _bfs_clustering [(0, 1, (9 # 10)%Q); (1, 2, (8 # 10)%Q)] 4 = Ok clusters
    ∧ concat clusters ≡ₚ [0; 1; 2; 3].
Proof.
  destruct (_bfs_clustering_gives_the_connected_components
              [(0, 1, (9 # 10)%Q); (1, 2, (8 # 10)%Q)] 4)
    as (clusters & Hout & Hperm & _).
  - intros i j s Hin.
    apply elem_of_cons in Hin as [Hin|Hin]; [injection Hin as -> -> ->; lia|].
    apply elem_of_cons in Hin as [Hin|Hin]; [injection Hin as -> -> ->; lia|].
    by apply elem_of_nil in Hin.
  - by exists clusters.
Defined.

Lemma _create_clusters_without_louvain_witness :
  ∃ clusters,
    _create_clusters default_settings no_louvain
      [(0, 1, (9 # 10)%Q); (1, 2, (8 # 10)%Q)] 4 = Ok clusters
    ∧ concat clusters ≡ₚ [0; 1; 2; 3].
Proof.
  destruct (_create_clusters_without_louvain default_settings no_louvain
              [(0, 1, (9 # 10)%Q); (1, 2, (8 # 10)%Q)] 4)
    as (clusters & Hout & Hperm & _).
  - intros i j s Hin.
    apply elem_of_cons in Hin as [Hin|Hin]; [injection Hin as -> -> ->; lia|].
    apply elem_of_cons in Hin as [Hin|Hin]; [injection Hin as -> -> ->; lia|].
    by apply elem_of_nil in Hin.
  - left. vm_compute. reflexivity.
  - by exists clusters.
Defined.

Lemma generate_embeddings_batching_is_transparent_witness :
  generate_embeddings default_settings demo_embeddings
    ["Python What is Python? Python is a language."; "other"]
  = Ok [[1; 0]; [4 # 5; 3 # 5]]%Q.
Proof.
  destruct (generate_embeddings_batching_is_transparent default_settings
              demo_embeddings embed_text) as [H _].
  - reflexivity.
  - reflexivity.
  - reflexivity.
  - rewrite H. reflexivity.
Defined.

Lemma threshold_rises_up_to_the_cap_witness :
  ∃ st' w',
    iteration_loop default_settings norm_exact in_order ascending demo_randn
      demo_embeddings no_louvain
      (_merge_cluster_with_llm default_settings norm_exact in_order
         demo_embeddings demo_endpoint demo_parse_all demo_parse_one demo_uuid4)
      [block_a; block_b; block_c] 3 2 1
      (mkLoop ((λ b, set_embedding (Some (embed_text (create_text_blob b))) b)
                 <$> [block_a; block_b; block_c])
              (8 # 10) ∅ [])
      initial_world
    = (Ok st', w')
    ∧ (8 # 10 <= current_threshold st')%Q
    ∧ (current_threshold st' <= max_similarity_threshold default_settings)%Q.
Proof.
  eexists _, _. split; [vm_compute; reflexivity|].
  edestruct (threshold_rises_up_to_the_cap default_settings norm_exact in_order
               ascending demo_randn demo_embeddings no_louvain
               (_merge_cluster_with_llm default_settings norm_exact in_order
                  demo_embeddings demo_endpoint demo_parse_all demo_parse_one
                  demo_uuid4)
               [block_a; block_b; block_c] 3 2)
    with (iteration := 1%Z)
         (st := mkLoop ((λ b, set_embedding (Some (embed_text (create_text_blob b))) b)
                          <$> [block_a; block_b; block_c])
                       (8 # 10) ∅ [])
         (w := initial_world)
    as [Hlow Hcap].
  - by vm_compute.
  - by vm_compute.
  - vm_compute; reflexivity.
  - split; [exact Hlow | exact Hcap].
Defined.

Lemma fewer_than_two_active_blocks_no_request_witness :
  ∃ resp,
    demo_process (mkRequest "task-3" (8 # 10) 2 [block_a]) initial_world
    = (Ok resp, initial_world)
    ∧ blocksRemoved (stats resp) = 1%Z.
Proof.
  destruct (fewer_than_two_active_blocks_no_request default_settings norm_exact
              in_order ascending demo_randn demo_embeddings no_louvain
              demo_endpoint demo_parse_all demo_parse_one demo_uuid4
              (mkRequest "task-3" (8 # 10) 2 [block_a]) initial_world)
    as (resp & Hresp & _ & Hstart & Hremoved).
  - vm_compute. lia.
  - exists resp. split; [exact Hresp|]. rewrite Hremoved, Hstart. reflexivity.
Defined.

Lemma results_start_with_the_hidden_inputs_witness :
  ∃ resp w',
    demo_process demo_request initial_world = (Ok resp, w')
    ∧ take 3 (resp_results resp) = hidden_copy <$> [block_a; block_b; block_c].
Proof.
  eexists _, _. split; [vm_compute; reflexivity|].
  eapply (results_start_with_the_hidden_inputs default_settings norm_exact
            in_order ascending demo_randn demo_embeddings no_louvain
            demo_endpoint demo_parse_all demo_parse_one demo_uuid4
            demo_request initial_world).
  vm_compute; reflexivity.
Defined.

Lemma snapshots_are_prefixes_of_the_result_witness :
  ∃ resp w' (merged : list Block) snaps,
    demo_process demo_request initial_world = (Ok resp, w')
    ∧ clean_block <$> merged `suffix_of` resp_results resp
    ∧ saved_intermediate w' = snaps
    ∧ (length snaps ≤ 2)%nat.
Proof.
  eexists _, _.
  edestruct (snapshots_are_prefixes_of_the_result default_settings norm_exact
               in_order ascending demo_randn demo_embeddings no_louvain
               demo_endpoint demo_parse_all demo_parse_one demo_uuid4
               in_order_perm demo_request initial_world)
    as (merged & snaps & Hsuffix & Hsaved & Hlen & _); [vm_compute; reflexivity|].
  exists merged, snaps. split; [vm_compute; reflexivity|]. split; [exact Hsuffix|].
  split; [exact Hsaved | exact Hlen].
Defined.

